(** * Shelf: sync orchestration, cache-aside store and image cache

    A shallow embedding of the JavaScript services of the repository
    (cacheService, cachedDbService, db, imageService, discogsService,
    boardGameGeekService, syncService) and the properties of their
    specification.

    Conventions of the embedding:
    - a JavaScript value is a term of [JS.value]; numbers are the integers
      the services handle (counts, epoch milliseconds, years), a [Date] is
      its epoch-millisecond number;
    - a JavaScript [Map] is an association list in insertion order
      ([JsMap.t]); an object is the list of its own properties in
      enumeration order;
    - [Date.now()], the network, the image decoder and the DBMS are
      explicit arguments (the current time, responses, decoding and
      acceptance predicates);
    - [console.log] and friends have no effect on the modelled state and are
      left out. *)

From Stdlib Require Import ZArith Lia Ascii String List Bool Permutation Sorted.
From stdpp Require Import base tactics option list strings gmap pretty.

Set Warnings "-register-all,-clear-no-such-hyp".

Local Open Scope string_scope.
Local Open Scope list_scope.
Local Open Scope Z_scope.

(* ===================================================================== *)
(** * Part I: the embedding                                               *)
(* ===================================================================== *)

(** ** JavaScript values, strings and JSON *)

Module JS.

Inductive value : Type :=
| VUndefined
| VNull
| VBool (b : bool)
| VNum (n : Z)
| VStr (s : string)
| VArr (items : list value)
| VObj (props : list (string * value)).

(** [typeof v === 'object'] (true of [null], arrays and objects). *)
Definition typeof_object (v : value) : bool :=
  match v with
  | VNull | VArr _ | VObj _ => true
  | _ => false
  end.

(** ToBoolean. *)
Definition truthy (v : value) : bool :=
  match v with
  | VUndefined | VNull => false
  | VBool b => b
  | VNum n => negb (n =? 0)%Z
  | VStr s => negb (String.eqb s EmptyString)
  | VArr _ | VObj _ => true
  end.

(** [v !== null]. *)
Definition not_null (v : value) : bool :=
  match v with
  | VNull => false
  | _ => true
  end.

(** A default parameter value: used when the argument is [undefined]. *)
Definition default_to (d v : value) : value :=
  match v with
  | VUndefined => d
  | _ => v
  end.

(** [a || b] on values. *)
Definition or_else (a b : value) : value := if truthy a then a else b.

(** Property read [o.k] ([undefined] when absent or when [o] has no
    properties). *)
Fixpoint lookup_prop (k : string) (ps : list (string * value)) : value :=
  match ps with
  | [] => VUndefined
  | (k', v) :: r => if String.eqb k k' then v else lookup_prop k r
  end.

Definition get_prop (k : string) (o : value) : value :=
  match o with
  | VObj ps => lookup_prop k ps
  | _ => VUndefined
  end.

(** Property write [o.k = v]: an existing property keeps its place, a new
    one is added last. *)
Fixpoint assign_prop (k : string) (v : value) (ps : list (string * value))
  : list (string * value) :=
  match ps with
  | [] => [(k, v)]
  | (k', v') :: r =>
      if String.eqb k k' then (k, v) :: r else (k', v') :: assign_prop k v r
  end.

Definition set_prop (k : string) (v : value) (o : value) : value :=
  match o with
  | VObj ps => VObj (assign_prop k v ps)
  | _ => o
  end.

(** [Object.keys(o)]. *)
Definition keys (o : value) : list string :=
  match o with
  | VObj ps => map fst ps
  | _ => []
  end.

(** [Array.prototype.join] on strings. *)
Fixpoint join (sep : string) (l : list string) : string :=
  match l with
  | [] => EmptyString
  | [s] => s
  | s :: r => s +:+ sep +:+ join sep r
  end.

(** [s.includes(pat)]. *)
Fixpoint includes (pat s : string) : bool :=
  String.prefix pat s ||
  match s with
  | EmptyString => false
  | String _ r => includes pat r
  end.

(** [s.startsWith(pat)]. *)
Definition startsWith (pat s : string) : bool := String.prefix pat s.

(** Lower-case hexadecimal digit. *)
Definition hex_digit (n : N) : ascii :=
  ascii_of_N (if (n <? 10)%N then 48 + n else 87 + n).

(** QuoteJSONString, one code unit at a time. *)
Definition escape_char (c : ascii) : string :=
  let n := N_of_ascii c in
  if (n =? 34)%N then "\" +:+ String c EmptyString
  else if (n =? 92)%N then "\\"
  else if (n =? 8)%N then "\b"
  else if (n =? 9)%N then "\t"
  else if (n =? 10)%N then "\n"
  else if (n =? 12)%N then "\f"
  else if (n =? 13)%N then "\r"
  else if (n <? 32)%N then
    "\u00" +:+ String (hex_digit (n / 16)) (String (hex_digit (n mod 16)) EmptyString)
  else String c EmptyString.

Fixpoint escape (s : string) : string :=
  match s with
  | EmptyString => EmptyString
  | String c r => escape_char c +:+ escape r
  end.

Definition dquote : string := String (ascii_of_N 34) EmptyString.

Definition quote (s : string) : string := dquote +:+ escape s +:+ dquote.

(** [JSON.stringify] on the values above. An [undefined] array element is
    written [null]; a property whose value is [undefined] is left out. *)
Fixpoint stringify (v : value) : string :=
  match v with
  | VUndefined => "null"
  | VNull => "null"
  | VBool true => "true"
  | VBool false => "false"
  | VNum n => pretty n
  | VStr s => quote s
  | VArr items => "[" +:+ join "," (map stringify items) +:+ "]"
  | VObj props =>
      "{" +:+ join ","
        ((fix members (ps : list (string * value)) : list string :=
            match ps with
            | [] => []
            | (_, VUndefined) :: r => members r
            | (k, x) :: r => (quote k +:+ ":" +:+ stringify x) :: members r
            end) props) +:+ "}"
  end.

(** The members that [stringify] writes for an object, and the properties
    they come from. *)
Fixpoint members (ps : list (string * value)) : list string :=
  match ps with
  | [] => []
  | (k, x) :: r =>
      match x with
      | VUndefined => members r
      | _ => (quote k +:+ ":" +:+ stringify x) :: members r
      end
  end.

Definition is_undefined (v : value) : bool :=
  match v with
  | VUndefined => true
  | _ => false
  end.

Fixpoint defined_props (ps : list (string * value))
  : list (string * value) :=
  match ps with
  | [] => []
  | (k, x) :: r =>
      if is_undefined x then defined_props r else (k, x) :: defined_props r
  end.

(** Two condition objects denote the same conditions: each property name
    reads the same value in both, whatever the order of the properties. *)
Definition same_conditions (a b : value) : Prop :=
  forall k, get_prop k a = get_prop k b.

(** The 256 code units of a byte string. *)
Definition all_ascii : list ascii := map ascii_of_nat (seq 0 256).

(** [String(v)], also what a template literal writes: an array joins the
    strings of its elements with commas, [null] and [undefined] elements
    giving the empty string. *)
Fixpoint to_string (v : value) : string :=
  match v with
  | VUndefined => "undefined"
  | VNull => "null"
  | VBool true => "true"
  | VBool false => "false"
  | VNum n => pretty n
  | VStr s => s
  | VArr items =>
      join ","
        (map (fun x =>
                match x with
                | VUndefined | VNull => EmptyString
                | _ => to_string x
                end) items)
  | VObj _ => "[object Object]"
  end.

(** The double nearest to 0.1 is [tenth_mantissa / 2^55]. *)
Definition tenth_mantissa : Z := 3602879701896397.

(** Round a positive integer to 53 significant bits, ties to even (the
    rounding of a binary64 product). *)
Definition round53 (m : Z) : Z :=
  let bits := Z.log2 m + 1 in
  if bits <=? 53 then m
  else
    let s := bits - 53 in
    let q := Z.shiftr m s in
    let r := m - Z.shiftl q s in
    let half := Z.shiftl 1 (s - 1) in
    let up := (half <? r) || ((r =? half) && Z.odd q) in
    Z.shiftl (if up then q + 1 else q) s.

(** [Math.ceil(n * 0.1)] for a non-negative integer [n], computed as the
    binary64 arithmetic does. *)
Definition ceil_tenth (n : Z) : Z :=
  if n <=? 0 then 0
  else - ((- round53 (n * tenth_mantissa)) / 2 ^ 55).

(** [a === b] on the values compared in the services (two distinct
    objects or arrays are never identical). *)
Definition strict_eq (a b : value) : bool :=
  match a, b with
  | VUndefined, VUndefined => true
  | VNull, VNull => true
  | VBool x, VBool y => Bool.eqb x y
  | VNum x, VNum y => (x =? y)%Z
  | VStr x, VStr y => String.eqb x y
  | _, _ => false
  end.

(** [s.toLowerCase()] on the ASCII letters. *)
Definition lower (c : ascii) : ascii :=
  let n := N_of_ascii c in
  if ((65 <=? n) && (n <=? 90))%N then ascii_of_N (n + 32) else c.

Fixpoint toLowerCase (s : string) : string :=
  match s with
  | EmptyString => EmptyString
  | String c r => String (lower c) (toLowerCase r)
  end.

(** [s.substring(n)] *)
Fixpoint substring_from (n : nat) (s : string) : string :=
  match n, s with
  | O, _ => s
  | S n', String _ r => substring_from n' r
  | S _, EmptyString => EmptyString
  end.

(** [!a || a.length === 0] for a property that holds an array when present. *)
Definition missing_or_empty (a : value) : bool :=
  negb (truthy a) || match a with VArr [] => true | _ => false end.

(** [a[0]] *)
Definition first (a : value) : value :=
  match a with
  | VArr (x :: _) => x
  | VStr (String c _) => VStr (String c EmptyString)
  | VObj ps => lookup_prop "0" ps
  | _ => VUndefined
  end.

(** [array.slice(i, i + chunkSize)] for [i = 0, chunkSize, ...]. *)
Fixpoint chunks_of (fuel : nat) (chunkSize : nat) (l : list value)
  : list (list value) :=
  match fuel, l with
  | _, [] => []
  | O, _ => []
  | S fuel', _ => take chunkSize l :: chunks_of fuel' chunkSize (drop chunkSize l)
  end.

Definition chunkArray (array : list value) (chunkSize : nat)
  : list (list value) :=
  chunks_of (length array) chunkSize array.

End JS.

Export JS.

(** ** JavaScript [Map]: an insertion-ordered association list *)

Module JsMap.

Definition t (V : Type) : Type := list (string * V).

Section Ops.
Context {V : Type}.

Definition empty : t V := [].

Fixpoint get (k : string) (m : t V) : option V :=
  match m with
  | [] => None
  | (k', v) :: r => if String.eqb k k' then Some v else get k r
  end.

Definition has (k : string) (m : t V) : bool :=
  match get k m with Some _ => true | None => false end.

(** [m.set(k, v)]: an existing key keeps its position. *)
Fixpoint set (k : string) (v : V) (m : t V) : t V :=
  match m with
  | [] => [(k, v)]
  | (k', v') :: r =>
      if String.eqb k k' then (k, v) :: r else (k', v') :: set k v r
  end.

Fixpoint delete (k : string) (m : t V) : t V :=
  match m with
  | [] => []
  | (k', v') :: r =>
      if String.eqb k k' then r else (k', v') :: delete k r
  end.

Definition size (m : t V) : Z := Z.of_nat (length m).

Definition keys (m : t V) : list string := map fst m.

(** Well-formedness: a key occurs once. *)
Definition wf (m : t V) : Prop := NoDup (keys m).
End Ops.

(** The keys after [delete] and [set] depend on the keys alone. *)
Fixpoint key_delete (k : string) (l : list string) : list string :=
  match l with
  | [] => []
  | k' :: r => if String.eqb k k' then r else k' :: key_delete k r
  end.

Fixpoint key_set (k : string) (l : list string) : list string :=
  match l with
  | [] => [k]
  | k' :: r => if String.eqb k k' then k :: r else k' :: key_set k r
  end.

End JsMap.

(** ** cacheService.js: the TTL cache *)

Module CacheService.

Record t : Type := mk {
  cache : JsMap.t value;
  ttls : JsMap.t Z
}.

Definition defaultTtl : Z := 15 * 60 * 1000.
Definition maxCacheSize : Z := 1000.

(** The constructor. *)
Definition new : t := {| cache := JsMap.empty; ttls := JsMap.empty |}.

Definition generateKey (parts : list value) : string :=
  join ":" (map (fun part =>
                   if typeof_object part then stringify part
                   else to_string part) parts).

Definition delete (key : string) (c : t) : t :=
  {| cache := JsMap.delete key (cache c);
     ttls := JsMap.delete key (ttls c) |}.

(** [Array.prototype.sort] with the comparator [a - b] on the expiry
    times: a stable sort, here by insertion from the last entry to the
    first, each entry going before the entries with the same expiry time,
    which follow it in the map. *)
Fixpoint insert_by_expiry (e : string * Z) (l : list (string * Z))
  : list (string * Z) :=
  match l with
  | [] => [e]
  | x :: r =>
      if snd e <=? snd x then e :: x :: r else x :: insert_by_expiry e r
  end.

Definition sort_by_expiry (l : list (string * Z)) : list (string * Z) :=
  fold_right insert_by_expiry [] l.

Definition evictOldest (c : t) : t :=
  let entriesToRemove := ceil_tenth (JsMap.size (cache c)) in
  let sortedEntries :=
    firstn (Z.to_nat entriesToRemove) (sort_by_expiry (ttls c)) in
  fold_left (fun c' e => delete (fst e) c') sortedEntries c.

Definition set (key : string) (v : value) (ttl : Z) (now : Z) (c : t) : t :=
  let c1 :=
    if maxCacheSize <=? JsMap.size (cache c) then evictOldest c else c in
  let expiryTime := now + ttl in
  {| cache := JsMap.set key v (cache c1);
     ttls := JsMap.set key expiryTime (ttls c1) |}.

(** [!expiryTime || Date.now() > expiryTime]. *)
Definition stale (expiryTime : option Z) (now : Z) : bool :=
  match expiryTime with
  | None => true
  | Some e => (e =? 0) || (e <? now)
  end.

Definition get (key : string) (now : Z) (c : t) : value * t :=
  let expiryTime := JsMap.get key (ttls c) in
  if stale expiryTime now then (VNull, delete key c)
  else
    (match JsMap.get key (cache c) with
     | Some v => v
     | None => VUndefined
     end, c).

Definition has (key : string) (now : Z) (c : t) : bool * t :=
  let expiryTime := JsMap.get key (ttls c) in
  if stale expiryTime now then (false, delete key c)
  else (JsMap.has key (cache c), c).

Definition clear (c : t) : t := new.

(** The loop visits the keys of the map while deleting the visited key;
    a deletion never hides a key not yet visited. *)
Definition invalidatePattern (pattern : string) (c : t) : Z * t :=
  fold_left
    (fun acc key =>
       if includes pattern key then (fst acc + 1, delete key (snd acc))
       else acc)
    (JsMap.keys (cache c)) (0, c).

Definition cleanup (now : Z) (c : t) : t :=
  fold_left
    (fun c' e => if snd e <? now then delete (fst e) c' else c')
    (ttls c) c.

(** A use of the cache at a given reading of the clock, and a sequence
    of uses from the freshly constructed cache. *)
Inductive op : Type :=
| OpSet (key : string) (v : value) (ttl : Z)
| OpGet (key : string)
| OpHas (key : string)
| OpDelete (key : string)
| OpClear
| OpInvalidatePattern (pattern : string)
| OpCleanup.

Definition step (c : t) (e : Z * op) : t :=
  let now := fst e in
  match snd e with
  | OpSet key v ttl => set key v ttl now c
  | OpGet key => snd (get key now c)
  | OpHas key => snd (has key now c)
  | OpDelete key => delete key c
  | OpClear => clear c
  | OpInvalidatePattern pattern => snd (invalidatePattern pattern c)
  | OpCleanup => cleanup now c
  end.

Definition run (l : list (Z * op)) : t := fold_left step l new.

(** The two maps of the cache hold the same keys, in the same order, and
    each key once. *)
Definition inv (c : t) : Prop :=
  JsMap.keys (cache c) = JsMap.keys (ttls c) /\ JsMap.wf (cache c).

Definition size (c : t) : Z := JsMap.size (cache c).

(** The order [evictOldest] sorts by. *)
Definition expiry_le (x y : string * Z) : Prop := snd x <= snd y.

End CacheService.

(** ** Effects: exceptions, the clock, the network, files and the store *)

Module Effects.

(** The result of a call: a value, or an exception with its message. *)
Inductive outcome (A : Type) : Type :=
| Return (a : A)
| Throw (message : string).
Arguments Return {A} a.
Arguments Throw {A} message.

(** An HTTP response as the services read it. *)
Record response : Type := {
  ok : bool;
  status : Z;
  statusText : string;
  contentType : option string;   (* [headers.get('content-type')] *)
  body : string
}.

(** What lies outside the process. Each is read where the code calls it. *)
Record Env : Type := {
  (* the [n]-th reading of [Date.now()] / [new Date()] *)
  Date_now : nat -> Z;
  (* [new Date(v)] for a date the API sent *)
  new_Date : value -> value;
  (* [fetch(url)]: a response, or a rejection (network error, abort) *)
  fetch : string -> outcome response;
  (* [sharp(file).metadata()] succeeds on these bytes *)
  sharp_metadata : string -> bool;
  (* [sharp(buffer).resize(n, n, _).jpeg(_)]: the re-encoded bytes, or
     nothing when the buffer does not decode *)
  sharp_jpeg : Z -> string -> option string;
  (* what [toFile] leaves at the target when the buffer does not decode:
     nothing when it fails before the file is opened, or the bytes written
     until then (an empty file when the target was opened and nothing was
     written) *)
  sharp_partial : string -> option string;
  (* [itunesService.searchAlbum(title, artist)]: the pair it resolves to
     (it catches its own failures) *)
  itunes_searchAlbum : value -> value -> value * value;
  (* the DBMS: the error, if any, with which it answers the [n]-th
     statement, on a table and with the parameters given (constraint
     violations, lost connections); its [CURRENT_TIMESTAMP] during that
     statement; and its [ORDER BY] *)
  dbms_error : nat -> string -> value -> option string;
  current_timestamp : nat -> Z;
  (* what the driver returns from a JSONB or DECIMAL column for a
     parameter that was written to it: the parsed document for a JSON
     text, the text of the decimal for a number *)
  pg_read : string -> value -> value;
  order_by : string -> list (list (string * value))
             -> list (list (string * value));
  (* the work items of a batch run one after the other, in an order the
     event loop picks *)
  schedule : list value -> list value;
  (* [parseInt(v)] and [parseFloat(v)], a falsy value standing for [NaN] *)
  parseInt : value -> value;
  parseFloat : value -> value;
  (* [boardGameGeekService.getGameDetails(gameIds)]: the parsed XML, or a
     rejection *)
  bgg_getGameDetails : list value -> outcome value;
  (* config/index.js *)
  config_maxArtSize : Z;
  config_discogs_token : value;
  config_recordsEnabled : bool;
  config_boardGamesEnabled : bool
}.

(** A call on the persistent store, as recorded in the trace. *)
Inductive db_call : Type :=
| CallFindMany (table : string) (conditions orderBy : value)
| CallFindOne (table : string) (conditions : value)
| CallCount (table : string) (conditions : value)
| CallCreate (table : string) (data : value)
| CallUpdate (table : string) (data conditions : value)
| CallUpsert (table : string) (data conflictColumns : value)
| CallDelete (table : string) (conditions : value)
| CallBatchUpsert (table : string) (dataArray conflictColumns : value).

(** The state the services act on. [requests] and [calls] are traces
    (most recent first) of the image requests sent, each with its URL and
    custom headers, and of the calls made on the store. *)
Record world (DB : Type) : Type := mkWorld {
  db : DB;
  cacheService : CacheService.t;
  files : gmap string string;
  directories : gset string;
  requests : list (string * value);
  calls : list db_call;
  clock_reads : nat
}.
Arguments mkWorld {DB}.
Arguments db {DB}.
Arguments cacheService {DB}.
Arguments files {DB}.
Arguments directories {DB}.
Arguments requests {DB}.
Arguments calls {DB}.
Arguments clock_reads {DB}.

Section Monad.
Context {DB : Type}.

Definition M (A : Type) : Type := world DB -> outcome A * world DB.

Definition ret {A} (a : A) : M A := fun w => (Return a, w).

Definition bind {A B} (m : M A) (k : A -> M B) : M B :=
  fun w =>
    match m w with
    | (Return a, w') => k a w'
    | (Throw e, w') => (Throw e, w')
    end.

Definition throw {A} (e : string) : M A := fun w => (Throw e, w).

(** [await p] for a promise of the outside world that settles with [o]. *)
Definition await {A} (o : outcome A) : M A := fun w => (o, w).

(** [try { m } catch (error) { h error.message }] *)
Definition try_catch {A} (m : M A) (h : string -> M A) : M A :=
  fun w =>
    match m w with
    | (Return a, w') => (Return a, w')
    | (Throw e, w') => h e w'
    end.

(** [try { m } finally { f }] *)
Definition try_finally {A} (m : M A) (f : M unit) : M A :=
  fun w =>
    match m w with
    | (r, w') =>
        match f w' with
        | (Return _, w'') => (r, w'')
        | (Throw e, w'') => (Throw e, w'')
        end
    end.

Definition with_db (d : DB) (w : world DB) : world DB :=
  mkWorld d (cacheService w) (files w) (directories w) (requests w)
    (calls w) (clock_reads w).

Definition with_cache (c : CacheService.t) (w : world DB) : world DB :=
  mkWorld (db w) c (files w) (directories w) (requests w) (calls w)
    (clock_reads w).

Definition with_files (f : gmap string string) (w : world DB) : world DB :=
  mkWorld (db w) (cacheService w) f (directories w) (requests w)
    (calls w) (clock_reads w).

Definition with_directories (d : gset string) (w : world DB) : world DB :=
  mkWorld (db w) (cacheService w) (files w) d (requests w) (calls w)
    (clock_reads w).

Definition with_requests (r : list (string * value)) (w : world DB)
  : world DB :=
  mkWorld (db w) (cacheService w) (files w) (directories w) r (calls w)
    (clock_reads w).

Definition with_calls (l : list db_call) (w : world DB) : world DB :=
  mkWorld (db w) (cacheService w) (files w) (directories w) (requests w)
    l (clock_reads w).

Definition with_clock_reads (n : nat) (w : world DB) : world DB :=
  mkWorld (db w) (cacheService w) (files w) (directories w) (requests w)
    (calls w) n.

(** [Date.now()]. *)
Definition date_now (E : Env) : M Z :=
  fun w =>
    (Return (Date_now E (clock_reads w)),
     with_clock_reads (S (clock_reads w)) w).

(** A call on the store: recorded, then run on the store's state. *)
Definition call_db (c : db_call) (op : DB -> outcome value * DB)
  : M value :=
  fun w =>
    let w1 := with_calls (c :: calls w) w in
    match op (db w1) with
    | (r, d) => (r, with_db d w1)
    end.

(** The methods of the cache singleton. [get] and [has] read the clock
    only when the key has a truthy expiry time. *)
Definition has_expiry (key : string) (c : CacheService.t) : bool :=
  match JsMap.get key (CacheService.ttls c) with
  | Some e => negb (e =? 0)
  | None => false
  end.

Definition cache_get (E : Env) (key : string) : M value :=
  fun w =>
    let c := cacheService w in
    if has_expiry key c then
      let now := Date_now E (clock_reads w) in
      match CacheService.get key now c with
      | (v, c') =>
          (Return v,
           with_cache c' (with_clock_reads (S (clock_reads w)) w))
      end
    else
      match CacheService.get key 0 c with
      | (v, c') => (Return v, with_cache c' w)
      end.

Definition cache_set (E : Env) (key : string) (v : value) (ttl : Z)
  : M unit :=
  fun w =>
    let now := Date_now E (clock_reads w) in
    (Return tt,
     with_cache (CacheService.set key v ttl now (cacheService w))
       (with_clock_reads (S (clock_reads w)) w)).

Definition cache_invalidatePattern (pattern : string) : M Z :=
  fun w =>
    match CacheService.invalidatePattern pattern (cacheService w) with
    | (n, c') => (Return n, with_cache c' w)
    end.
End Monad.

Arguments M : clear implicits.

Declare Scope js_scope.
Delimit Scope js_scope with js.
Notation "x <- m ;; k" := (bind m (fun x => k))
  (at level 100, m at next level, right associativity) : js_scope.
Notation "m ;;; k" := (bind m (fun _ => k))
  (at level 100, right associativity) : js_scope.

End Effects.

Export Effects.
Local Open Scope js_scope.

(** ** Reasoning about calls *)

(** [wp m w Q]: the call [m], made in the world [w], ends with an outcome
    and in a world that satisfy [Q]. *)
Definition wp {DB A : Type} (m : M DB A) (w : world DB)
  (Q : outcome A -> world DB -> Prop) : Prop :=
  Q (fst (m w)) (snd (m w)).

(** The call leaves the store alone. *)
Definition keeps_db {DB A : Type} (m : M DB A) : Prop :=
  forall w, db (snd (m w)) = db w.

(** The call returns; it does not raise. *)
Definition returns {DB A : Type} (m : M DB A) : Prop :=
  forall w, exists a, fst (m w) = Return a.

(** The item as the catalog sees it: its identity and its two flags. *)
Definition flagged (isWishlist : bool) (data : value) : Prop :=
  get_prop "in_collection" data = VBool (negb isWishlist) /\
  get_prop "in_wishlist" data = VBool isWishlist.

Definition same_item (a b : value) : Prop :=
  get_prop "external_id" b = get_prop "external_id" a /\
  get_prop "in_collection" b = get_prop "in_collection" a /\
  get_prop "in_wishlist" b = get_prop "in_wishlist" a.

(** ** The persistent store as [cachedDbService] sees it: the methods it
    calls on [db]. *)

Class Store (DB : Type) : Type := {
  db_findMany : string -> value -> value -> DB -> outcome value * DB;
  db_findOne : string -> value -> DB -> outcome value * DB;
  db_count : string -> value -> DB -> outcome value * DB;
  db_create : string -> value -> DB -> outcome value * DB;
  db_update : string -> value -> value -> DB -> outcome value * DB;
  db_upsert : string -> value -> value -> DB -> outcome value * DB;
  db_delete : string -> value -> DB -> outcome value * DB;
  db_batchUpsert : string -> value -> value -> DB -> outcome value * DB
}.

(** ** db.js: the statements sent to PostgreSQL *)

Module Database.

(** A row is the object the driver returns for it; the serial [id] column
    is left out. *)
Definition row : Type := list (string * value).

Record t : Type := mk {
  tables : gmap string (list row);
  statements : nat
}.

(** A parameter as the driver sends it: [undefined] becomes [NULL]. *)
Definition sql_value (v : value) : value :=
  match v with
  | VUndefined => VNull
  | _ => v
  end.

(** [a = b] in a [WHERE] clause or a unique index: never true of [NULL]. *)
Definition sql_eq (a b : value) : bool :=
  match a, b with
  | VBool x, VBool y => Bool.eqb x y
  | VNum x, VNum y => (x =? y)%Z
  | VStr x, VStr y => String.eqb x y
  | _, _ => false
  end.

(** [k1 = $1 AND k2 = $2 ...] for the properties of [conditions]. *)
Definition matches (conditions : list (string * value)) (r : row) : bool :=
  forallb (fun kv => sql_eq (lookup_prop (fst kv) r) (sql_value (snd kv)))
    conditions.

Definition props (o : value) : list (string * value) :=
  match o with
  | VObj ps => ps
  | _ => []
  end.

(** The elements of an array of column names. *)
Definition strings_of (v : value) : list string :=
  match v with
  | VArr l => map to_string l
  | _ => []
  end.

(** The column types of schema.sql. A column name has the same type in
    every table that has it. *)
Inductive sqltype : Type :=
| Boolean | Text | Integer | Decimal | Jsonb | Timestamp.

Definition column_type (column : string) : option sqltype :=
  let among := existsb (String.eqb column) in
  if among ["sync_in_progress"; "in_collection"; "in_wishlist"] then
    Some Boolean
  else if among ["service"; "error_message"; "external_id"; "artist";
                 "sort_artist"; "title"; "format"; "country"; "label";
                 "catalog_number"; "thumb_url"; "cover_image_url";
                 "cover_image_local_path"; "discogs_image_local_path";
                 "itunes_image_local_path"; "name"; "description";
                 "image_url"; "author"; "isbn"] then
    Some Text
  else if among ["year_of_original_release"; "year_of_release";
                 "year_published"; "min_players"; "max_players";
                 "playing_time"; "min_age"; "rank"; "publication_year";
                 "page_count"] then
    Some Integer
  else if among ["rating"; "complexity_rating"] then Some Decimal
  else if among ["genres"; "styles"; "mechanics"; "categories"] then
    Some Jsonb
  else if among ["last_sync_at"; "date_added"; "created_at"; "updated_at"]
  then Some Timestamp
  else None.

(** The columns whose values do not read back as they were sent. *)
Definition converted (column : string) : bool :=
  match column_type column with
  | Some Jsonb | Some Decimal => true
  | _ => false
  end.


(** The column defaults of schema.sql. *)
Definition defaults (table : string) (ts : Z) : row :=
  if String.eqb table "sync_status" then
    [("sync_in_progress", VBool false);
     ("created_at", VNum ts); ("updated_at", VNum ts)]
  else
    [("in_collection", VBool true); ("in_wishlist", VBool false);
     ("created_at", VNum ts); ("updated_at", VNum ts)].

Section Statements.
Context (E : Env).

(** What a column holds, as the driver returns it, once a parameter has
    been written to it. [NULL] is [null] in every column; a JSONB or
    DECIMAL column converts what it is sent; in the other columns the
    parameter is kept as it was sent (the services send them values of
    the column's own type). *)
Definition stored (column : string) (v : value) : value :=
  match sql_value v with
  | VNull => VNull
  | v' => if converted column then pg_read E column v' else v'
  end.

(** [SET k = v, ...] on a row. *)
Definition assign (ps : list (string * value)) (r : row) : row :=
  fold_left (fun r kv => assign_prop (fst kv) (stored (fst kv) (snd kv)) r)
    ps r.

(** One statement: counted, refused by the DBMS or run on the rows of
    the table. *)
Definition statement (table : string) (params : value)
  (f : Z -> list row -> value * list row) (d : t) : outcome value * t :=
  let n := statements d in
  match dbms_error E n table params with
  | Some e => (Throw e, mk (tables d) (S n))
  | None =>
      match tables d !! table with
      | None =>
          (Throw ("relation " +:+ table +:+ " does not exist"),
           mk (tables d) (S n))
      | Some rows =>
          match f (current_timestamp E n) rows with
          | (r, rows') => (Return r, mk (<[table := rows']> (tables d)) (S n))
          end
      end
  end.

Definition syntax_error (d : t) : outcome value * t :=
  (Throw "syntax error", mk (tables d) (S (statements d))).

(** [rows[0] || null] *)
Definition first_or_null (rows : list row) : value :=
  match rows with
  | r :: _ => VObj r
  | [] => VNull
  end.

(** [rows[0]] *)
Definition first_or_undefined (rows : list row) : value :=
  match rows with
  | r :: _ => VObj r
  | [] => VUndefined
  end.

Definition findOne (table : string) (conditions : value) (d : t)
  : outcome value * t :=
  let conditions := props (default_to (VObj []) conditions) in
  statement table (VObj conditions)
    (fun _ rows => (first_or_null (filter (matches conditions) rows), rows))
    d.

Definition findMany (table : string) (conditions orderBy : value) (d : t)
  : outcome value * t :=
  let conditions := props (default_to (VObj []) conditions) in
  statement table (VObj conditions)
    (fun _ rows =>
       let found := filter (matches conditions) rows in
       let sorted :=
         if truthy orderBy then order_by E (to_string orderBy) found
         else found in
       (VArr (map VObj sorted), rows))
    d.

(** [INSERT INTO table (keys) VALUES (keys.map(key => data[key]))]: the
    row proposed for insertion. *)
Definition proposed_row (table : string) (data : value) (ts : Z) : row :=
  assign (map (fun k => (k, get_prop k data)) (JS.keys data))
    (defaults table ts).

(** The row collides with the proposed one on the unique columns. *)
Definition conflicts (conflictColumns : list string) (proposed r : row)
  : bool :=
  match conflictColumns with
  | [] => false
  | _ =>
      forallb (fun c => sql_eq (lookup_prop c r) (lookup_prop c proposed))
        conflictColumns
  end.

(** [keys.filter(key => !conflictColumns.includes(key))] *)
Definition updateColumns (data : value) (conflictColumns : list string)
  : list string :=
  filter (fun key => negb (existsb (String.eqb key) conflictColumns))
    (JS.keys data).

(** [DO UPDATE SET k = EXCLUDED.k ..., updated_at = CURRENT_TIMESTAMP] *)
Definition updated_row (data : value) (conflictColumns : list string)
  (ts : Z) (r : row) : row :=
  assign_prop "updated_at" (VNum ts)
    (assign
       (map (fun k => (k, get_prop k data))
          (updateColumns data conflictColumns)) r).

Definition upsert_rows (table : string) (data : value)
  (conflictColumns : list string) (ts : Z) (rows : list row)
  : value * list row :=
  let proposed := proposed_row table data ts in
  let hit := conflicts conflictColumns proposed in
  let updated := updated_row data conflictColumns ts in
  if existsb hit rows then
    (first_or_undefined (map updated (filter hit rows)),
     map (fun r => if hit r then updated r else r) rows)
  else (VObj proposed, rows ++ [proposed]).

(** [INSERT ... ON CONFLICT (conflictColumns) DO UPDATE SET ... RETURNING *] *)
Definition upsert (table : string) (data conflictColumns : value) (d : t)
  : outcome value * t :=
  let conflictColumns := strings_of conflictColumns in
  match conflictColumns, updateColumns data conflictColumns with
  | _ :: _, [] => syntax_error d
  | _, _ => statement table data (upsert_rows table data conflictColumns) d
  end.

(** [SET k = v ..., updated_at = CURRENT_TIMESTAMP] on the rows that the
    conditions select. *)
Definition set_row (data : value) (ts : Z) (r : row) : row :=
  assign_prop "updated_at" (VNum ts)
    (assign (map (fun k => (k, get_prop k data)) (JS.keys data)) r).

Definition update_rows (data conditions : value) (ts : Z) (rows : list row)
  : value * list row :=
  let hit := matches (props conditions) in
  (first_or_undefined (map (set_row data ts) (filter hit rows)),
   map (fun r => if hit r then set_row data ts r else r) rows).

(** [UPDATE table SET ... WHERE ... RETURNING *] *)
Definition update (table : string) (data conditions : value) (d : t)
  : outcome value * t :=
  match JS.keys data, JS.keys conditions with
  | [], _ | _, [] => syntax_error d
  | _, _ => statement table data (update_rows data conditions) d
  end.

(** [DELETE FROM table WHERE ... RETURNING *] *)
Definition delete (table : string) (conditions : value) (d : t)
  : outcome value * t :=
  match JS.keys conditions with
  | [] => syntax_error d
  | _ =>
      statement table conditions
        (fun _ rows =>
           let hit := matches (props conditions) in
           (VArr (map VObj (filter hit rows)),
            filter (fun r => negb (hit r)) rows))
        d
  end.

(** [db] has no method of that name: the call raises a [TypeError]
    before anything is sent. *)
Definition not_a_function (name : string) (d : t) : outcome value * t :=
  (Throw ("db." +:+ name +:+ " is not a function"), d).
End Statements.

(** An empty database with the tables of schema.sql and its three
    [sync_status] rows. *)
Definition schema : t :=
  mk (<["sync_status" :=
          [ [("service", VStr "discogs"); ("last_sync_at", VNull);
             ("sync_in_progress", VBool false); ("error_message", VNull)];
            [("service", VStr "boardgamegeek"); ("last_sync_at", VNull);
             ("sync_in_progress", VBool false); ("error_message", VNull)];
            [("service", VStr "goodreads"); ("last_sync_at", VNull);
             ("sync_in_progress", VBool false); ("error_message", VNull)] ]]>
        (<["records" := []]> (<["board_games" := []]>
          (<["books" := []]> ∅)))) 0.

(** Observations on the catalog tables and on [sync_status]. *)
Definition has_id (id : string) (r : row) : bool :=
  sql_eq (lookup_prop "external_id" r) (VStr id).

Definition wishlisted (r : row) : Prop :=
  lookup_prop "in_collection" r = VBool false /\
  lookup_prop "in_wishlist" r = VBool true.

Definition table_exists (table : string) (d : t) : Prop :=
  is_Some (tables d !! table).

(** The table holds the id, and every row that holds it is flagged as a
    wishlist item and not as a collection item. *)
Definition on_wishlist_only (table id : string) (d : t) : Prop :=
  exists rows,
    tables d !! table = Some rows /\
    Exists (fun r => has_id id r = true) rows /\
    Forall (fun r => has_id id r = true -> wishlisted r) rows.

Definition of_service (service : string) (r : row) : bool :=
  sql_eq (lookup_prop "service" r) (VStr service).

Definition has_status (service : string) (d : t) : Prop :=
  exists rows,
    tables d !! "sync_status" = Some rows /\
    Exists (fun r => of_service service r = true) rows.

(** The row of [table] whose column [c] holds [v]. *)
Definition row_of (table c : string) (v : value) (d : t) : option row :=
  match tables d !! table with
  | Some rows => head (filter (fun r => sql_eq (lookup_prop c r) v) rows)
  | None => None
  end.

End Database.

(** [db] as the store of [cachedDbService]. *)
Definition Database_Store (E : Env) : Store Database.t := {|
  db_findMany := Database.findMany E;
  db_findOne := Database.findOne E;
  db_count := fun _ _ => Database.not_a_function "count";
  db_create := fun _ _ => Database.not_a_function "create";
  db_update := Database.update E;
  db_upsert := Database.upsert E;
  db_delete := Database.delete E;
  db_batchUpsert := fun _ _ _ => Database.not_a_function "batchUpsert"
|}.

(** What holds of the store and is kept by a call, by the upserts of a pass
    over one list, and by the updates of a status row. *)
Definition preserves {DB A : Type} (P : DB -> Prop) (m : M DB A) : Prop :=
  forall w, P (db w) -> P (db (snd (m w))).

Definition kept_by_upserts (E : Env) (table : string) (isWishlist : bool)
  (P : Database.t -> Prop) : Prop :=
  forall data d r d',
    flagged isWishlist data ->
    Database.upsert E table data (VArr [VStr "external_id"]) d = (r, d') ->
    P d -> P d'.

Definition kept_by_any_upsert (E : Env) (table : string)
  (P : Database.t -> Prop) : Prop :=
  forall data cols d r d',
    Database.upsert E table data cols d = (r, d') -> P d -> P d'.

Definition kept_by_status_updates (E : Env) (P : Database.t -> Prop) : Prop :=
  forall data service d r d',
    "service" ∉ JS.keys data ->
    Database.update E "sync_status" data (VObj [("service", VStr service)]) d
    = (r, d') ->
    P d -> P d'.

(** ** cachedDbService.js: the cache-aside store *)

Module CachedDbService.

(** [this.cacheTtls[table] || this.cacheTtls.static] *)
Definition cacheTtl (table : string) : Z :=
  if String.eqb table "records" then 10 * 60 * 1000
  else if String.eqb table "board_games" then 15 * 60 * 1000
  else if String.eqb table "books" then 15 * 60 * 1000
  else if String.eqb table "sync_status" then 30 * 1000
  else 60 * 60 * 1000.

Section Methods.
Context (E : Env) {DB : Type} `{Store DB}.

Definition invalidateTable (table : string) : M DB unit :=
  _ <- cache_invalidatePattern (":" +:+ table +:+ ":") ;;
  ret tt.

Definition findMany (table : string) (conditions orderBy : value)
  : M DB value :=
  let conditions := default_to (VObj []) conditions in
  let orderBy := default_to VNull orderBy in
  let cacheKey :=
    CacheService.generateKey
      [VStr "findMany"; VStr table; conditions; orderBy] in
  cached <- cache_get E cacheKey ;;
  if not_null cached then ret cached
  else
    result <- call_db (CallFindMany table conditions orderBy)
                (db_findMany table conditions orderBy) ;;
    cache_set E cacheKey result (cacheTtl table) ;;;
    ret result.

Definition findOne (table : string) (conditions : value) : M DB value :=
  let conditions := default_to (VObj []) conditions in
  let cacheKey :=
    CacheService.generateKey [VStr "findOne"; VStr table; conditions] in
  cached <- cache_get E cacheKey ;;
  if not_null cached then ret cached
  else
    result <- call_db (CallFindOne table conditions)
                (db_findOne table conditions) ;;
    cache_set E cacheKey result (cacheTtl table) ;;;
    ret result.

Definition count (table : string) (conditions : value) : M DB value :=
  let conditions := default_to (VObj []) conditions in
  let cacheKey :=
    CacheService.generateKey [VStr "count"; VStr table; conditions] in
  cached <- cache_get E cacheKey ;;
  if not_null cached then ret cached
  else
    result <- call_db (CallCount table conditions)
                (db_count table conditions) ;;
    cache_set E cacheKey result (cacheTtl table) ;;;
    ret result.

Definition create (table : string) (data : value) : M DB value :=
  result <- call_db (CallCreate table data) (db_create table data) ;;
  invalidateTable table ;;;
  ret result.

(** The second and third arguments are handed to [db.update] in the
    order received. *)
Definition update (table : string) (conditions data : value)
  : M DB value :=
  result <- call_db (CallUpdate table conditions data)
              (db_update table conditions data) ;;
  invalidateTable table ;;;
  ret result.

Definition upsert (table : string) (data conflictColumns : value)
  : M DB value :=
  result <- call_db (CallUpsert table data conflictColumns)
              (db_upsert table data conflictColumns) ;;
  invalidateTable table ;;;
  ret result.

Definition delete (table : string) (conditions : value) : M DB value :=
  result <- call_db (CallDelete table conditions)
              (db_delete table conditions) ;;
  invalidateTable table ;;;
  ret result.

Definition batchUpsert (table : string) (dataArray conflictColumns : value)
  : M DB value :=
  result <- call_db (CallBatchUpsert table dataArray conflictColumns)
              (db_batchUpsert table dataArray conflictColumns) ;;
  invalidateTable table ;;;
  ret result.

(** [invalidateTableConditions(table, conditions = {})] *)
Definition invalidateTableConditions (table : string) (conditions : value)
  : M DB unit :=
  let conditions := default_to (VObj []) conditions in
  let pattern :=
    CacheService.generateKey [VStr EmptyString; VStr table; conditions] in
  _ <- cache_invalidatePattern pattern ;;
  ret tt.
End Methods.

(** The reads and writes of the service, and sessions of them. *)
Inductive read_op : Type :=
| FindMany (conditions orderBy : value)
| FindOne (conditions : value)
| Count (conditions : value).

Inductive write_op : Type :=
| Create (data : value)
| Update (conditions data : value)
| Upsert (data conflictColumns : value)
| Delete (conditions : value)
| BatchUpsert (dataArray conflictColumns : value).

Inductive request : Type :=
| Read (table : string) (o : read_op)
| Write (table : string) (o : write_op).

(** The cache key of a read, the call it makes on a miss and the store
    method behind it. *)
Definition read_key (table : string) (o : read_op) : string :=
  match o with
  | FindMany conditions orderBy =>
      CacheService.generateKey
        [VStr "findMany"; VStr table; default_to (VObj []) conditions;
         default_to VNull orderBy]
  | FindOne conditions =>
      CacheService.generateKey
        [VStr "findOne"; VStr table; default_to (VObj []) conditions]
  | Count conditions =>
      CacheService.generateKey
        [VStr "count"; VStr table; default_to (VObj []) conditions]
  end.

Definition read_call (table : string) (o : read_op) : db_call :=
  match o with
  | FindMany conditions orderBy =>
      CallFindMany table (default_to (VObj []) conditions)
        (default_to VNull orderBy)
  | FindOne conditions => CallFindOne table (default_to (VObj []) conditions)
  | Count conditions => CallCount table (default_to (VObj []) conditions)
  end.

Section Sessions.
Context (E : Env) {DB : Type} `{Store DB}.

Definition db_read (table : string) (o : read_op)
  : DB -> outcome value * DB :=
  match o with
  | FindMany conditions orderBy =>
      db_findMany table (default_to (VObj []) conditions)
        (default_to VNull orderBy)
  | FindOne conditions => db_findOne table (default_to (VObj []) conditions)
  | Count conditions => db_count table (default_to (VObj []) conditions)
  end.

Definition read (table : string) (o : read_op) : M DB value :=
  match o with
  | FindMany conditions orderBy => findMany E table conditions orderBy
  | FindOne conditions => findOne E table conditions
  | Count conditions => count E table conditions
  end.

Definition write (table : string) (o : write_op) : M DB value :=
  match o with
  | Create data => create table data
  | Update conditions data => update table conditions data
  | Upsert data conflictColumns => upsert table data conflictColumns
  | Delete conditions => delete table conditions
  | BatchUpsert dataArray conflictColumns =>
      batchUpsert table dataArray conflictColumns
  end.

Definition perform (r : request) : M DB value :=
  match r with
  | Read table o => read table o
  | Write table o => write table o
  end.

(** The process at start-up, over a store in state [d]. *)
Definition start (d : DB) : world DB :=
  mkWorld d CacheService.new ∅ ∅ [] [] 0.

Definition session (l : list request) (d : DB) : world DB :=
  fold_left (fun w r => snd (perform r w)) l (start d).

(** The store method behind a write, and the call a write makes. *)
Definition db_write (table : string) (o : write_op)
  : DB -> outcome value * DB :=
  match o with
  | Create data => db_create table data
  | Update conditions data => db_update table conditions data
  | Upsert data conflictColumns => db_upsert table data conflictColumns
  | Delete conditions => db_delete table conditions
  | BatchUpsert dataArray conflictColumns =>
      db_batchUpsert table dataArray conflictColumns
  end.
End Sessions.

Definition write_call (table : string) (o : write_op) : db_call :=
  match o with
  | Create data => CallCreate table data
  | Update conditions data => CallUpdate table conditions data
  | Upsert data conflictColumns => CallUpsert table data conflictColumns
  | Delete conditions => CallDelete table conditions
  | BatchUpsert dataArray conflictColumns =>
      CallBatchUpsert table dataArray conflictColumns
  end.

End CachedDbService.

(** ** imageService.js: the image cache *)

Module ImageService.

(** [path.join] of a directory and a plain name. *)
Definition path_join (a b : string) : string := a +:+ "/" +:+ b.

Definition baseImagePath : string := "public/images".
Definition recordsPath : string := path_join baseImagePath "records".
Definition boardGamesPath : string := path_join baseImagePath "board-games".
Definition booksPath : string := path_join baseImagePath "books".

Section Methods.
Context (E : Env) {DB : Type}.

(** [fs.stat] fails on a missing file, [sharp(...).metadata()] on bytes
    that are not an image; both land in the [catch]. *)
Definition validateExistingImage (filePath : string) : M DB bool :=
  fun w =>
    match files w !! filePath with
    | None => (Return false, w)
    | Some bytes =>
        if (String.length bytes =? 0)%nat then (Return false, w)
        else (Return (sharp_metadata E bytes), w)
    end.

Definition ensureDirectoryExists (directoryPath : string) : M DB unit :=
  fun w =>
    if decide (directoryPath ∈ directories w) then (Return tt, w)
    else (Return tt, with_directories ({[directoryPath]} ∪ directories w) w).

(** [await fetch(url, { method: 'GET', headers, ... })]: the request is
    sent, then answered or rejected. *)
Definition http_get (url : string) (customHeaders : value) : M DB response :=
  fun w => (fetch E url, with_requests ((url, customHeaders) :: requests w) w).

(** [sharp(buffer).resize(...).jpeg(...).toFile(filepath)] *)
Definition sharp_toFile (buffer filepath : string) : M DB unit :=
  fun w =>
    match sharp_jpeg E (config_maxArtSize E) buffer with
    | Some bytes => (Return tt, with_files (<[filepath := bytes]> (files w)) w)
    | None =>
        (Throw "Input buffer contains unsupported image format",
         match sharp_partial E buffer with
         | Some partial => with_files (<[filepath := partial]> (files w)) w
         | None => w
         end)
    end.

(** [contentType && contentType.includes('text/html')] *)
Definition is_html (contentType : option string) : bool :=
  match contentType with
  | Some ct => includes "text/html" ct
  | None => false
  end.

Definition downloadImage (url : value)
  (destinationDirectoryPath destinationFilename : string)
  (customHeaders : value) (rateLimiter : option (M DB unit)) : M DB value :=
  match url with
  | VStr u =>
      if negb (truthy url) || negb (startsWith "http" u) then ret VNull
      else
        try_catch
          (response <- http_get u customHeaders ;;
           match rateLimiter with
           | Some limit => limit
           | None => ret tt
           end ;;;
           if negb (ok response) then throw "HTTP error"
           else if is_html (contentType response) then
             throw "Unexpected server response, got HTML document instead of image"
           else
             ensureDirectoryExists destinationDirectoryPath ;;;
             let filepath :=
               path_join destinationDirectoryPath destinationFilename in
             sharp_toFile (body response) filepath ;;;
             ret (VStr filepath))
          (fun _ => ret VNull)
  | _ =>
      if negb (truthy url) then ret VNull
      else throw "url.startsWith is not a function"
  end.

Definition downloadRecordImage (recordId imageUrl token : value)
  (imageType : string) : M DB value :=
  if negb (truthy imageUrl) then ret VNull
  else
    let recordDir := path_join recordsPath ("record" +:+ to_string recordId) in
    let filename :=
      if String.eqb imageType "discogs" then "discogs-album-art.jpg"
      else "itunes-album-art.jpg" in
    let fullPath := path_join recordDir filename in
    let webPath :=
      "/images/records/record" +:+ to_string recordId +:+ "/" +:+ filename in
    valid <- validateExistingImage fullPath ;;
    if valid then ret (VStr webPath)
    else
      let headers :=
        if truthy token then
          VObj [("Authorization", VStr ("Discogs token=" +:+ to_string token))]
        else VObj [] in
      filepath <- downloadImage imageUrl recordDir filename headers None ;;
      if truthy filepath then ret (VStr webPath) else ret VNull.

Definition downloadBoardGameImage (gameId imageUrl : value) : M DB value :=
  if negb (truthy imageUrl) then ret VNull
  else
    let gameDir :=
      path_join boardGamesPath ("boardgame" +:+ to_string gameId) in
    let filename := "board-game-cover-art.jpg" in
    filepath <- downloadImage imageUrl gameDir filename (VObj []) None ;;
    if truthy filepath then
      ret (VStr ("/images/board-games/boardgame" +:+ to_string gameId
                 +:+ "/" +:+ filename))
    else ret VNull.

Definition downloadBookImage (bookId imageUrl : value) : M DB value :=
  if negb (truthy imageUrl) then ret VNull
  else
    let bookDir := path_join booksPath ("book" +:+ to_string bookId) in
    let filename := "book-cover-art.jpg" in
    filepath <- downloadImage imageUrl bookDir filename (VObj []) None ;;
    if truthy filepath then
      ret (VStr ("/images/books/book" +:+ to_string bookId
                 +:+ "/" +:+ filename))
    else ret VNull.
End Methods.

(** The three entry points, by catalog type; for records the source tag
    picks the file. *)
Inductive itemType : Type :=
| Records (sourceTag : string)
| BoardGames
| Books.

Definition acquire (E : Env) {DB : Type} (ty : itemType)
  (itemId url token : value) : M DB value :=
  match ty with
  | Records sourceTag => downloadRecordImage E itemId url token sourceTag
  | BoardGames => downloadBoardGameImage E itemId url
  | Books => downloadBookImage E itemId url
  end.

(** The canonical target path of an identity and its web-accessible path. *)
Definition targetPath (ty : itemType) (itemId : value) : string :=
  match ty with
  | Records sourceTag =>
      path_join (path_join recordsPath ("record" +:+ to_string itemId))
        (if String.eqb sourceTag "discogs" then "discogs-album-art.jpg"
         else "itunes-album-art.jpg")
  | BoardGames =>
      path_join (path_join boardGamesPath ("boardgame" +:+ to_string itemId))
        "board-game-cover-art.jpg"
  | Books =>
      path_join (path_join booksPath ("book" +:+ to_string itemId))
        "book-cover-art.jpg"
  end.

Definition webPath (ty : itemType) (itemId : value) : string :=
  match ty with
  | Records sourceTag =>
      "/images/records/record" +:+ to_string itemId +:+ "/" +:+
      (if String.eqb sourceTag "discogs" then "discogs-album-art.jpg"
       else "itunes-album-art.jpg")
  | BoardGames =>
      "/images/board-games/boardgame" +:+ to_string itemId +:+ "/" +:+
      "board-game-cover-art.jpg"
  | Books =>
      "/images/books/book" +:+ to_string itemId +:+ "/" +:+ "book-cover-art.jpg"
  end.

End ImageService.

(** ** itunesService.js *)

Module ITunesService.

(** [a > b] on years. *)
Definition gt (a b : value) : bool :=
  match a, b with
  | VNum x, VNum y => (y <? x)%Z
  | _, _ => false
  end.

Definition validateReleaseYear (originalYear pressingYear : value) : value :=
  if negb (truthy originalYear) || negb (truthy pressingYear) then originalYear
  else if gt originalYear pressingYear then VNull
  else originalYear.

End ITunesService.

(** ** discogsService.js *)

Module DiscogsService.

(** [x.k]: a [TypeError] when [x] is [null] or [undefined]. *)
Definition member {DB} (k : string) (x : value) : M DB value :=
  match x with
  | VUndefined | VNull => throw "Cannot read properties of undefined"
  | _ => ret (get_prop k x)
  end.

Definition getMainArtist {DB} (artists : value) : M DB value :=
  if missing_or_empty artists then ret (VStr "Unknown Artist")
  else member "name" (first artists).

Definition getSortArtist {DB} (artists : value) : M DB value :=
  if missing_or_empty artists then ret (VStr "Unknown Artist")
  else
    sortName <- member "name" (first artists) ;;
    match sortName with
    | VStr name =>
        if startsWith "the " (toLowerCase name) then
          ret (VStr (substring_from 4 name +:+ ", The"))
        else ret sortName
    | _ => throw "sortName.toLowerCase is not a function"
    end.

(** [values.join(', ')] *)
Definition join_values (l : list value) : string :=
  join ", "
    (map (fun x =>
            match x with
            | VUndefined | VNull => EmptyString
            | _ => to_string x
            end) l).

Fixpoint names {DB} (l : list value) : M DB (list value) :=
  match l with
  | [] => ret []
  | f :: r => n <- member "name" f ;; ns <- names r ;; ret (n :: ns)
  end.

Definition getFormat {DB} (formats : value) : M DB value :=
  if missing_or_empty formats then ret (VStr "Unknown")
  else
    match formats with
    | VArr l => ns <- names l ;; ret (VStr (join_values ns))
    | _ => throw "formats.map is not a function"
    end.

Definition getMainLabel {DB} (labels : value) : M DB value :=
  if missing_or_empty labels then ret (VStr "Unknown Label")
  else member "name" (first labels).

Definition getCatalogNumber {DB} (labels : value) : M DB value :=
  if missing_or_empty labels then ret (VStr EmptyString)
  else
    catno <- member "catno" (first labels) ;;
    ret (or_else catno (VStr EmptyString)).

Definition getDiscogsImageUrl (basic_information : value) : value :=
  if truthy (get_prop "cover_image" basic_information) then
    get_prop "cover_image" basic_information
  else if truthy (get_prop "thumb" basic_information) then
    get_prop "thumb" basic_information
  else VNull.

(** [id?.toString()] *)
Definition optional_toString (id : value) : value :=
  match id with
  | VUndefined | VNull => VUndefined
  | _ => VStr (to_string id)
  end.

Section Methods.
Context (E : Env) {DB : Type}.

Definition transformToRecord (item : value) (isWishlist : bool) : M DB value :=
  item_basic_information <- member "basic_information" item ;;
  let basic_information := or_else item_basic_information item in
  artist <- getMainArtist (get_prop "artists" basic_information) ;;
  sort_artist <- getSortArtist (get_prop "artists" basic_information) ;;
  format <- getFormat (get_prop "formats" basic_information) ;;
  label <- getMainLabel (get_prop "labels" basic_information) ;;
  catalog_number <- getCatalogNumber (get_prop "labels" basic_information) ;;
  date_added <-
    (if truthy (get_prop "date_added" item) then
       ret (new_Date E (get_prop "date_added" item))
     else now <- date_now E ;; ret (VNum now)) ;;
  ret (VObj
         [("external_id", optional_toString (get_prop "id" basic_information));
          ("artist", artist);
          ("sort_artist", sort_artist);
          ("title", get_prop "title" basic_information);
          ("year_of_original_release", get_prop "year" basic_information);
          ("year_of_release", get_prop "year" basic_information);
          ("format", format);
          ("country", get_prop "country" basic_information);
          ("label", label);
          ("catalog_number", catalog_number);
          ("genres",
           VStr (stringify
                   (or_else (get_prop "genres" basic_information) (VArr []))));
          ("styles",
           VStr (stringify
                   (or_else (get_prop "styles" basic_information) (VArr []))));
          ("thumb_url", get_prop "thumb" basic_information);
          ("cover_image_url", getDiscogsImageUrl basic_information);
          ("date_added", date_added);
          ("in_collection", VBool (negb isWishlist));
          ("in_wishlist", VBool isWishlist)]).

(** Step 1 of [downloadRecordImages]: the Discogs image. *)
Definition discogsImage (record : value) : M DB value :=
  if truthy (get_prop "cover_image_url" record) then
    discogsImagePath <-
      ImageService.downloadRecordImage E (get_prop "external_id" record)
        (get_prop "cover_image_url" record) (config_discogs_token E)
        "discogs" ;;
    if truthy discogsImagePath then
      ret (set_prop "cover_image_local_path" discogsImagePath
             (set_prop "discogs_image_local_path" discogsImagePath record))
    else ret record
  else ret record.

(** Steps 2 and 3: the iTunes image and release year. *)
Definition itunesImage (record : value) : M DB value :=
  let found :=
    itunes_searchAlbum E (get_prop "title" record) (get_prop "artist" record) in
  let itunesImageUrl := fst found in
  let itunesOriginalYear := snd found in
  record <-
    (if truthy itunesImageUrl then
       itunesImagePath <-
         ImageService.downloadRecordImage E (get_prop "external_id" record)
           itunesImageUrl VNull "itunes" ;;
       if truthy itunesImagePath then
         ret (set_prop "cover_image_local_path" itunesImagePath
                (set_prop "itunes_image_local_path" itunesImagePath record))
       else ret record
     else ret record) ;;
  if truthy itunesOriginalYear then
    let validYear :=
      ITunesService.validateReleaseYear itunesOriginalYear
        (get_prop "year_of_release" record) in
    if truthy validYear then
      ret (set_prop "year_of_original_release" validYear record)
    else ret record
  else ret record.

Definition downloadRecordImages (record : value) : M DB value :=
  if negb (truthy (get_prop "external_id" record)) then ret record
  else
    try_catch
      (record1 <- discogsImage record ;;
       try_catch (itunesImage record1) (fun _ => ret record1))
      (fun _ => ret record).

(** [[...v]]: the elements of an array, the code units of a string; a
    [TypeError] for anything else. *)
Definition spread (v : value) : M DB (list value) :=
  match v with
  | VArr l => ret l
  | VStr s0 =>
      ret (map (fun c => VStr (String c EmptyString)) (list_ascii_of_string s0))
  | _ => throw "object is not iterable"
  end.

(** [v.length > 0] for a truthy [v], as far as it decides what the loop
    below does: an object that is not an array cannot be spread, so that
    the turn pushes nothing whatever its [length] is. *)
Definition nonempty (v : value) : bool :=
  match v with
  | VArr (_ :: _) | VStr (String _ _) | VObj _ => true
  | _ => false
  end.

(** [page < pages] for a page number that is at least 1: a number is
    compared as it is, [undefined] gives [NaN], [null] and the booleans
    stand for 0 and 1; what [ToNumber] makes of a string, an array or an
    object is left to [lt]. *)
Definition page_lt (lt : Z -> value -> bool) (page : Z) (pages : value)
  : bool :=
  match pages with
  | VNum n => page <? n
  | VUndefined => false
  | VNull => page <? 0
  | VBool b => page <? (if b then 1 else 0)
  | _ => lt page pages
  end.

(** The [try] block of one turn of the loop of [getAllCollectionItems]
    ([field] is [releases]) and [getAllWantlistItems] ([field] is [wants]):
    the items pushed and the new [hasMorePages]. [getPage page] is what
    [getUserCollection(page, 100)] (or [getUserWantlist]) settles with. *)
Definition fetchPage (field : string) (getPage : Z -> outcome value)
  (lt : Z -> value -> bool) (page : Z) : M DB (list value * bool) :=
  response <- await (getPage page) ;;
  items <- member field response ;;
  if truthy items && nonempty items then
    pushed <- spread items ;;
    let pagination := get_prop "pagination" response in
    let hasMorePages :=
      truthy pagination && page_lt lt page (get_prop "pages" pagination) in
    ret (pushed, hasMorePages)
  else ret ([], false).

(** The loop, for at most [fuel] turns: [None] when the turns run out
    with [hasMorePages] still true. A failure inside the [try] ends the
    loop ([break]) with the items pushed so far. *)
Fixpoint fetchPages (fuel : nat) (field : string)
  (getPage : Z -> outcome value) (lt : Z -> value -> bool)
  (page : Z) (allItems : list value) : M DB (option (list value)) :=
  match fuel with
  | O => ret None
  | S fuel' =>
      turn <-
        try_catch
          (fetched <- fetchPage field getPage lt page ;; ret (Some fetched))
          (fun _ => ret None) ;;
      match turn with
      | None => ret (Some allItems)
      | Some (pushed, true) =>
          fetchPages fuel' field getPage lt (page + 1) (allItems ++ pushed)
      | Some (pushed, false) => ret (Some (allItems ++ pushed))
      end
  end.

Definition getAllCollectionItems (fuel : nat)
  (getUserCollection : Z -> outcome value) (lt : Z -> value -> bool)
  : M DB (option (list value)) :=
  fetchPages fuel "releases" getUserCollection lt 1 [].

Definition getAllWantlistItems (fuel : nat)
  (getUserWantlist : Z -> outcome value) (lt : Z -> value -> bool)
  : M DB (option (list value)) :=
  fetchPages fuel "wants" getUserWantlist lt 1 [].
End Methods.

End DiscogsService.

(** ** boardGameGeekService.js *)

Module BoardGameGeekService.

Definition getAttribute (obj : value) (attrName : string) : value :=
  if negb (truthy obj) || negb (truthy (get_prop "_attributes" obj)) then VNull
  else get_prop attrName (get_prop "_attributes" obj).

Definition getTextValue (obj : value) : value :=
  if negb (truthy obj) then VNull
  else
    match obj with
    | VStr _ => obj
    | _ =>
        if truthy (get_prop "_text" obj) then get_prop "_text" obj
        else if truthy (get_prop "value" obj) then get_prop "value" obj
        else VNull
    end.

(** [a?.k] *)
Definition optional (k : string) (a : value) : value :=
  match a with
  | VUndefined | VNull => VUndefined
  | _ => get_prop k a
  end.

(** An array, or the single item wrapped in one. *)
Definition as_array (v : value) : list value :=
  match v with
  | VArr l => l
  | _ => [v]
  end.

Definition parseLinks (links : value) (type : string) : list value :=
  if negb (truthy links) then []
  else
    filter (fun x => truthy x)
      (map (fun link => getAttribute link "value")
         (filter (fun link => strict_eq (getAttribute link "type") (VStr type))
            (as_array links))).

Section Methods.
Context (E : Env) {DB : Type}.

Definition transformToBoardGame (item : value) (isWishlist : bool)
  : M DB value :=
  item_stats <- DiscogsService.member "stats" item ;;
  let stats := or_else item_stats (VObj []) in
  let rating := or_else (get_prop "rating" stats) (VObj []) in
  let int_of (v : value) := or_else (parseInt E (getTextValue v)) VNull in
  let float_of (v : value) := or_else (parseFloat E (getTextValue v)) VNull in
  now <- date_now E ;;
  ret (VObj
         [("external_id", getAttribute item "objectid");
          ("name", getTextValue (get_prop "name" item));
          ("year_published", int_of (get_prop "yearpublished" item));
          ("min_players", int_of (optional "minplayers" item_stats));
          ("max_players", int_of (optional "maxplayers" item_stats));
          ("playing_time", int_of (optional "playingtime" item_stats));
          ("min_age", int_of (optional "minage" item_stats));
          ("description", VNull);
          ("image_url", getTextValue (get_prop "image" item));
          ("thumb_url", getTextValue (get_prop "thumbnail" item));
          ("mechanics", VStr (stringify (VArr [])));
          ("categories", VStr (stringify (VArr [])));
          ("rating", float_of (get_prop "average" rating));
          ("complexity_rating", float_of (get_prop "averageweight" rating));
          ("rank",
           int_of (optional "value"
                     (optional "rank" (get_prop "ranks" rating))));
          ("date_added", VNum now);
          ("in_collection", VBool (negb isWishlist));
          ("in_wishlist", VBool isWishlist)]).

Definition downloadBoardGameImages (boardGame : value) : M DB value :=
  if negb (truthy (get_prop "external_id" boardGame))
     || negb (truthy (get_prop "image_url" boardGame)) then ret boardGame
  else
    try_catch
      (localImagePath <-
         ImageService.downloadBoardGameImage E
           (get_prop "external_id" boardGame) (get_prop "image_url" boardGame) ;;
       if truthy localImagePath then
         ret (set_prop "cover_image_local_path" localImagePath boardGame)
       else ret boardGame)
      (fun _ => ret boardGame).

Definition parseGameDetails (response : value) : M DB (list value) :=
  items <- DiscogsService.member "items" response ;;
  if negb (truthy items) || negb (truthy (get_prop "item" items)) then ret []
  else
    ret (map (fun item =>
                VObj [("id", getAttribute item "id");
                      ("description",
                       getTextValue (get_prop "description" item));
                      ("mechanics",
                       VArr (parseLinks (get_prop "link" item)
                               "boardgamemechanic"));
                      ("categories",
                       VArr (parseLinks (get_prop "link" item)
                               "boardgamecategory"))])
           (as_array (get_prop "item" items))).

(** [{ ...game, description, mechanics, categories }] when the details hold
    the game. *)
Definition enrich (details : list value) (game : value) : value :=
  match
    find (fun d => strict_eq (get_prop "id" d) (get_prop "external_id" game))
      details
  with
  | Some detail =>
      set_prop "categories"
        (VStr (stringify (or_else (get_prop "categories" detail) (VArr []))))
        (set_prop "mechanics"
           (VStr (stringify (or_else (get_prop "mechanics" detail) (VArr []))))
           (set_prop "description" (get_prop "description" detail) game))
  | None => game
  end.

Definition enrichBatch (batch : list value) : M DB (list value) :=
  let gameIds :=
    filter (fun id => truthy id)
      (map (fun game => get_prop "external_id" game) batch) in
  match gameIds with
  | [] => ret batch
  | _ =>
      try_catch
        (detailsResponse <- (fun w => (bgg_getGameDetails E gameIds, w)) ;;
         details <- parseGameDetails detailsResponse ;;
         ret (map (enrich details) batch))
        (fun _ => ret batch)
  end.

Fixpoint enrichBatches (batches : list (list value)) : M DB (list value) :=
  match batches with
  | [] => ret []
  | batch :: rest =>
      enriched <- enrichBatch batch ;;
      more <- enrichBatches rest ;;
      ret (enriched ++ more)
  end.

Definition enrichGameData (games : list value) : M DB (list value) :=
  enrichBatches (chunkArray games 20).

(** [getAllCollectionItems()] and [getAllWishlistItems()], which differ in
    the request they send: [fetched] is what [getUserCollection()] (or
    [getUserWishlist()]) settles with. *)
Definition getAllCollectionItems (fetched : outcome value)
  : M DB (list value) :=
  try_catch
    (response <- await fetched ;;
     items <- DiscogsService.member "items" response ;;
     if negb (truthy items) || negb (truthy (get_prop "item" items)) then
       ret []
     else ret (as_array (get_prop "item" items)))
    (fun _ => ret []).

Definition getAllWishlistItems (fetched : outcome value)
  : M DB (list value) :=
  getAllCollectionItems fetched.
End Methods.

End BoardGameGeekService.

(** ** syncService.js *)

Module SyncService.

Section Methods.
Context (E : Env).

Definition updateSyncStatus (service : string) (inProgress : bool)
  (errorMessage : value) : M Database.t unit :=
  let errorMessage := default_to VNull errorMessage in
  let updateData :=
    VObj [("sync_in_progress", VBool inProgress);
          ("error_message", errorMessage)] in
  updateData <-
    (if negb inProgress then
       now <- date_now E ;;
       ret (set_prop "last_sync_at" (VNum now) updateData)
     else ret updateData) ;;
  CachedDbService.update (H := Database_Store E) "sync_status" updateData
    (VObj [("service", VStr service)]) ;;;
  ret tt.

(** One work item of a batch: [true] for [{ success: true, ... }]. *)
Definition processRecord (isWishlist : bool) (item : value)
  : M Database.t bool :=
  try_catch
    (record <- DiscogsService.transformToRecord E item isWishlist ;;
     recordWithImages <- DiscogsService.downloadRecordImages E record ;;
     CachedDbService.upsert (H := Database_Store E) "records"
       recordWithImages (VArr [VStr "external_id"]) ;;;
     ret true)
    (fun _ => ret false).

Fixpoint processBatch (isWishlist : bool) (items : list value)
  : M Database.t (list bool) :=
  match items with
  | [] => ret []
  | item :: rest =>
      r <- processRecord isWishlist item ;;
      rs <- processBatch isWishlist rest ;;
      ret (r :: rs)
  end.

Fixpoint processBatches (isWishlist : bool) (chunks : list (list value))
  : M Database.t unit :=
  match chunks with
  | [] => ret tt
  | chunk :: rest =>
      processBatch isWishlist (schedule E chunk) ;;;
      processBatches isWishlist rest
  end.

Definition processRecordsInParallel (items : list value) (isWishlist : bool)
  : M Database.t unit :=
  processBatches isWishlist (chunkArray items 3).

(** [syncRecords], given what [Promise.all] of the two fetchers settles
    with: the pair of lists, or the first rejection. *)
Definition syncRecords (fetched : outcome (list value * list value))
  : M Database.t unit :=
  try_catch
    (updateSyncStatus "discogs" true VUndefined ;;;
     items <- await fetched ;;
     processRecordsInParallel (fst items) false ;;;
     processRecordsInParallel (snd items) true ;;;
     updateSyncStatus "discogs" false VNull)
    (fun message =>
       updateSyncStatus "discogs" false (VStr message) ;;;
       throw message).

Fixpoint transformAll (isWishlist : bool) (items : list value)
  : M Database.t (list value) :=
  match items with
  | [] => ret []
  | item :: rest =>
      game <- BoardGameGeekService.transformToBoardGame E item isWishlist ;;
      games <- transformAll isWishlist rest ;;
      ret (game :: games)
  end.

Fixpoint upsertGames (games : list value) : M Database.t unit :=
  match games with
  | [] => ret tt
  | game :: rest =>
      gameWithImages <- BoardGameGeekService.downloadBoardGameImages E game ;;
      CachedDbService.upsert (H := Database_Store E) "board_games"
        gameWithImages (VArr [VStr "external_id"]) ;;;
      upsertGames rest
  end.

Definition syncBoardGames (fetched : outcome (list value * list value))
  : M Database.t unit :=
  try_catch
    (updateSyncStatus "boardgamegeek" true VUndefined ;;;
     items <- await fetched ;;
     collectionGames <- transformAll false (fst items) ;;
     wishlistGames <- transformAll true (snd items) ;;
     let allGames := collectionGames ++ wishlistGames in
     enrichedGames <- BoardGameGeekService.enrichGameData E allGames ;;
     upsertGames enrichedGames ;;;
     updateSyncStatus "boardgamegeek" false VNull)
    (fun message =>
       updateSyncStatus "boardgamegeek" false (VStr message) ;;;
       throw message).
End Methods.

(** The two sources and their passes. *)
Inductive source : Type :=
| Discogs
| BoardGameGeek.

Definition service (src : source) : string :=
  match src with
  | Discogs => "discogs"
  | BoardGameGeek => "boardgamegeek"
  end.

Definition table (src : source) : string :=
  match src with
  | Discogs => "records"
  | BoardGameGeek => "board_games"
  end.

Definition syncPass (E : Env) (src : source)
  (fetched : outcome (list value * list value)) : M Database.t unit :=
  match src with
  | Discogs => syncRecords E fetched
  | BoardGameGeek => syncBoardGames E fetched
  end.

Definition transform (E : Env) (src : source) (item : value)
  (isWishlist : bool) : M Database.t value :=
  match src with
  | Discogs => DiscogsService.transformToRecord E item isWishlist
  | BoardGameGeek => BoardGameGeekService.transformToBoardGame E item isWishlist
  end.

(** The external id that the transformer of a source gives an item. *)
Definition external_id (src : source) (item : value) : value :=
  match src with
  | Discogs =>
      DiscogsService.optional_toString
        (get_prop "id" (or_else (get_prop "basic_information" item) item))
  | BoardGameGeek => BoardGameGeekService.getAttribute item "objectid"
  end.

(** ** The re-entrancy guard of [performSync], the timer callback and the
    manual triggers. A trigger runs without interruption up to its first
    [await]; what follows the [await] runs when the awaited pass has
    settled. *)
Inductive trigger : Type :=
| Tick                 (* the [setInterval] callback of [startPeriodicSync] *)
| RecordsManually      (* [syncRecordsManually] *)
| BoardGamesManually.  (* [syncBoardGamesManually] *)

Inductive settlement : Type :=
| Fulfilled
| Rejected (message : string).

Inductive event : Type :=
| Started (t : trigger)
| Skipped (t : trigger)
| Refused (t : trigger) (message : string)
| Finished (t : trigger) (r : settlement).

Record guard : Type := mkGuard {
  isRunning : bool;
  suspended : list trigger;   (* triggers waiting on their pass *)
  events : list event         (* most recent first *)
}.

(** The constructor. *)
Definition idle : guard := mkGuard false [] [].

(** A trigger up to its first [await]. *)
Definition fire (t : trigger) (g : guard) : guard :=
  if isRunning g then
    match t with
    | Tick => mkGuard (isRunning g) (suspended g) (Skipped t :: events g)
    | _ =>
        mkGuard (isRunning g) (suspended g)
          (Refused t "Sync already in progress" :: events g)
    end
  else mkGuard true (t :: suspended g) (Started t :: events g).

(** The rest of a suspended trigger, once its pass has settled with [r]:
    [performSync] catches a failure, the manual triggers let it through;
    all reset the flag in [finally]. *)
Definition resume (r : settlement) (g : guard) : guard :=
  match suspended g with
  | [] => g
  | t :: rest =>
      mkGuard false rest
        (Finished t (match t with Tick => Fulfilled | _ => r end) :: events g)
  end.

Inductive action : Type :=
| Fire (t : trigger)
| Settle (r : settlement).

Definition act (g : guard) (a : action) : guard :=
  match a with
  | Fire t => fire t g
  | Settle r => resume r g
  end.

Definition run (l : list action) (g : guard) : guard := fold_left act l g.

Definition finished (e : event) : bool :=
  match e with
  | Finished _ _ => true
  | _ => false
  end.

(** What the second of two back-to-back triggers gets. *)
Definition turned_away (t : trigger) : event :=
  match t with
  | Tick => Skipped t
  | _ => Refused t "Sync already in progress"
  end.

End SyncService.

(** ** Sample data *)

Module Samples.

(** A quiet environment: the clock advances by a second at each reading,
    the network is down, nothing decodes as an image (a failed [toFile]
    leaves an empty file), and the DBMS accepts every statement; the driver
    returns the empty array for the JSON text [[]], the one document that
    the samples write to a JSONB column. *)
Definition env : Env :=
  {| Date_now := fun n => 1000 * Z.of_nat n;
     fetch := fun _ => Throw "network unreachable";
     sharp_metadata := fun _ => false;
     sharp_jpeg := fun _ _ => None;
     sharp_partial := fun _ => Some EmptyString;
     itunes_searchAlbum := fun _ _ => (VNull, VNull);
     dbms_error := fun _ _ _ => None;
     current_timestamp := fun n => 1000 * Z.of_nat n;
     pg_read := fun _ v =>
       match v with
       | VStr "[]" => VArr []
       | _ => v
       end;
     new_Date := fun v => v;
     schedule := fun l => l;
     parseInt := fun _ => VNull;
     parseFloat := fun _ => VNull;
     bgg_getGameDetails := fun _ => Throw "network unreachable";
     config_maxArtSize := 400;
     config_discogs_token := VStr "token";
     config_recordsEnabled := true;
     config_boardGamesEnabled := true;
     order_by := fun _ rows => rows |}.

(** The same with the network up and serving images: every request is
    answered with a PNG, and every non-empty file decodes. *)
Definition online : Env :=
  {| Date_now := Date_now env;
     fetch := fun _ =>
       Return {| ok := true; status := 200; statusText := "OK";
                 contentType := Some "image/png"; body := "PNG" |};
     sharp_metadata := fun _ => true;
     sharp_jpeg := fun _ _ => Some "JPEG";
     sharp_partial := sharp_partial env;
     itunes_searchAlbum := itunes_searchAlbum env;
     dbms_error := dbms_error env;
     current_timestamp := current_timestamp env;
     pg_read := pg_read env;
     new_Date := new_Date env;
     schedule := schedule env;
     parseInt := parseInt env;
     parseFloat := parseFloat env;
     bgg_getGameDetails := bgg_getGameDetails env;
     config_maxArtSize := config_maxArtSize env;
     config_discogs_token := config_discogs_token env;
     config_recordsEnabled := true;
     config_boardGamesEnabled := true;
     order_by := order_by env |}.

(** The quiet environment with a DBMS that refuses the first statement it
    is sent (a connection that has gone away) and accepts the later ones. *)
Definition flaky : Env :=
  {| Date_now := Date_now env;
     fetch := fetch env;
     sharp_metadata := sharp_metadata env;
     sharp_jpeg := sharp_jpeg env;
     sharp_partial := sharp_partial env;
     itunes_searchAlbum := itunes_searchAlbum env;
     dbms_error := fun n _ _ =>
       if (n =? 0)%nat then Some "Connection terminated unexpectedly"
       else None;
     current_timestamp := current_timestamp env;
     pg_read := pg_read env;
     new_Date := new_Date env;
     schedule := schedule env;
     parseInt := parseInt env;
     parseFloat := parseFloat env;
     bgg_getGameDetails := bgg_getGameDetails env;
     config_maxArtSize := config_maxArtSize env;
     config_discogs_token := config_discogs_token env;
     config_recordsEnabled := true;
     config_boardGamesEnabled := true;
     order_by := order_by env |}.

(** The quiet environment with a DBMS that enforces [name VARCHAR(500) NOT
    NULL] on [board_games]. *)
Definition strict : Env :=
  {| Date_now := Date_now env;
     fetch := fetch env;
     sharp_metadata := sharp_metadata env;
     sharp_jpeg := sharp_jpeg env;
     sharp_partial := sharp_partial env;
     itunes_searchAlbum := itunes_searchAlbum env;
     dbms_error := fun _ table data =>
       if String.eqb table "board_games" then
         match get_prop "name" data with
         | VNull | VUndefined =>
             Some "null value in column name violates not-null constraint"
         | _ => None
         end
       else None;
     current_timestamp := current_timestamp env;
     pg_read := pg_read env;
     new_Date := new_Date env;
     schedule := schedule env;
     parseInt := parseInt env;
     parseFloat := parseFloat env;
     bgg_getGameDetails := bgg_getGameDetails env;
     config_maxArtSize := config_maxArtSize env;
     config_discogs_token := config_discogs_token env;
     config_recordsEnabled := true;
     config_boardGamesEnabled := true;
     order_by := order_by env |}.

(** The network up, every request answered with an error page sent with
    status 200. *)
Definition error_pages : Env :=
  {| Date_now := Date_now env;
     fetch := fun _ =>
       Return {| ok := true; status := 200; statusText := "OK";
                 contentType := Some "text/html; charset=utf-8";
                 body := "<html>Too many requests</html>" |};
     sharp_metadata := fun _ => true;
     sharp_jpeg := fun _ _ => Some "JPEG";
     sharp_partial := sharp_partial env;
     itunes_searchAlbum := itunes_searchAlbum env;
     dbms_error := dbms_error env;
     current_timestamp := current_timestamp env;
     pg_read := pg_read env;
     new_Date := new_Date env;
     schedule := schedule env;
     parseInt := parseInt env;
     parseFloat := parseFloat env;
     bgg_getGameDetails := bgg_getGameDetails env;
     config_maxArtSize := config_maxArtSize env;
     config_discogs_token := config_discogs_token env;
     config_recordsEnabled := true;
     config_boardGamesEnabled := true;
     order_by := order_by env |}.

(** A process in which the cover of board game 174430 has been acquired
    once. *)
Definition cover_url : value := VStr "https://cf.geekdo-images.com/pic.png".

Definition after_first_acquisition : world Database.t :=
  snd (ImageService.acquire online ImageService.BoardGames (VStr "174430")
         cover_url VNull
         (CachedDbService.start Database.schema)).

(** A page that reads the collection, then a sync that stores one
    record. *)
Definition in_collection : value := VObj [("in_collection", VBool true)].

Definition page : list CachedDbService.request :=
  [CachedDbService.Read "records"
     (CachedDbService.FindMany in_collection (VStr "sort_artist"))].

Definition a_record : value :=
  VObj [("external_id", VStr "249504"); ("artist", VStr "Rick Astley");
        ("title", VStr "Never Gonna Give You Up");
        ("in_collection", VBool true); ("in_wishlist", VBool false)].


(** An item as BoardGameGeek lists it, sent without a name. *)
Definition a_nameless_game : value :=
  VObj [("_attributes", VObj [("objectid", VStr "174430")])].

Definition store_a_record : CachedDbService.write_op :=
  CachedDbService.Upsert a_record (VArr [VStr "external_id"]).

(** An item as Discogs lists it, in the collection and in the wantlist
    alike. *)
Definition a_release : value :=
  VObj [("id", VNum 249504); ("date_added", VStr "2020-01-01T00:00:00-08:00");
        ("basic_information",
         VObj [("id", VNum 249504);
               ("title", VStr "Never Gonna Give You Up");
               ("year", VNum 1987);
               ("artists", VArr [VObj [("name", VStr "Rick Astley")]]);
               ("formats", VArr [VObj [("name", VStr "Vinyl")]]);
               ("labels",
                VArr [VObj [("name", VStr "RCA"); ("catno", VStr "PB 41447")]])])].

(** [n] entries set one millisecond apart, each with a one-minute
    lifetime. *)
Definition fill (n : nat) : list (Z * CacheService.op) :=
  map (fun i : nat =>
         (Z.of_nat i,
          CacheService.OpSet ("k" +:+ pretty i) (VNum (Z.of_nat i)) 60000))
      (seq 0 n).

End Samples.

(* ===================================================================== *)
(** * Part II: properties                                                 *)
(* ===================================================================== *)

(** ** Association lists *)

Section JsMapFacts.
Context {V : Type}.
Implicit Types (m : JsMap.t V) (k : string) (v : V).

Lemma keys_delete k m :
  JsMap.keys (JsMap.delete k m) = JsMap.key_delete k (JsMap.keys m).
Proof.
  induction m as [|[k' v'] r IH]; simpl; [done|].
  destruct (String.eqb k k'); simpl; [done|]. by rewrite <- IH.
Qed.

Lemma keys_set k v m :
  JsMap.keys (JsMap.set k v m) = JsMap.key_set k (JsMap.keys m).
Proof.
  induction m as [|[k' v'] r IH]; simpl; [done|].
  destruct (String.eqb k k'); simpl; [done|]. by rewrite <- IH.
Qed.

Lemma get_None_keys k m : JsMap.get k m = None <-> k ∉ JsMap.keys m.
Proof.
  induction m as [|[k' v'] r IH]; simpl.
  - split; [intros _; apply not_elem_of_nil | done].
  - rewrite not_elem_of_cons. destruct (String.eqb_spec k k') as [->|Hne].
    + split; [done | intros [? _]; done].
    + rewrite IH. tauto.
Qed.

Lemma get_Some_elem k v m : JsMap.get k m = Some v -> (k, v) ∈ m.
Proof.
  induction m as [|[k' v'] r IH]; simpl; [done|].
  destruct (String.eqb_spec k k') as [->|Hne].
  - intros [= ->]. apply list_elem_of_here.
  - intros Hg. apply list_elem_of_further. auto.
Qed.

Lemma elem_keys k v m : (k, v) ∈ m -> k ∈ JsMap.keys m.
Proof.
  induction m as [|[k' v'] r IH]; simpl; [by intros ?%elem_of_nil|].
  intros [[= -> ->]|Hin]%elem_of_cons.
  - apply list_elem_of_here.
  - apply list_elem_of_further. auto.
Qed.

Lemma elem_get_Some k v m :
  NoDup (JsMap.keys m) -> (k, v) ∈ m -> JsMap.get k m = Some v.
Proof.
  induction m as [|[k' v'] r IH]; simpl.
  - intros _ Hin. by apply elem_of_nil in Hin.
  - intros Hnd Hin. apply NoDup_cons in Hnd as [Hk' Hnd].
    apply elem_of_cons in Hin as [[= -> ->]|Hin].
    + by rewrite String.eqb_refl.
    + destruct (String.eqb_spec k k') as [->|Hne]; [|by auto].
      exfalso. apply Hk'. by apply (elem_keys k' v).
Qed.

Lemma get_delete_ne k k' m :
  k' <> k -> JsMap.get k' (JsMap.delete k m) = JsMap.get k' m.
Proof.
  intros Hne. induction m as [|[k0 v0] r IH]; simpl; [done|].
  destruct (String.eqb_spec k k0) as [->|Hk]; simpl.
  - destruct (String.eqb_spec k' k0); [done | done].
  - by rewrite IH.
Qed.
End JsMapFacts.

Lemma key_delete_subseteq k l : JsMap.key_delete k l ⊆ l.
Proof.
  induction l as [|k' r IH]; simpl; [done|].
  destruct (String.eqb k k'); [set_solver | set_solver].
Qed.

Lemma key_delete_NoDup k l : NoDup l -> NoDup (JsMap.key_delete k l).
Proof.
  induction l as [|k' r IH]; simpl; [done|].
  intros [Hk' Hnd]%NoDup_cons. destruct (String.eqb k k'); [done|].
  apply NoDup_cons. split; [|by auto].
  intros Hin. by apply Hk', (key_delete_subseteq k r).
Qed.

Lemma key_delete_not_elem k l : NoDup l -> k ∉ JsMap.key_delete k l.
Proof.
  induction l as [|k' r IH]; simpl; [intros _; apply not_elem_of_nil|].
  intros [Hk' Hnd]%NoDup_cons.
  destruct (String.eqb_spec k k') as [->|Hne]; [done|].
  apply not_elem_of_cons. auto.
Qed.

Lemma key_delete_elem_ne k k' l : k' <> k -> k' ∈ l -> k' ∈ JsMap.key_delete k l.
Proof.
  intros Hne. induction l as [|k0 r IH]; simpl; [done|].
  intros [->|Hin]%elem_of_cons.
  - destruct (String.eqb_spec k k0) as [->|_]; [done | apply list_elem_of_here].
  - destruct (String.eqb k k0); [done | apply list_elem_of_further; auto].
Qed.

Lemma key_delete_absent k l : k ∉ l -> JsMap.key_delete k l = l.
Proof.
  induction l as [|k' r IH]; simpl; [done|].
  intros [Hne Hr]%not_elem_of_cons.
  destruct (String.eqb_spec k k') as [->|_]; [done|]. by rewrite IH.
Qed.

Lemma key_delete_length k l :
  k ∈ l -> S (length (JsMap.key_delete k l)) = length l.
Proof.
  induction l as [|k' r IH]; simpl; [by intros ?%elem_of_nil|].
  intros Hin. destruct (String.eqb_spec k k') as [->|Hne]; [done|].
  simpl. f_equal. apply IH. apply elem_of_cons in Hin as [?|?]; done.
Qed.

Lemma key_delete_length_le k l : (length (JsMap.key_delete k l) <= length l)%nat.
Proof.
  induction l as [|k' r IH]; simpl; [lia|].
  destruct (String.eqb k k'); simpl; lia.
Qed.

Lemma key_set_length_le k l : (length (JsMap.key_set k l) <= S (length l))%nat.
Proof.
  induction l as [|k' r IH]; simpl; [lia|].
  destruct (String.eqb k k'); simpl; lia.
Qed.

Lemma key_set_subseteq k l : JsMap.key_set k l ⊆ k :: l.
Proof.
  induction l as [|k' r IH]; simpl; [set_solver|].
  destruct (String.eqb_spec k k') as [->|_]; set_solver.
Qed.

Lemma key_set_NoDup k l : NoDup l -> NoDup (JsMap.key_set k l).
Proof.
  induction l as [|k' r IH]; simpl.
  - intros _. apply NoDup_singleton.
  - intros [Hk' Hnd]%NoDup_cons.
    destruct (String.eqb_spec k k') as [->|Hne].
    + by apply NoDup_cons.
    + apply NoDup_cons. split; [|by auto].
      intros Hin. apply key_set_subseteq in Hin.
      apply elem_of_cons in Hin as [?|?]; [congruence | done].
Qed.

Example ceil_tenth_1000 : ceil_tenth 1000 = 100.
Proof. reflexivity. Qed.

(** ** The TTL cache keeps its two maps aligned *)

Import CacheService.

Lemma inv_new : inv new.
Proof. split; [done | apply NoDup_nil_2]. Qed.

Lemma inv_delete k c : inv c -> inv (delete k c).
Proof.
  intros [Hk Hnd]. split; simpl.
  - by rewrite !keys_delete, Hk.
  - unfold JsMap.wf. rewrite keys_delete. by apply key_delete_NoDup.
Qed.

Lemma inv_fold_delete {A} (f : A -> string) (p : A -> bool) l c :
  inv c ->
  inv (fold_left (fun c' a => if p a then delete (f a) c' else c') l c).
Proof.
  revert c. induction l as [|a l IH]; simpl; [done|].
  intros c Hc. apply IH. destruct (p a); [by apply inv_delete | done].
Qed.

Lemma inv_evictOldest c : inv c -> inv (evictOldest c).
Proof.
  intros Hc. unfold evictOldest.
  apply (inv_fold_delete fst (fun _ => true)), Hc.
Qed.

Lemma inv_set key v ttl now c : inv c -> inv (set key v ttl now c).
Proof.
  intros Hc. unfold set.
  assert (inv (if maxCacheSize <=? JsMap.size (cache c)
               then evictOldest c else c)) as [Hk Hnd].
  { destruct (_ <=? _); [by apply inv_evictOldest | done]. }
  split; simpl.
  - by rewrite !keys_set, Hk.
  - unfold JsMap.wf. rewrite keys_set. by apply key_set_NoDup.
Qed.

Lemma invalidatePattern_fold pattern l n c :
  snd (fold_left
         (fun acc key =>
            if includes pattern key then (fst acc + 1, delete key (snd acc))
            else acc) l (n, c))
  = fold_left (fun c' key => if includes pattern key then delete key c' else c')
      l c.
Proof.
  revert n c. induction l as [|k l IH]; simpl; [done|].
  intros n c. destruct (includes pattern k); simpl; apply IH.
Qed.

Lemma inv_invalidatePattern pattern c :
  inv c -> inv (snd (invalidatePattern pattern c)).
Proof.
  intros Hc. unfold invalidatePattern. rewrite invalidatePattern_fold.
  by apply (inv_fold_delete (fun k => k) (includes pattern)).
Qed.

Lemma inv_cleanup now c : inv c -> inv (cleanup now c).
Proof.
  intros Hc. unfold cleanup.
  by apply (inv_fold_delete fst (fun e => snd e <? now)).
Qed.

Lemma inv_get key now c : inv c -> inv (snd (get key now c)).
Proof.
  intros Hc. unfold get. destruct (stale _ _); simpl; [by apply inv_delete | done].
Qed.

Lemma inv_has key now c : inv c -> inv (snd (has key now c)).
Proof.
  intros Hc. unfold has. destruct (stale _ _); simpl; [by apply inv_delete | done].
Qed.

Lemma inv_step c e : inv c -> inv (step c e).
Proof.
  intros Hc. destruct e as [now []]; unfold step; simpl;
    auto using inv_set, inv_get, inv_has, inv_delete, inv_new,
      inv_invalidatePattern, inv_cleanup.
Qed.

Lemma inv_fold_step l c : inv c -> inv (fold_left step l c).
Proof.
  revert c. induction l as [|e l IH]; simpl; [done|].
  intros c Hc. by apply IH, inv_step.
Qed.

Lemma inv_run l : inv (run l).
Proof. apply inv_fold_step, inv_new. Qed.

(** ** Sizes *)

Lemma size_delete_le k c : size (delete k c) <= size c.
Proof.
  unfold size, JsMap.size. simpl.
  rewrite <- !(length_map fst). fold (JsMap.keys (JsMap.delete k (cache c))).
  fold (JsMap.keys (cache c)). rewrite keys_delete.
  pose proof (key_delete_length_le k (JsMap.keys (cache c))). lia.
Qed.

Lemma size_fold_delete_le {A} (f : A -> string) (p : A -> bool) l c :
  size (fold_left (fun c' a => if p a then delete (f a) c' else c') l c)
  <= size c.
Proof.
  revert c. induction l as [|a l IH]; simpl; [lia|].
  intros c. etransitivity; [apply IH|].
  destruct (p a); [apply size_delete_le | lia].
Qed.

Lemma size_set_le key v (c : CacheService.t) :
  JsMap.size (JsMap.set key v (cache c)) <= size c + 1.
Proof.
  unfold size, JsMap.size. rewrite <- !(length_map fst).
  fold (JsMap.keys (JsMap.set key v (cache c))). fold (JsMap.keys (cache c)).
  rewrite keys_set.
  pose proof (key_set_length_le key (JsMap.keys (cache c))). lia.
Qed.

Lemma keys_fold_delete {A} (f : A -> string) l c :
  JsMap.keys (cache (fold_left (fun c' a => delete (f a) c') l c))
  = fold_left (fun ks a => JsMap.key_delete (f a) ks) l (JsMap.keys (cache c)).
Proof.
  revert c. induction l as [|a l IH]; simpl; [done|].
  intros c. rewrite IH. simpl. by rewrite keys_delete.
Qed.

Lemma fold_key_delete_length {A} (f : A -> string) (l : list A) ks :
  NoDup (f <$> l) -> (forall a, a ∈ l -> f a ∈ ks) ->
  (length (fold_left (fun ks a => JsMap.key_delete (f a) ks) l ks) + length l
   = length ks)%nat.
Proof.
  revert ks. induction l as [|a l IH]; simpl; [intros; lia|].
  intros ks [Ha Hnd]%NoDup_cons Hin.
  pose proof (key_delete_length (f a) ks (Hin a (list_elem_of_here _ _))).
  specialize (IH (JsMap.key_delete (f a) ks) Hnd).
  rewrite <- Nat.add_succ_comm. simpl. rewrite IH; [lia|].
  intros b Hb. apply key_delete_elem_ne.
  - intros Heq. apply Ha. rewrite <- Heq. by apply list_elem_of_fmap_2.
  - apply Hin. by apply list_elem_of_further.
Qed.

Lemma get_ttls_fold_delete_ne {A} (f : A -> string) (l : list A) c k :
  k ∉ f <$> l ->
  JsMap.get k (ttls (fold_left (fun c' a => delete (f a) c') l c))
  = JsMap.get k (ttls c).
Proof.
  revert c. induction l as [|a l IH]; simpl; [done|].
  intros c [Hne Hk]%not_elem_of_cons. rewrite IH by done. simpl.
  by apply get_delete_ne.
Qed.

Lemma get_ttls_fold_delete_in {A} (f : A -> string) (l : list A) c k :
  inv c -> k ∈ f <$> l ->
  JsMap.get k (ttls (fold_left (fun c' a => delete (f a) c') l c)) = None.
Proof.
  revert c. induction l as [|a l IH]; simpl; [by intros ? ? ?%elem_of_nil|].
  intros c Hc Hin.
  destruct (decide (k ∈ f <$> l)) as [Hl|Hl].
  - apply IH; [by apply inv_delete | done].
  - apply elem_of_cons in Hin as [->|?]; [|done].
    rewrite get_ttls_fold_delete_ne by done. simpl.
    apply get_None_keys. rewrite keys_delete.
    apply key_delete_not_elem. destruct Hc as [<- Hnd]. exact Hnd.
Qed.

(** ** The eviction order *)

Lemma insert_by_expiry_perm e l : insert_by_expiry e l ≡ₚ e :: l.
Proof.
  induction l as [|x r IH]; simpl; [done|].
  destruct (snd e <=? snd x); [done|].
  rewrite IH. apply perm_swap.
Qed.

Lemma sort_by_expiry_perm l : sort_by_expiry l ≡ₚ l.
Proof.
  induction l as [|x r IH]; simpl; [done|].
  rewrite insert_by_expiry_perm. by rewrite IH.
Qed.

Lemma insert_by_expiry_sorted e l :
  StronglySorted expiry_le l -> StronglySorted expiry_le (insert_by_expiry e l).
Proof.
  induction 1 as [|x r Hs IH Hall]; simpl.
  - repeat constructor.
  - destruct (Z.leb_spec (snd e) (snd x)) as [Hlt|Hge].
    + constructor; [by constructor|]. constructor; [unfold expiry_le; lia|].
      eapply Forall_impl; [exact Hall|]. unfold expiry_le. intros; simpl in *; lia.
    + constructor; [done|].
      rewrite insert_by_expiry_perm. constructor; [unfold expiry_le; lia | done].
Qed.

Lemma sort_by_expiry_sorted l : StronglySorted expiry_le (sort_by_expiry l).
Proof.
  induction l as [|x r IH]; simpl; [constructor|].
  by apply insert_by_expiry_sorted.
Qed.

Lemma sorted_take_drop (l : list (string * Z)) n x y :
  StronglySorted expiry_le l -> x ∈ take n l -> y ∈ drop n l -> expiry_le x y.
Proof.
  intros Hs. revert n. induction Hs as [|a r Hs IH Hall]; intros n.
  - rewrite take_nil. by intros ?%elem_of_nil.
  - destruct n as [|n]; simpl; [by intros ?%elem_of_nil|].
    intros [->|Hx]%elem_of_cons Hy; [|by eauto].
    rewrite Forall_forall in Hall. apply Hall.
    apply list_elem_of_In. eapply list_elem_of_In.
    by apply (subseteq_drop n r).
Qed.

Lemma keys_fmap {V} (m : JsMap.t V) : JsMap.keys m = fst <$> m.
Proof. induction m as [|[k v] r IH]; simpl; [done|]. by rewrite IH. Qed.

Lemma size_length (c : CacheService.t) :
  size c = Z.of_nat (length (JsMap.keys (cache c))).
Proof. unfold size, JsMap.size, JsMap.keys. by rewrite length_map. Qed.

(** What [evictOldest] removes, for any number of entries to remove. *)
Section Evict.
Context (c : CacheService.t) (n : nat) (Hc : inv c).

Let sorted := sort_by_expiry (ttls c).
Let evicted := take n sorted.
Let c' := fold_left (fun c0 e => delete (fst e) c0) evicted c.

Lemma sorted_keys_perm : fst <$> sorted ≡ₚ JsMap.keys (cache c).
Proof.
  destruct Hc as [-> _]. rewrite keys_fmap.
  apply fmap_Permutation, sort_by_expiry_perm.
Qed.

Lemma evicted_NoDup : NoDup (fst <$> evicted).
Proof.
  unfold evicted. rewrite fmap_take.
  apply (sublist_NoDup _ (fst <$> sorted)); [|apply sublist_take].
  rewrite sorted_keys_perm. apply Hc.
Qed.

Lemma evicted_present a : a ∈ evicted -> fst a ∈ JsMap.keys (cache c).
Proof.
  intros Ha. rewrite <- sorted_keys_perm. apply list_elem_of_fmap_2.
  by apply (subseteq_take n sorted).
Qed.

Lemma evict_size :
  (n <= length (ttls c))%nat -> size c' = size c - Z.of_nat n.
Proof.
  intros Hn. rewrite !size_length. unfold c'. rewrite keys_fold_delete.
  pose proof (fold_key_delete_length fst evicted (JsMap.keys (cache c))
                evicted_NoDup evicted_present) as Hlen.
  assert (length evicted = n) as Hev.
  { unfold evicted. rewrite length_take.
    assert (length sorted = length (ttls c)) as ->
      by apply Permutation_length, sort_by_expiry_perm.
    lia. }
  lia.
Qed.

Lemma evict_soonest k e k' e' :
  JsMap.get k (ttls c) = Some e ->
  JsMap.get k (ttls c') = None ->
  JsMap.get k' (ttls c') = Some e' ->
  e <= e'.
Proof.
  intros Hk Hgone Hkept.
  assert (Hnd : NoDup (JsMap.keys (ttls c))) by (destruct Hc as [<- ?]; done).
  destruct (decide (k ∈ fst <$> evicted)) as [Hin|Hout]; cycle 1.
  { unfold c' in Hgone. rewrite get_ttls_fold_delete_ne in Hgone by done.
    congruence. }
  destruct (decide (k' ∈ fst <$> evicted)) as [Hin'|Hout'].
  { unfold c' in Hkept. rewrite get_ttls_fold_delete_in in Hkept by done.
    congruence. }
  unfold c' in Hkept. rewrite get_ttls_fold_delete_ne in Hkept by done.
  apply list_elem_of_fmap_1 in Hin as [[k0 e0] [Heq Hin]]. simpl in Heq.
  subst k0.
  assert (e0 = e) as ->.
  { assert ((k, e0) ∈ ttls c) as Hel.
    { rewrite <- (sort_by_expiry_perm (ttls c)).
      by apply (subseteq_take n sorted). }
    apply (elem_get_Some _ _ _ Hnd) in Hel. congruence. }
  assert ((k', e') ∈ drop n sorted) as Hdrop.
  { apply get_Some_elem in Hkept.
    rewrite <- (sort_by_expiry_perm (ttls c)) in Hkept.
    fold sorted in Hkept. rewrite <- (take_drop n sorted) in Hkept.
    apply elem_of_app in Hkept as [Ht|Hd]; [|done].
    exfalso. apply Hout'. by apply (list_elem_of_fmap_2 fst) in Ht. }
  apply (sorted_take_drop sorted n (k, e) (k', e'));
    [apply sort_by_expiry_sorted | done | done].
Qed.
End Evict.

Lemma size_evictOldest_full c :
  inv c -> size c = maxCacheSize -> size (evictOldest c) = size c - 100.
Proof.
  intros Hc Hfull. unfold evictOldest. fold (size c). rewrite Hfull.
  change (Z.to_nat (ceil_tenth maxCacheSize)) with 100%nat.
  rewrite (evict_size c 100 Hc); [lia|].
  destruct Hc as [Hk _]. rewrite size_length, Hk in Hfull.
  unfold JsMap.keys in Hfull. rewrite length_map in Hfull.
  unfold maxCacheSize in Hfull. lia.
Qed.

Lemma size_set_bound key v ttl now c :
  inv c -> size c <= maxCacheSize -> size (set key v ttl now c) <= maxCacheSize.
Proof.
  intros Hc Hle. unfold set, size at 1. simpl.
  destruct (Z.leb_spec maxCacheSize (JsMap.size (cache c))) as [Hfull|Hroom].
  - assert (size c = maxCacheSize) as Heq by (unfold size in *; lia).
    pose proof (size_set_le key v (evictOldest c)).
    pose proof (size_evictOldest_full c Hc Heq) as Hev.
    unfold maxCacheSize in *. rewrite Hev, Heq in H. lia.
  - pose proof (size_set_le key v c). unfold size in *. lia.
Qed.

Lemma size_step_bound c e :
  inv c -> size c <= maxCacheSize -> size (step c e) <= maxCacheSize.
Proof.
  intros Hc Hle. destruct e as [now o]. unfold step; simpl.
  destruct o as [key v ttl|key|key|key| |pattern|]; simpl.
  - by apply size_set_bound.
  - unfold get. destruct (stale _ _); simpl; [|done].
    pose proof (size_delete_le key c). lia.
  - unfold has. destruct (stale _ _); simpl; [|done].
    pose proof (size_delete_le key c). lia.
  - pose proof (size_delete_le key c). lia.
  - done.
  - unfold invalidatePattern. rewrite invalidatePattern_fold.
    pose proof (size_fold_delete_le (fun k => k) (includes pattern)
                  (JsMap.keys (cache c)) c) as Hsz.
    cbv beta in Hsz. lia.
  - unfold cleanup.
    pose proof (size_fold_delete_le fst (fun e => snd e <? now) (ttls c) c)
      as Hsz.
    cbv beta in Hsz. lia.
Qed.

Lemma size_run_bound l : size (run l) <= maxCacheSize.
Proof.
  unfold run.
  assert (forall c, inv c -> size c <= maxCacheSize ->
                    size (fold_left step l c) <= maxCacheSize) as Hgen.
  { induction l as [|e l IH]; simpl; [done|].
    intros c Hc Hle. apply IH; [by apply inv_step | by apply size_step_bound]. }
  apply Hgen; [apply inv_new | done].
Qed.

(** ** The size ceiling (claim C6) *)

(** C6. Whatever the sequence of uses of the TTL cache since its
    construction, the number of entries never exceeds the configured maximum
    of 1000, before and after a further [set]. When [set] finds the cache at
    capacity it first runs [evictOldest], which removes 10% of the entries
    rounded up (100 of 1000), every removed entry expiring no later than every
    entry that is kept, and only then stores the new entry. *)
Theorem set_never_exceeds_ceiling
  (l : list (Z * op)) (key : string) (v : value) (ttl now : Z) :
  let c := run l in
  let c' := evictOldest c in
  let n := ceil_tenth (size c) in
  maxCacheSize = 1000 /\
  size c <= maxCacheSize /\
  size (set key v ttl now c) <= maxCacheSize /\
  (maxCacheSize <= size c ->
   10 * (n - 1) < size c <= 10 * n /\
   size c' = size c - n /\
   (forall k e k' e',
       JsMap.get k (ttls c) = Some e ->
       JsMap.get k (ttls c') = None ->
       JsMap.get k' (ttls c') = Some e' ->
       e <= e') /\
   set key v ttl now c
   = {| cache := JsMap.set key v (cache c');
        ttls := JsMap.set key (now + ttl) (ttls c') |}).
Proof.
  intros c c' n.
  pose proof (inv_run l) as Hinv. pose proof (size_run_bound l) as Hle.
  fold c in Hinv, Hle.
  split; [done|]. split; [done|].
  split; [by apply size_set_bound|].
  intros Hfull.
  assert (size c = maxCacheSize) as Heq by lia.
  assert (n = 100) as Hn by (unfold n; rewrite Heq; reflexivity).
  split; [rewrite Hn, Heq; unfold maxCacheSize; lia|].
  split; [rewrite Hn; by apply size_evictOldest_full|].
  split.
  - intros k e k' e'. unfold c', evictOldest. by apply evict_soonest.
  - unfold set. fold (size c).
    destruct (Z.leb_spec maxCacheSize (size c)); [done | lia].
Qed.

Lemma set_never_exceeds_ceiling_witness :
  maxCacheSize <= size (run (Samples.fill 1000)) /\
  size (evictOldest (run (Samples.fill 1000)))
  = size (run (Samples.fill 1000))
    - ceil_tenth (size (run (Samples.fill 1000))).
Proof.
  split.
  - vm_compute. discriminate.
  - apply (set_never_exceeds_ceiling (Samples.fill 1000) "fresh" VNull 1 5000).
    vm_compute. discriminate.
Defined.

(** ** Lazy eviction on read (claim C8) *)

(** C8. In a cache reached by any sequence of uses, when the expiry time
    recorded for a key has passed, [get] returns [null] and [has] returns
    [false], and both leave the cache with the entry removed from the two
    maps and every other entry as it was. *)
Theorem expired_entry_is_evicted_on_read
  (l : list (Z * op)) (key : string) (expiresAt now : Z) :
  let c := run l in
  JsMap.get key (ttls c) = Some expiresAt ->
  expiresAt < now ->
  get key now c = (VNull, delete key c) /\
  has key now c = (false, delete key c) /\
  JsMap.get key (cache (delete key c)) = None /\
  JsMap.get key (ttls (delete key c)) = None /\
  (forall k, k <> key ->
     JsMap.get k (cache (delete key c)) = JsMap.get k (cache c) /\
     JsMap.get k (ttls (delete key c)) = JsMap.get k (ttls c)).
Proof.
  intros c Hexp Hpast.
  pose proof (inv_run l) as [Hkeys Hnd]. fold c in Hkeys, Hnd.
  assert (stale (JsMap.get key (ttls c)) now = true) as Hstale.
  { rewrite Hexp. simpl. apply orb_true_iff. right. by apply Z.ltb_lt. }
  unfold get, has. rewrite Hstale.
  split; [done|]. split; [done|]. simpl.
  split; [|split].
  - apply get_None_keys. rewrite keys_delete. by apply key_delete_not_elem.
  - apply get_None_keys. rewrite keys_delete, <- Hkeys.
    by apply key_delete_not_elem.
  - intros k Hne. by rewrite !get_delete_ne.
Qed.

Lemma expired_entry_is_evicted_on_read_witness :
  get "a" 11 (run [(0, OpSet "a" (VNum 1) 10)])
  = (VNull, delete "a" (run [(0, OpSet "a" (VNum 1) 10)])).
Proof.
  apply (expired_entry_is_evicted_on_read
           [(0, OpSet "a" (VNum 1) 10)] "a" 10 11); [reflexivity | lia].
Defined.

(** ** Strings and JSON text *)

Lemma app_cons_s (x : ascii) (a b : string) :
  String x a +:+ b = String x (a +:+ b).
Proof. reflexivity. Qed.

Lemma app_assoc_s (a b c : string) : (a +:+ b) +:+ c = a +:+ (b +:+ c).
Proof.
  induction a as [|x a IH]; [done|]. rewrite !app_cons_s. by rewrite IH.
Qed.

Lemma app_empty_r_s (a : string) : a +:+ EmptyString = a.
Proof.
  induction a as [|x a IH]; [done|]. rewrite app_cons_s. by rewrite IH.
Qed.

Lemma app_prefix_cases (a b t1 t2 : string) :
  a +:+ t1 = b +:+ t2 -> String.prefix a b = true \/ String.prefix b a = true.
Proof.
  revert b. induction a as [|x a IH]; intros [|y b]; simpl; auto.
  rewrite !app_cons_s. intros [= -> Heq].
  destruct (ascii_dec y y); [|done]. by apply IH.
Qed.

Lemma all_ascii_complete (c : ascii) : In c all_ascii.
Proof.
  unfold all_ascii. rewrite <- (ascii_nat_embedding c).
  apply in_map, in_seq. pose proof (nat_ascii_bounded c). lia.
Qed.

Lemma forall_ascii (P : ascii -> bool) :
  forallb P all_ascii = true -> forall c, P c = true.
Proof. intros H c. eapply forallb_forall in H; [done | apply all_ascii_complete]. Qed.

(** The escapes of two code units are equal or neither starts the other. *)
Lemma escape_char_prefix_free (c1 c2 : ascii) :
  String.prefix (escape_char c1) (escape_char c2) = true -> c1 = c2.
Proof.
  intros Hp.
  pose proof (forall_ascii
    (fun a => forallb
       (fun b => implb (String.prefix (escape_char a) (escape_char b))
                   (Ascii.eqb a b)) all_ascii)) as Htable.
  specialize (Htable ltac:(vm_compute; reflexivity) c1).
  eapply forallb_forall in Htable; [|apply (all_ascii_complete c2)].
  rewrite Hp in Htable. simpl in Htable. by apply Ascii.eqb_eq.
Qed.

(** No escape starts with the closing quote. *)
Lemma escape_char_not_quote (c : ascii) (t1 t2 : string) :
  escape_char c +:+ t1 <> dquote +:+ t2.
Proof.
  intros Heq. apply app_prefix_cases in Heq.
  pose proof (forall_ascii
    (fun a => negb (String.prefix (escape_char a) dquote)
              && negb (String.prefix dquote (escape_char a)))) as Htable.
  specialize (Htable ltac:(vm_compute; reflexivity) c).
  apply andb_true_iff in Htable as [H1 H2].
  destruct Heq as [Hp|Hp]; rewrite Hp in *; done.
Qed.

Lemma escape_delimited (s1 s2 r1 r2 : string) :
  escape s1 +:+ dquote +:+ r1 = escape s2 +:+ dquote +:+ r2 -> s1 = s2.
Proof.
  revert s2. induction s1 as [|c1 s1 IH]; intros [|c2 s2]; cbn [escape].
  - done.
  - rewrite app_assoc_s. intros Heq. symmetry in Heq.
    by apply escape_char_not_quote in Heq.
  - rewrite app_assoc_s. intros Heq. by apply escape_char_not_quote in Heq.
  - rewrite !app_assoc_s. intros Heq.
    pose proof (app_prefix_cases _ _ _ _ Heq) as [Hp|Hp];
      apply escape_char_prefix_free in Hp; subst.
    + apply String.app_inj in Heq. f_equal. by apply IH.
    + apply String.app_inj in Heq. f_equal. by apply IH.
Qed.

Lemma stringify_obj (ps : list (string * value)) :
  stringify (VObj ps) = "{" +:+ join "," (members ps) +:+ "}".
Proof.
  reflexivity.
Qed.

Lemma members_defined (ps : list (string * value)) :
  members (defined_props ps) = members ps.
Proof.
  induction ps as [|[k x] r IH]; [done|].
  destruct x; simpl; by rewrite ?IH.
Qed.

Lemma defined_props_defined k x r ps :
  defined_props ps = (k, x) :: r -> x <> VUndefined.
Proof.
  induction ps as [|[k0 x0] r0 IH]; simpl; [done|].
  destruct x0; simpl; try (intros [= <- <- <-]; done). exact IH.
Qed.

Lemma join_cons_tail (sep x : string) (l : list string) :
  exists T, join sep (x :: l) = x +:+ T.
Proof.
  destruct l as [|y l].
  - exists EmptyString. simpl. by rewrite app_empty_r_s.
  - by exists (sep +:+ join sep (y :: l)).
Qed.

Lemma join3 (sep a b : string) (c : string) (l : list string) :
  join sep (a :: b :: c :: l) = a +:+ sep +:+ b +:+ sep +:+ join sep (c :: l).
Proof. reflexivity. Qed.

Lemma members_cons_defined k x r :
  x <> VUndefined ->
  members ((k, x) :: r) = (quote k +:+ ":" +:+ stringify x) :: members r.
Proof. by destruct x. Qed.

(** The text of an object whose first defined property is [k] starts with
    an opening brace and the quoted [k]. *)
Lemma stringify_obj_head ps k x r :
  defined_props ps = (k, x) :: r ->
  exists R, stringify (VObj ps) = "{" +:+ dquote +:+ escape k +:+ dquote +:+ R.
Proof.
  intros Hd. rewrite stringify_obj, <- members_defined, Hd.
  rewrite members_cons_defined by (by eapply defined_props_defined).
  destruct (join_cons_tail "," (quote k +:+ ":" +:+ stringify x) (members r))
    as [T ->].
  exists (":" +:+ stringify x +:+ T +:+ "}").
  unfold quote. by rewrite !app_assoc_s.
Qed.

(** ** Cache keys follow property order (claim C4) *)

(** C4, as stated, fails: two condition objects with the same properties
    inserted in opposite orders denote the same conditions and get different
    cache keys. *)
Lemma generateKey_depends_on_insertion_order :
  let a := VObj [("in_collection", VBool true); ("in_wishlist", VBool false)] in
  let b := VObj [("in_wishlist", VBool false); ("in_collection", VBool true)] in
  same_conditions a b /\
  generateKey [VStr "findMany"; VStr "records"; a; VNull]
  <> generateKey [VStr "findMany"; VStr "records"; b; VNull].
Proof.
  intros a b. split.
  - intros k. unfold a, b. simpl.
    destruct (String.eqb_spec k "in_collection") as [->|Hc]; [reflexivity|].
    destruct (String.eqb_spec k "in_wishlist") as [->|Hw]; reflexivity.
  - vm_compute. discriminate.
Qed.

(** C4 (amended). [generateKey] writes a condition object with
    [JSON.stringify], property by property in enumeration order and leaving
    out the properties whose value is [undefined]: two objects whose defined
    properties are the same in the same order get the same key for the same
    operation name, collection and remaining parts; two objects whose first
    defined properties have different names get different keys, also when
    they denote the same conditions. *)
Theorem generateKey_follows_property_order
  (op table : value) (a b : list (string * value)) (rest : list value) :
  (defined_props a = defined_props b ->
   generateKey (op :: table :: VObj a :: rest)
   = generateKey (op :: table :: VObj b :: rest)) /\
  (forall k1 v1 r1 k2 v2 r2,
      defined_props a = (k1, v1) :: r1 ->
      defined_props b = (k2, v2) :: r2 ->
      k1 <> k2 ->
      generateKey (op :: table :: VObj a :: rest)
      <> generateKey (op :: table :: VObj b :: rest)).
Proof.
  unfold generateKey. cbn [map typeof_object]. rewrite !join3. split.
  - intros Hd. do 4 f_equal.
    destruct rest as [|x rest]; cbn [map join];
      by rewrite !stringify_obj, <- (members_defined a), <- (members_defined b),
           Hd.
  - intros k1 v1 r1 k2 v2 r2 Ha Hb Hne Heq.
    do 4 apply String.app_inj in Heq.
    destruct (join_cons_tail ":" (stringify (VObj a))
                (map (fun part => if typeof_object part then stringify part
                                  else to_string part) rest)) as [Ta HTa].
    destruct (join_cons_tail ":" (stringify (VObj b))
                (map (fun part => if typeof_object part then stringify part
                                  else to_string part) rest)) as [Tb HTb].
    rewrite HTa, HTb in Heq.
    destruct (stringify_obj_head a k1 v1 r1 Ha) as [Ra HRa].
    destruct (stringify_obj_head b k2 v2 r2 Hb) as [Rb HRb].
    rewrite HRa, HRb, !app_assoc_s in Heq.
    do 2 apply String.app_inj in Heq.
    by apply escape_delimited in Heq.
Qed.

Lemma generateKey_follows_property_order_witness :
  generateKey
    [VStr "findMany"; VStr "records";
     VObj [("in_collection", VBool true); ("in_wishlist", VBool false)]; VNull]
  <> generateKey
       [VStr "findMany"; VStr "records";
        VObj [("in_wishlist", VBool false); ("in_collection", VBool true)];
        VNull].
Proof.
  eapply (generateKey_follows_property_order (VStr "findMany") (VStr "records")
            [("in_collection", VBool true); ("in_wishlist", VBool false)]
            [("in_wishlist", VBool false); ("in_collection", VBool true)]
            [VNull]);
    [reflexivity | reflexivity | discriminate].
Defined.

(** ** Substrings *)

Lemma prefix_app (p t : string) : String.prefix p (p +:+ t) = true.
Proof.
  induction p as [|x p IH]; [by destruct t|].
  rewrite app_cons_s. simpl. by destruct (ascii_dec x x).
Qed.

Lemma includes_prefix (p s : string) :
  String.prefix p s = true -> includes p s = true.
Proof. intros Hp. destruct s; cbn [includes]; by rewrite Hp. Qed.

Lemma includes_app (p a t : string) : includes p (a +:+ p +:+ t) = true.
Proof.
  induction a as [|x a IH].
  - change (includes p (p +:+ t) = true). apply includes_prefix, prefix_app.
  - rewrite app_cons_s. cbn [includes]. rewrite IH. apply orb_true_r.
Qed.

(** Every key that a read of [table] looks up mentions [:table:]. *)
Lemma read_key_includes_table (table : string) (o : CachedDbService.read_op) :
  includes (":" +:+ table +:+ ":") (CachedDbService.read_key table o) = true.
Proof.
  destruct o as [conditions orderBy|conditions|conditions];
    unfold CachedDbService.read_key, generateKey;
    cbn [map typeof_object to_string]; rewrite join3;
    rewrite <- (app_assoc_s table ":"), <- (app_assoc_s ":" (table +:+ ":"));
    apply includes_app.
Qed.

(** ** Invalidation *)

Lemma get_delete_None {V} (k a : string) (m : JsMap.t V) :
  JsMap.get k m = None -> JsMap.get k (JsMap.delete a m) = None.
Proof.
  intros Hk. apply get_None_keys. apply get_None_keys in Hk.
  rewrite keys_delete. intros Hin. by apply Hk, (key_delete_subseteq a).
Qed.

Lemma fold_delete_absent (p : string -> bool) l c k :
  JsMap.get k (ttls c) = None ->
  JsMap.get k
    (ttls (fold_left (fun c' a => if p a then delete a c' else c') l c))
  = None.
Proof.
  revert c. induction l as [|a l IH]; simpl; [done|].
  intros c Hk. apply IH. destruct (p a); [|done]. by apply get_delete_None.
Qed.

Lemma fold_delete_removes (p : string -> bool) l c k :
  inv c -> p k = true -> k ∈ l ->
  JsMap.get k
    (ttls (fold_left (fun c' a => if p a then delete a c' else c') l c))
  = None.
Proof.
  revert c. induction l as [|a l IH]; simpl; [by intros ? ? ? ?%elem_of_nil|].
  intros c Hc Hp [->|Hin]%elem_of_cons.
  - rewrite Hp. apply fold_delete_absent. simpl.
    apply get_None_keys. rewrite keys_delete. apply key_delete_not_elem.
    destruct Hc as [<- Hnd]. exact Hnd.
  - apply IH; [|done..]. destruct (p a); [by apply inv_delete | done].
Qed.

Lemma inv_get_None c k :
  inv c -> JsMap.get k (ttls c) = None <-> JsMap.get k (cache c) = None.
Proof. intros [Hk _]. by rewrite !get_None_keys, Hk. Qed.

(** After [invalidatePattern], no key that includes the pattern is left in
    either map. *)
Lemma invalidatePattern_removes pattern c k :
  inv c -> includes pattern k = true ->
  JsMap.get k (ttls (snd (invalidatePattern pattern c))) = None /\
  JsMap.get k (cache (snd (invalidatePattern pattern c))) = None.
Proof.
  intros Hc Hk.
  assert (JsMap.get k (ttls (snd (invalidatePattern pattern c))) = None) as Ht.
  { unfold invalidatePattern. rewrite invalidatePattern_fold.
    destruct (decide (k ∈ JsMap.keys (cache c))) as [Hin|Hout].
    - by apply fold_delete_removes.
    - apply fold_delete_absent. apply get_None_keys.
      destruct Hc as [<- _]. exact Hout. }
  split; [done|]. by apply inv_get_None; [apply inv_invalidatePattern|].
Qed.

(** ** The cache-aside store *)

Section CacheAside.
Context (E : Env) {DB : Type} `{Store DB}.
Import CachedDbService.

Lemma cache_get_cases key (w : world DB) :
  exists now w',
    cache_get E key w
    = (Return (fst (CacheService.get key now (cacheService w))), w') /\
    cacheService w' = snd (CacheService.get key now (cacheService w)) /\
    db w' = db w /\ calls w' = calls w.
Proof.
  unfold cache_get. destruct (has_expiry key (cacheService w)).
  - exists (Date_now E (clock_reads w)).
    destruct (CacheService.get _ _ _) as [v c']. by eexists.
  - exists 0. destruct (CacheService.get _ _ _) as [v c']. by eexists.
Qed.

Lemma get_null_cases key now c :
  inv c ->
  JsMap.get key (cache c) = None \/ JsMap.get key (cache c) = Some VNull ->
  fst (CacheService.get key now c) = VNull.
Proof.
  intros Hc Hk. unfold CacheService.get.
  destruct (stale _ _) eqn:Hs; [done|]. simpl.
  destruct Hk as [Hk|Hk]; [|by rewrite Hk].
  apply (inv_get_None c key Hc) in Hk. by rewrite Hk in Hs.
Qed.

(** A read whose key is absent from the cache, or holds [null], asks the
    store and returns its answer. *)
Lemma read_asks_store table (o : read_op) (w : world DB) :
  inv (cacheService w) ->
  JsMap.get (read_key table o) (cache (cacheService w)) = None \/
  JsMap.get (read_key table o) (cache (cacheService w)) = Some VNull ->
  fst (read E table o w) = fst (db_read table o (db w)) /\
  calls (snd (read E table o w)) = read_call table o :: calls w.
Proof.
  intros Hinv Hkey.
  destruct (cache_get_cases (read_key table o) w)
    as (now & w' & Hget & Hc & Hd & Hcalls).
  rewrite (get_null_cases _ now _ Hinv Hkey) in Hget.
  destruct o as [conditions orderBy|conditions|conditions];
    unfold read, findMany, findOne, count, bind;
    unfold read_key in Hget; rewrite Hget;
    cbn [not_null]; unfold call_db, db_read, read_call; cbn [db with_calls];
    rewrite Hd, Hcalls;
    match goal with
    | |- context [?f table ?a (db w)] =>
        destruct (f table a (db w)) as [[r|e] d'] eqn:Hop
    | |- context [?f table ?a ?b (db w)] =>
        destruct (f table a b (db w)) as [[r|e] d'] eqn:Hop
    end; done.
Qed.

Lemma invalidateTable_spec table (w : world DB) :
  invalidateTable table w
  = (Return tt,
     with_cache
       (snd (invalidatePattern (":" +:+ table +:+ ":") (cacheService w))) w).
Proof.
  unfold invalidateTable, bind, cache_invalidatePattern, ret.
  by destruct (invalidatePattern _ _).
Qed.

(** A write that returns has run [invalidateTable] on the cache it found. *)
Lemma write_returns table (o : write_op) (w w1 : world DB) result :
  write table o w = (Return result, w1) ->
  cacheService w1
  = snd (invalidatePattern (":" +:+ table +:+ ":") (cacheService w)).
Proof.
  destruct o; unfold write, create, update, upsert, delete, batchUpsert, bind,
    call_db; cbn [db with_calls];
    match goal with
    | |- context [?f table ?a (db w)] =>
        destruct (f table a (db w)) as [[r|e] d']
    | |- context [?f table ?a ?b (db w)] =>
        destruct (f table a b (db w)) as [[r|e] d']
    end; try done;
    rewrite invalidateTable_spec; unfold ret; by intros [= _ <-].
Qed.

Lemma inv_read table (o : read_op) (w : world DB) :
  inv (cacheService w) -> inv (cacheService (snd (read E table o w))).
Proof.
  intros Hinv.
  destruct (cache_get_cases (read_key table o) w)
    as (now & w' & Hget & Hc & Hd & Hcalls).
  assert (inv (cacheService w')) as Hinv'
    by (rewrite Hc; by apply inv_get).
  destruct o as [conditions orderBy|conditions|conditions];
    unfold read, findMany, findOne, count, bind;
    unfold read_key in Hget; rewrite Hget;
    (destruct (not_null _); [done|]);
    unfold call_db; cbn [db with_calls];
    match goal with
    | |- context [?f table ?a (db w')] =>
        destruct (f table a (db w')) as [[r|e] d']
    | |- context [?f table ?a ?b (db w')] =>
        destruct (f table a b (db w')) as [[r|e] d']
    end; try done; simpl; by apply inv_set.
Qed.

Lemma inv_write table (o : write_op) (w : world DB) :
  inv (cacheService w) -> inv (cacheService (snd (write table o w))).
Proof.
  intros Hinv.
  destruct o; unfold write, create, update, upsert, delete, batchUpsert, bind,
    call_db; cbn [db with_calls];
    match goal with
    | |- context [?f table ?a (db w)] =>
        destruct (f table a (db w)) as [[r|e] d']
    | |- context [?f table ?a ?b (db w)] =>
        destruct (f table a b (db w)) as [[r|e] d']
    end; try done;
    rewrite invalidateTable_spec; simpl; by apply inv_invalidatePattern.
Qed.

Lemma inv_session (l : list request) (d : DB) :
  inv (cacheService (session E l d)).
Proof.
  unfold session.
  assert (forall w, inv (cacheService w) ->
            inv (cacheService
                   (fold_left (fun w r => snd (perform E r w)) l w))) as Hgen.
  { induction l as [|r l IH]; simpl; [done|].
    intros w Hw. apply IH. destruct r; [by apply inv_read | by apply inv_write]. }
  apply Hgen, inv_new.
Qed.
End CacheAside.

(** ** Writes invalidate the collection (claim C3) *)

(** C3. After any session of reads and writes through the cache-aside store,
    a write to a collection ([create], [update], [upsert], [delete] or
    [batchUpsert]) that returns has, by then, removed from the cache every
    entry whose key mentions the collection (contains [:table:]); each key
    that a read of the collection looks up is such a key, so the read issued
    next asks the store and returns the store's answer, not a value cached
    before the write. *)
Theorem write_invalidates_collection
  (E : Env) {DB : Type} `{Store DB}
  (l : list CachedDbService.request) (d : DB)
  (table : string) (o : CachedDbService.write_op)
  (result : value) (w1 : world DB) :
  CachedDbService.write table o (CachedDbService.session E l d)
  = (Return result, w1) ->
  (forall key,
      includes (":" +:+ table +:+ ":") key = true ->
      JsMap.get key (cache (cacheService w1)) = None /\
      JsMap.get key (ttls (cacheService w1)) = None) /\
  (forall r : CachedDbService.read_op,
      includes (":" +:+ table +:+ ":") (CachedDbService.read_key table r)
      = true /\
      fst (CachedDbService.read E table r w1)
      = fst (CachedDbService.db_read table r (db w1)) /\
      calls (snd (CachedDbService.read E table r w1))
      = CachedDbService.read_call table r :: calls w1).
Proof.
  intros Hw. pose proof (inv_session E l d) as Hinv.
  apply write_returns in Hw as Hc.
  assert (forall key,
             includes (":" +:+ table +:+ ":") key = true ->
             JsMap.get key (cache (cacheService w1)) = None /\
             JsMap.get key (ttls (cacheService w1)) = None) as Hgone.
  { intros key Hkey. rewrite Hc.
    by destruct (invalidatePattern_removes _ _ key Hinv Hkey). }
  split; [done|]. intros r.
  pose proof (read_key_includes_table table r) as Hk.
  split; [done|]. apply read_asks_store.
  - rewrite Hc. by apply inv_invalidatePattern.
  - left. by apply Hgone.
Qed.

Lemma write_invalidates_collection_witness :
  fst (CachedDbService.read (H := Database_Store Samples.env) Samples.env "records"
         (CachedDbService.FindMany Samples.in_collection (VStr "sort_artist"))
         (snd (CachedDbService.write (H := Database_Store Samples.env) "records" Samples.store_a_record
                 (CachedDbService.session (H := Database_Store Samples.env) Samples.env Samples.page
                    Database.schema))))
  = Return (VArr [VObj (Database.assign Samples.env (Database.props Samples.a_record)
                          (Database.defaults "records" 1000))]).
Proof.
  pose proof (write_invalidates_collection (H := Database_Store Samples.env) Samples.env Samples.page
                Database.schema "records" Samples.store_a_record
                (VObj (Database.assign Samples.env (Database.props Samples.a_record)
                         (Database.defaults "records" 1000)))
                (snd (CachedDbService.write (H := Database_Store Samples.env) "records" Samples.store_a_record
                        (CachedDbService.session (H := Database_Store Samples.env) Samples.env Samples.page
                           Database.schema)))
                ltac:(vm_compute; reflexivity)) as [_ Hread].
  destruct (Hread (CachedDbService.FindMany Samples.in_collection
                     (VStr "sort_artist"))) as (_ & -> & _).
  vm_compute. reflexivity.
Defined.

(** ** A cached [null] is a miss (claim C10) *)

Lemma get_set_eq {V} (k : string) (v : V) (m : JsMap.t V) :
  JsMap.get k (JsMap.set k v m) = Some v.
Proof.
  induction m as [|[k' v'] r IH]; simpl.
  - by rewrite String.eqb_refl.
  - destruct (String.eqb_spec k k') as [->|Hne]; simpl.
    + by rewrite String.eqb_refl.
    + by destruct (String.eqb_spec k k').
Qed.

Lemma get_null_or_stale key now c :
  inv c ->
  JsMap.get key (cache c) = None \/
  JsMap.get key (cache c) = Some VNull \/
  stale (JsMap.get key (ttls c)) now = true ->
  fst (CacheService.get key now c) = VNull.
Proof.
  intros Hc [Hk|[Hk|Hs]].
  - apply get_null_cases; auto.
  - apply get_null_cases; auto.
  - unfold CacheService.get. by rewrite Hs.
Qed.

(** C10. [get] answers [null] alike for a key that is missing, for an entry
    that has expired and for an entry that holds [null]. Hence, after any
    session, a read ([findMany], [findOne] or [count]) whose key holds a
    cached [null] asks the store as on a miss; and a [findOne] that returned
    [null] has asked the store and stored that [null] in the cache, yet the
    next [findOne] with the same arguments asks the store again and returns
    the store's answer. *)
Theorem absent_lookup_is_never_served
  (E : Env) {DB : Type} `{Store DB}
  (l : list CachedDbService.request) (d : DB)
  (table : string) (conditions : value) :
  let w := CachedDbService.session E l d in
  let find := CachedDbService.FindOne conditions in
  let key := CachedDbService.read_key table find in
  (forall k now,
      JsMap.get k (cache (cacheService w)) = None \/
      JsMap.get k (cache (cacheService w)) = Some VNull \/
      stale (JsMap.get k (ttls (cacheService w))) now = true ->
      fst (CacheService.get k now (cacheService w)) = VNull) /\
  (forall r : CachedDbService.read_op,
      JsMap.get (CachedDbService.read_key table r) (cache (cacheService w))
      = Some VNull ->
      fst (CachedDbService.read E table r w)
      = fst (CachedDbService.db_read table r (db w)) /\
      calls (snd (CachedDbService.read E table r w))
      = CachedDbService.read_call table r :: calls w) /\
  (forall w1,
      CachedDbService.findOne E table conditions w = (Return VNull, w1) ->
      calls w1 = CachedDbService.read_call table find :: calls w /\
      JsMap.get key (cache (cacheService w1)) = Some VNull /\
      fst (CachedDbService.findOne E table conditions w1)
      = fst (CachedDbService.db_read table find (db w1)) /\
      calls (snd (CachedDbService.findOne E table conditions w1))
      = CachedDbService.read_call table find :: calls w1).
Proof.
  intros w find key. pose proof (inv_session E l d) as Hinv. fold w in Hinv.
  split; [intros k now; by apply get_null_or_stale|].
  split; [intros r Hr; apply read_asks_store; auto|].
  intros w1 Hfind.
  assert (calls w1 = CachedDbService.read_call table find :: calls w /\
          JsMap.get key (cache (cacheService w1)) = Some VNull /\
          inv (cacheService w1)) as (Hcalls & Hnull & Hinv1).
  { pose proof (inv_read E table find w Hinv) as Hinv1.
    change (CachedDbService.read E table find w)
      with (CachedDbService.findOne E table conditions w) in Hinv1.
    rewrite Hfind in Hinv1. simpl in Hinv1.
    revert Hfind. unfold CachedDbService.findOne, bind.
    destruct (cache_get_cases E key w) as (now & w' & Hget & Hc & Hd & Hcl).
    unfold key, CachedDbService.read_key, find in Hget. rewrite Hget.
    destruct (not_null _) eqn:Hnn.
    { unfold ret. intros [= Hv _]. rewrite Hv in Hnn. done. }
    unfold call_db. cbn [db with_calls].
    destruct (db_findOne _ _ _) as [[r|e] d']; [|done].
    unfold cache_set, ret. intros [= -> <-]. simpl.
    split; [by rewrite Hcl|]. split; [apply get_set_eq | done]. }
  split; [done|]. split; [done|].
  apply (read_asks_store E table find w1 Hinv1). by right.
Qed.

Lemma absent_lookup_is_never_served_witness :
  calls (snd (CachedDbService.findOne (H := Database_Store Samples.env)
                Samples.env "records" Samples.in_collection
                (snd (CachedDbService.findOne (H := Database_Store Samples.env)
                        Samples.env "records" Samples.in_collection
                        (CachedDbService.session
                           (H := Database_Store Samples.env)
                           Samples.env [] Database.schema)))))
  = [CallFindOne "records" Samples.in_collection;
     CallFindOne "records" Samples.in_collection].
Proof.
  pose proof (absent_lookup_is_never_served
                (H := Database_Store Samples.env)
                Samples.env [] Database.schema "records"
                Samples.in_collection) as (_ & _ & Hnext).
  destruct (Hnext
              (snd (CachedDbService.findOne (H := Database_Store Samples.env)
                      Samples.env "records" Samples.in_collection
                      (CachedDbService.session
                         (H := Database_Store Samples.env)
                         Samples.env [] Database.schema)))
              ltac:(vm_compute; reflexivity)) as (Hc & _ & _ & ->).
  vm_compute. reflexivity.
Defined.

(** ** The image cache (claims C5 and C9) *)

Section ImageCache.
Context (E : Env) {DB : Type}.
Import ImageService.

(** A request answered with an error status or with an HTML document ends
    in the [catch]: nothing is returned and the files and directories are as
    before. *)
Lemma downloadImage_rejected (w : world DB) (u dir filename : string)
  (headers : value) (resp : response) :
  fetch E u = Return resp ->
  ok resp = false \/ is_html (contentType resp) = true ->
  exists w',
    downloadImage E (VStr u) dir filename headers None w = (Return VNull, w') /\
    files w' = files w /\ directories w' = directories w.
Proof.
  intros Hfetch Hbad. unfold downloadImage.
  destruct (negb (truthy (VStr u)) || negb (startsWith "http" u));
    [by eexists|].
  unfold try_catch, bind, http_get, ret, throw. rewrite Hfetch.
  destruct Hbad as [Hok|Hhtml].
  - rewrite Hok. simpl. by eexists.
  - destruct (negb (ok resp)); [by eexists|]. rewrite Hhtml. by eexists.
Qed.

End ImageCache.

(** C9. When the response to an image download is not successful, or
    declares a content type containing [text/html], [downloadImage] returns
    [null] without raising and leaves the files and directories as they
    were; so do the three acquisition methods built on it, which never raise
    for a URL given as a string and write no file. *)
Theorem html_response_leaves_no_file
  (E : Env) {DB : Type} (w : world DB) (u dir filename : string)
  (headers : value) (resp : response) :
  fetch E u = Return resp ->
  ok resp = false \/ ImageService.is_html (contentType resp) = true ->
  (exists w',
      ImageService.downloadImage E (VStr u) dir filename headers None w
      = (Return VNull, w') /\
      files w' = files w /\ directories w' = directories w) /\
  (forall ty itemId token,
      exists path w',
        ImageService.acquire E ty itemId (VStr u) token w = (Return path, w') /\
        files w' = files w).
Proof.
  intros Hfetch Hbad. split; [by eapply downloadImage_rejected|].
  intros ty itemId token. destruct ty as [sourceTag| |];
    unfold ImageService.acquire, ImageService.downloadRecordImage,
      ImageService.downloadBoardGameImage, ImageService.downloadBookImage.
  - destruct (negb (truthy (VStr u))); [by eexists _, _|].
    unfold bind at 1.
    destruct (ImageService.validateExistingImage E _ w) as [[valid|e] w0] eqn:Hv.
    + assert (w0 = w) as ->.
      { revert Hv. unfold ImageService.validateExistingImage.
        destruct (files w !! _); [|by intros [= _ <-]].
        destruct (_ =? _)%nat; by intros [= _ <-]. }
      destruct valid; [by eexists _, _|].
      unfold bind.
      edestruct (downloadImage_rejected E w u) as (w' & -> & Hf & _); [done..|].
      by eexists _, _.
    + exfalso. revert Hv. unfold ImageService.validateExistingImage.
      destruct (files w !! _); [|done]. by destruct (_ =? _)%nat.
  - destruct (negb (truthy (VStr u))); [by eexists _, _|].
    unfold bind.
    edestruct (downloadImage_rejected E w u) as (w' & -> & Hf & _); [done..|].
    by eexists _, _.
  - destruct (negb (truthy (VStr u))); [by eexists _, _|].
    unfold bind.
    edestruct (downloadImage_rejected E w u) as (w' & -> & Hf & _); [done..|].
    by eexists _, _.
Qed.

Lemma html_response_leaves_no_file_witness :
  fst (ImageService.downloadImage Samples.error_pages
         (VStr "https://i.discogs.com/cover.jpg")
         "public/images/records/record249504" "discogs-album-art.jpg"
         (VObj []) None (CachedDbService.start Database.schema))
  = Return VNull.
Proof.
  destruct (html_response_leaves_no_file Samples.error_pages
              (CachedDbService.start Database.schema)
              "https://i.discogs.com/cover.jpg"
              "public/images/records/record249504" "discogs-album-art.jpg"
              (VObj [])
              {| ok := true; status := 200; statusText := "OK";
                 contentType := Some "text/html; charset=utf-8";
                 body := "<html>Too many requests</html>" |}
              ltac:(reflexivity) ltac:(right; reflexivity))
    as [(w' & -> & _) _].
  reflexivity.
Defined.

(** C5 holds of records only. At the input below the cover of a board game
    has been acquired once, the file at its target path is not empty and
    decodes, and acquiring the same identity again sends a request all the
    same (and rewrites the file): [downloadBoardGameImage], like
    [downloadBookImage], does not consult [validateExistingImage] as
    [downloadRecordImage] does. *)
Theorem board_game_acquisition_ignores_cached_file :
  let w := Samples.after_first_acquisition in
  let again :=
    ImageService.acquire Samples.online ImageService.BoardGames
      (VStr "174430") Samples.cover_url VNull w in
  files w !! ImageService.targetPath ImageService.BoardGames (VStr "174430")
  = Some "JPEG" /\
  fst (ImageService.validateExistingImage Samples.online
         (ImageService.targetPath ImageService.BoardGames (VStr "174430")) w)
  = Return true /\
  fst again
  = Return (VStr (ImageService.webPath ImageService.BoardGames
                    (VStr "174430"))) /\
  requests (snd again)
  = ("https://cf.geekdo-images.com/pic.png", VObj []) :: requests w.
Proof. vm_compute. repeat split; reflexivity. Qed.

(** ** The re-entrancy guard (claim C7) *)

Lemma guard_invariant (l : list SyncService.action) :
  let g := SyncService.run l SyncService.idle in
  (length (SyncService.suspended g) <= 1)%nat /\
  (SyncService.isRunning g = true <-> SyncService.suspended g <> []).
Proof.
  unfold SyncService.run.
  assert (forall g,
             ((length (SyncService.suspended g) <= 1)%nat /\
              (SyncService.isRunning g = true <-> SyncService.suspended g <> []))
             ->
             let g' := fold_left SyncService.act l g in
             (length (SyncService.suspended g') <= 1)%nat /\
             (SyncService.isRunning g' = true
              <-> SyncService.suspended g' <> [])) as Hgen.
  { induction l as [|a l IH]; simpl; [done|].
    intros g [Hlen Hrun]. apply IH.
    destruct a as [t|r]; simpl.
    - unfold SyncService.fire.
      destruct (SyncService.isRunning g) eqn:Hr.
      + by destruct t.
      + simpl. destruct (SyncService.suspended g) as [|x rest] eqn:Hs.
        * split; [simpl; lia | done].
        * exfalso. assert (false = true) by (apply Hrun; done). done.
    - unfold SyncService.resume.
      destruct (SyncService.suspended g) as [|x rest] eqn:Hs; simpl.
      + by rewrite Hs.
      + simpl in Hlen. assert (rest = []) as -> by (destruct rest; simpl in *; [done | lia]).
        split; [simpl; lia | split; done]. }
  apply Hgen. simpl. split; [lia | split; done].
Qed.

(** C7. From an orchestrator that is not running, whatever happened to it
    before, two triggers fired back-to-back (each a periodic tick or a manual
    trigger) start one sync: the first runs to completion when its pass
    settles, the second is refused with the error [Sync already in progress]
    if manual and skipped silently if periodic; nothing is left waiting, and
    the [isRunning] flag ends [false]. *)
Theorem back_to_back_triggers_run_once
  (history : list SyncService.action) (t1 t2 : SyncService.trigger)
  (r : SyncService.settlement) :
  let g := SyncService.run history SyncService.idle in
  SyncService.isRunning g = false ->
  let g' :=
    SyncService.run
      [SyncService.Fire t1; SyncService.Fire t2; SyncService.Settle r] g in
  SyncService.events g'
  = SyncService.Finished t1
      (match t1 with SyncService.Tick => SyncService.Fulfilled | _ => r end)
    :: SyncService.turned_away t2
    :: SyncService.Started t1 :: SyncService.events g /\
  length (filter SyncService.finished (SyncService.events g'))
  = S (length (filter SyncService.finished (SyncService.events g))) /\
  SyncService.suspended g' = [] /\
  SyncService.isRunning g' = false.
Proof.
  intros g Hidle g'.
  destruct (guard_invariant history) as [_ Hrun]. fold g in Hrun.
  assert (SyncService.suspended g = []) as Hs.
  { destruct (SyncService.suspended g) as [|x rest] eqn:Hs; [done|].
    exfalso. assert (SyncService.isRunning g = true) by (apply Hrun; done).
    congruence. }
  assert (SyncService.fire t1 g
          = SyncService.mkGuard true [t1]
              (SyncService.Started t1 :: SyncService.events g)) as Hfire1.
  { unfold SyncService.fire. by rewrite Hidle, Hs. }
  unfold g', SyncService.run. cbn [fold_left SyncService.act].
  rewrite Hfire1. destruct t2; simpl; repeat split; reflexivity.
Qed.

Lemma back_to_back_triggers_run_once_witness :
  SyncService.isRunning
    (SyncService.run
       [SyncService.Fire SyncService.RecordsManually;
        SyncService.Fire SyncService.Tick;
        SyncService.Settle (SyncService.Rejected "Discogs API error")]
       (SyncService.run
          [SyncService.Fire SyncService.Tick;
           SyncService.Settle SyncService.Fulfilled] SyncService.idle))
  = false.
Proof.
  apply (back_to_back_triggers_run_once
           [SyncService.Fire SyncService.Tick;
            SyncService.Settle SyncService.Fulfilled]
           SyncService.RecordsManually SyncService.Tick
           (SyncService.Rejected "Discogs API error")).
  reflexivity.
Defined.

(** ** Rules for calls *)

Section Rules.
Context {DB : Type}.
Implicit Types (w : world DB).

Lemma wp_ret {A} (a : A) w Q : Q (Return a) w -> wp (ret a) w Q.
Proof. done. Qed.

Lemma wp_throw {A} (e : string) w (Q : outcome A -> world DB -> Prop) :
  Q (Throw e) w -> wp (throw e) w Q.
Proof. done. Qed.

Lemma wp_bind {A B} (m : M DB A) (k : A -> M DB B) w Q :
  wp m w (fun r w1 =>
            match r with
            | Return a => wp (k a) w1 Q
            | Throw e => Q (Throw e) w1
            end) ->
  wp (bind m k) w Q.
Proof. unfold wp, bind. by destruct (m w) as [[a|e] w1]. Qed.

Lemma wp_try_catch {A} (m : M DB A) (h : string -> M DB A) w Q :
  wp m w (fun r w1 =>
            match r with
            | Return a => Q (Return a) w1
            | Throw e => wp (h e) w1 Q
            end) ->
  wp (try_catch m h) w Q.
Proof. unfold wp, try_catch. by destruct (m w) as [[a|e] w1]. Qed.

Lemma wp_mono {A} (m : M DB A) w (Q Q' : outcome A -> world DB -> Prop) :
  wp m w Q -> (forall r w', Q r w' -> Q' r w') -> wp m w Q'.
Proof. unfold wp. auto. Qed.

Lemma wp_run {A} (m : M DB A) w Q r w' :
  wp m w Q -> m w = (r, w') -> Q r w'.
Proof. unfold wp. intros HQ Hrun. by rewrite Hrun in HQ. Qed.

(** A call that leaves the store alone keeps what holds of the store. *)
Lemma wp_keeps_db {A} (m : M DB A) w (P : DB -> Prop) :
  keeps_db m -> P (db w) -> wp m w (fun _ w' => P (db w')).
Proof. unfold wp. intros Hm HP. by rewrite Hm. Qed.

Lemma keeps_db_ret {A} (a : A) : keeps_db (DB := DB) (ret a).
Proof. done. Qed.

Lemma keeps_db_throw {A} (e : string) : keeps_db (DB := DB) (A := A) (throw e).
Proof. done. Qed.

Lemma keeps_db_bind {A B} (m : M DB A) (k : A -> M DB B) :
  keeps_db m -> (forall a, keeps_db (k a)) -> keeps_db (bind m k).
Proof.
  intros Hm Hk w. unfold bind. specialize (Hm w).
  destruct (m w) as [[a|e] w1]; simpl in *; [|done]. by rewrite Hk.
Qed.

Lemma keeps_db_try_catch {A} (m : M DB A) (h : string -> M DB A) :
  keeps_db m -> (forall e, keeps_db (h e)) -> keeps_db (try_catch m h).
Proof.
  intros Hm Hh w. unfold try_catch. specialize (Hm w).
  destruct (m w) as [[a|e] w1]; simpl in *; [done|]. by rewrite Hh.
Qed.

Lemma keeps_db_date_now E : keeps_db (DB := DB) (date_now E).
Proof. done. Qed.

Lemma keeps_db_await {A} (o : outcome A) : keeps_db (DB := DB) (await o).
Proof. done. Qed.

Lemma returns_ret {A} (a : A) : returns (DB := DB) (ret a).
Proof. intros w. by exists a. Qed.

Lemma returns_bind {A B} (m : M DB A) (k : A -> M DB B) :
  returns m -> (forall a, returns (k a)) -> returns (bind m k).
Proof.
  intros Hm Hk w. unfold bind. destruct (Hm w) as [a Ha].
  destruct (m w) as [r w1]. simpl in Ha. subst r. apply Hk.
Qed.

Lemma returns_try_catch {A} (m : M DB A) (h : string -> M DB A) :
  (forall e, returns (h e)) -> returns (try_catch m h).
Proof.
  intros Hh w. unfold try_catch.
  destruct (m w) as [[a|e] w1]; [by exists a | apply Hh].
Qed.
End Rules.

Create HintDb frame discriminated.
#[export] Hint Resolve keeps_db_ret keeps_db_throw keeps_db_date_now
  keeps_db_await : frame.
#[export] Hint Resolve returns_ret : frame.

(** Decompose a call into its parts, case by case. *)
Ltac frame :=
  repeat first
    [ solve [auto with frame]
    | apply keeps_db_ret
    | apply keeps_db_throw
    | apply keeps_db_bind; [|intros ?]
    | apply keeps_db_try_catch; [|intros ?]
    | apply returns_ret
    | apply returns_try_catch; intros ?
    | apply returns_bind; [|intros ?]
    | match goal with
      | |- keeps_db (if ?c then _ else _) => destruct c
      | |- keeps_db (match ?x with _ => _ end) => destruct x
      | |- returns (if ?c then _ else _) => destruct c
      | |- returns (match ?x with _ => _ end) => destruct x
      end ].

(** ** Objects *)

Lemma lookup_assign_prop_ne k k' v ps :
  k <> k' -> lookup_prop k (assign_prop k' v ps) = lookup_prop k ps.
Proof.
  intros Hne. induction ps as [|[k0 v0] r IH]; simpl.
  - by destruct (String.eqb_spec k k').
  - destruct (String.eqb_spec k' k0) as [->|Hk0]; simpl.
    + by destruct (String.eqb_spec k k0).
    + by rewrite IH.
Qed.

Lemma lookup_assign_prop_eq k v ps : lookup_prop k (assign_prop k v ps) = v.
Proof.
  induction ps as [|[k0 v0] r IH]; simpl.
  - by rewrite String.eqb_refl.
  - destruct (String.eqb_spec k k0) as [->|Hk0]; simpl.
    + by rewrite String.eqb_refl.
    + by destruct (String.eqb_spec k k0).
Qed.

Lemma get_set_prop_ne k k' v o :
  k <> k' -> get_prop k (set_prop k' v o) = get_prop k o.
Proof.
  intros Hne. destruct o; simpl; try done. by apply lookup_assign_prop_ne.
Qed.

Lemma same_item_refl a : same_item a a.
Proof. done. Qed.

Lemma same_item_trans a b c : same_item a b -> same_item b c -> same_item a c.
Proof. intros (?&?&?) (?&?&?). repeat split; congruence. Qed.

Lemma same_item_set_prop k v a :
  k <> "external_id" -> k <> "in_collection" -> k <> "in_wishlist" ->
  same_item a (set_prop k v a).
Proof.
  intros H1 H2 H3. repeat split; by apply get_set_prop_ne.
Qed.

Lemma flagged_same_item wl a b : same_item a b -> flagged wl a -> flagged wl b.
Proof. intros (_&Hc&Hw) [Hic Hiw]. split; congruence. Qed.

(** ** The image cache leaves the store alone *)

Section ImageFrames.
Context (E : Env) {DB : Type}.

Lemma keeps_db_validateExistingImage filePath :
  keeps_db (DB := DB) (ImageService.validateExistingImage E filePath).
Proof.
  intros w. unfold ImageService.validateExistingImage.
  destruct (files w !! filePath); [|done]. by destruct (_ =? _)%nat.
Qed.

Lemma keeps_db_ensureDirectoryExists dir :
  keeps_db (DB := DB) (ImageService.ensureDirectoryExists dir).
Proof.
  intros w. unfold ImageService.ensureDirectoryExists. by destruct (decide _).
Qed.

Lemma keeps_db_http_get url headers :
  keeps_db (DB := DB) (ImageService.http_get E url headers).
Proof. done. Qed.

Lemma keeps_db_sharp_toFile buffer filepath :
  keeps_db (DB := DB) (ImageService.sharp_toFile E buffer filepath).
Proof.
  intros w. unfold ImageService.sharp_toFile.
  destruct (sharp_jpeg _ _ _); [done|]. by destruct (sharp_partial _ _).
Qed.

Hint Resolve keeps_db_validateExistingImage keeps_db_ensureDirectoryExists
  keeps_db_http_get keeps_db_sharp_toFile : frame.

Lemma keeps_db_downloadImage url dir filename headers :
  keeps_db (DB := DB)
    (ImageService.downloadImage E url dir filename headers None).
Proof. unfold ImageService.downloadImage. frame. Qed.

Hint Resolve keeps_db_downloadImage : frame.

Lemma keeps_db_downloadRecordImage recordId imageUrl token imageType :
  keeps_db (DB := DB)
    (ImageService.downloadRecordImage E recordId imageUrl token imageType).
Proof. unfold ImageService.downloadRecordImage. frame. Qed.

Lemma keeps_db_downloadBoardGameImage gameId imageUrl :
  keeps_db (DB := DB) (ImageService.downloadBoardGameImage E gameId imageUrl).
Proof. unfold ImageService.downloadBoardGameImage. frame. Qed.
End ImageFrames.

#[export] Hint Resolve keeps_db_downloadRecordImage
  keeps_db_downloadBoardGameImage : frame.

(** ** The transformers *)

Section Transformers.
Context (E : Env) {DB : Type}.

Lemma keeps_db_member k x : keeps_db (DB := DB) (DiscogsService.member k x).
Proof. unfold DiscogsService.member. frame. Qed.

Hint Resolve keeps_db_member : frame.

Lemma keeps_db_names l : keeps_db (DB := DB) (DiscogsService.names l).
Proof. induction l as [|f r IH]; simpl; frame. Qed.

Hint Resolve keeps_db_names : frame.

Lemma keeps_db_transformToRecord item wl :
  keeps_db (DB := DB) (DiscogsService.transformToRecord E item wl).
Proof.
  unfold DiscogsService.transformToRecord, DiscogsService.getMainArtist,
    DiscogsService.getSortArtist, DiscogsService.getFormat,
    DiscogsService.getMainLabel, DiscogsService.getCatalogNumber.
  frame.
Qed.

Lemma keeps_db_downloadRecordImages record :
  keeps_db (DB := DB) (DiscogsService.downloadRecordImages E record).
Proof.
  unfold DiscogsService.downloadRecordImages, DiscogsService.discogsImage,
    DiscogsService.itunesImage.
  frame.
Qed.

Lemma returns_downloadRecordImages record :
  returns (DB := DB) (DiscogsService.downloadRecordImages E record).
Proof. unfold DiscogsService.downloadRecordImages. frame. Qed.

Lemma keeps_db_transformToBoardGame item wl :
  keeps_db (DB := DB) (BoardGameGeekService.transformToBoardGame E item wl).
Proof. unfold BoardGameGeekService.transformToBoardGame. frame. Qed.

Lemma keeps_db_downloadBoardGameImages game :
  keeps_db (DB := DB) (BoardGameGeekService.downloadBoardGameImages E game).
Proof. unfold BoardGameGeekService.downloadBoardGameImages. frame. Qed.

Lemma returns_downloadBoardGameImages game :
  returns (DB := DB) (BoardGameGeekService.downloadBoardGameImages E game).
Proof. unfold BoardGameGeekService.downloadBoardGameImages. frame. Qed.

Lemma keeps_db_enrichBatch batch :
  keeps_db (DB := DB) (BoardGameGeekService.enrichBatch E batch).
Proof.
  unfold BoardGameGeekService.enrichBatch,
    BoardGameGeekService.parseGameDetails.
  frame. intros w. done.
Qed.

Lemma returns_enrichBatch batch :
  returns (DB := DB) (BoardGameGeekService.enrichBatch E batch).
Proof. unfold BoardGameGeekService.enrichBatch. frame. Qed.

Hint Resolve keeps_db_enrichBatch returns_enrichBatch : frame.

Lemma keeps_db_enrichBatches batches :
  keeps_db (DB := DB) (BoardGameGeekService.enrichBatches E batches).
Proof. induction batches as [|b r IH]; simpl; frame. Qed.

Lemma returns_enrichBatches batches :
  returns (DB := DB) (BoardGameGeekService.enrichBatches E batches).
Proof. induction batches as [|b r IH]; simpl; frame. Qed.
End Transformers.

#[export] Hint Resolve keeps_db_transformToRecord keeps_db_downloadRecordImages
  returns_downloadRecordImages keeps_db_transformToBoardGame
  keeps_db_downloadBoardGameImages returns_downloadBoardGameImages
  keeps_db_enrichBatches returns_enrichBatches : frame.

(** ** What the transformers return *)

Section TransformerResults.
Context (E : Env) {DB : Type}.
Implicit Types (w : world DB).

Lemma member_Return k x w v w' :
  DiscogsService.member k x w = (Return v, w') -> v = get_prop k x.
Proof. destruct x; simpl; by intros [= <- _]. Qed.

Lemma transformToRecord_Return item wl w record w' :
  DiscogsService.transformToRecord E item wl w = (Return record, w') ->
  flagged wl record /\
  get_prop "external_id" record
  = SyncService.external_id SyncService.Discogs item.
Proof.
  unfold DiscogsService.transformToRecord, bind.
  destruct (DiscogsService.member _ _ w) as [[bi|?] w1] eqn:Hbi; [|done].
  apply member_Return in Hbi. subst bi.
  repeat (match goal with
          | |- context [match ?m ?x with _ => _ end] =>
              destruct (m x) as [[?|?] ?]; [|done]
          end).
  intros [= <- _]. done.
Qed.

Lemma discogsImage_same record w record' w' :
  DiscogsService.discogsImage E record w = (Return record', w') ->
  same_item record record'.
Proof.
  unfold DiscogsService.discogsImage, bind.
  destruct (truthy _); [|by intros [= <- _]].
  destruct (ImageService.downloadRecordImage _ _ _ _ _ _) as [[p|?] w1];
    [|done].
  destruct (truthy p); intros [= <- _]; [|done].
  eapply same_item_trans; by apply same_item_set_prop.
Qed.

Lemma itunesImage_same record w record' w' :
  DiscogsService.itunesImage E record w = (Return record', w') ->
  same_item record record'.
Proof.
  unfold DiscogsService.itunesImage, bind.
  destruct (itunes_searchAlbum E _ _) as [url year]. simpl.
  assert (forall r0 w0,
             (if truthy year then
                if truthy (ITunesService.validateReleaseYear year
                             (get_prop "year_of_release" r0))
                then ret (set_prop "year_of_original_release"
                            (ITunesService.validateReleaseYear year
                               (get_prop "year_of_release" r0)) r0)
                else ret r0
              else ret r0) w0 = (Return record', w') ->
             same_item r0 record') as Hyear.
  { intros r0 w0. destruct (truthy year); [|by intros [= <- _]].
    destruct (truthy _); intros [= <- _]; [|done].
    by apply same_item_set_prop. }
  destruct (truthy url).
  - destruct (ImageService.downloadRecordImage _ _ _ _ _ _) as [[p|?] w1];
      [|done].
    destruct (truthy p); simpl; intros Hrest; apply Hyear in Hrest; [|done].
    eapply same_item_trans; [|exact Hrest].
    eapply same_item_trans; by apply same_item_set_prop.
  - simpl. apply Hyear.
Qed.

Lemma downloadRecordImages_same record w record' w' :
  DiscogsService.downloadRecordImages E record w = (Return record', w') ->
  same_item record record'.
Proof.
  unfold DiscogsService.downloadRecordImages.
  destruct (negb _); [by intros [= <- _]|].
  unfold try_catch at 1, bind.
  destruct (DiscogsService.discogsImage E record w) as [[r1|?] w1] eqn:H1;
    [|by intros [= <- _]].
  apply discogsImage_same in H1.
  unfold try_catch.
  destruct (DiscogsService.itunesImage E r1 w1) as [[r2|?] w2] eqn:H2;
    intros [= <- _]; [|done].
  apply itunesImage_same in H2. by eapply same_item_trans.
Qed.

Lemma transformToBoardGame_Return item wl w game w' :
  BoardGameGeekService.transformToBoardGame E item wl w = (Return game, w') ->
  flagged wl game /\
  get_prop "external_id" game
  = SyncService.external_id SyncService.BoardGameGeek item.
Proof.
  unfold BoardGameGeekService.transformToBoardGame, bind.
  destruct (DiscogsService.member _ _ w) as [[stats|?] w1]; [|done].
  simpl. intros [= <- _]. done.
Qed.

Lemma downloadBoardGameImages_same game w game' w' :
  BoardGameGeekService.downloadBoardGameImages E game w = (Return game', w') ->
  same_item game game'.
Proof.
  unfold BoardGameGeekService.downloadBoardGameImages.
  destruct (_ || _); [by intros [= <- _]|].
  unfold try_catch, bind.
  destruct (ImageService.downloadBoardGameImage _ _ _ _) as [[p|?] w1];
    [|by intros [= <- _]].
  destruct (truthy p); intros [= <- _]; [|done].
  by apply same_item_set_prop.
Qed.

Lemma enrich_same details game :
  same_item game (BoardGameGeekService.enrich details game).
Proof.
  unfold BoardGameGeekService.enrich. destruct (find _ _); [|done].
  eapply same_item_trans; [|by apply same_item_set_prop].
  eapply same_item_trans; by apply same_item_set_prop.
Qed.

Lemma Forall2_same_item_refl l : Forall2 same_item l l.
Proof. induction l; constructor; done. Qed.

Lemma enrichBatch_same batch w l w' :
  BoardGameGeekService.enrichBatch E batch w = (Return l, w') ->
  Forall2 same_item batch l.
Proof.
  unfold BoardGameGeekService.enrichBatch.
  destruct (filter _ _); [intros [= <- _]; apply Forall2_same_item_refl|].
  unfold try_catch, bind.
  destruct (bgg_getGameDetails E _) as [resp|?]; simpl;
    [|intros [= <- _]; apply Forall2_same_item_refl].
  destruct (BoardGameGeekService.parseGameDetails resp w) as [[details|?] w1];
    intros [= <- _]; [|apply Forall2_same_item_refl].
  clear. induction batch; constructor; [apply enrich_same | done].
Qed.

Lemma enrichBatches_same batches w l w' :
  BoardGameGeekService.enrichBatches E batches w = (Return l, w') ->
  Forall2 same_item (concat batches) l.
Proof.
  revert w l w'. induction batches as [|b r IH]; simpl; intros w l w'.
  - intros [= <- _]. constructor.
  - unfold bind.
    destruct (BoardGameGeekService.enrichBatch E b w) as [[l1|?] w1] eqn:H1;
      [|done].
    destruct (BoardGameGeekService.enrichBatches E r w1) as [[l2|?] w2] eqn:H2;
      [|done].
    intros [= <- _]. apply Forall2_app; [by eapply enrichBatch_same | by eapply IH].
Qed.
End TransformerResults.

Lemma concat_chunks_of fuel n (l : list value) :
  (0 < n)%nat -> (length l <= fuel)%nat -> concat (chunks_of fuel n l) = l.
Proof.
  intros Hn. revert l. induction fuel as [|fuel IH]; intros l Hl.
  - destruct l; [done | simpl in Hl; lia].
  - destruct l as [|x l]; [done|].
    change (chunks_of (S fuel) n (x :: l))
      with (take n (x :: l) :: chunks_of fuel n (drop n (x :: l))).
    simpl concat. rewrite IH.
    + apply take_drop.
    + rewrite length_drop. simpl in *. lia.
Qed.

Lemma concat_chunkArray n (l : list value) :
  (0 < n)%nat -> concat (chunkArray l n) = l.
Proof. intros Hn. by apply concat_chunks_of. Qed.

(** ** Statements *)

Section StatementFacts.
Context (E : Env).
Import Database.

Lemma statement_cases table params f d r d' :
  statement E table params f d = (r, d') ->
  (exists e, r = Throw e /\ tables d' = tables d) \/
  (exists rows,
      tables d !! table = Some rows /\
      dbms_error E (statements d) table params = None /\
      r = Return (fst (f (current_timestamp E (statements d)) rows)) /\
      tables d'
      = <[table := snd (f (current_timestamp E (statements d)) rows)]>
          (tables d)).
Proof.
  unfold statement.
  destruct (dbms_error E _ _ _) as [e|]; [intros [= <- <-]; left; by eexists|].
  destruct (tables d !! table) as [rows|] eqn:Hrows;
    [|intros [= <- <-]; left; by eexists].
  destruct (f _ rows) as [v rows'] eqn:Hf. intros [= <- <-].
  right. exists rows. by rewrite Hf.
Qed.

Lemma statement_accepted table params f d rows :
  dbms_error E (statements d) table params = None ->
  tables d !! table = Some rows ->
  exists d',
    statement E table params f d
    = (Return (fst (f (current_timestamp E (statements d)) rows)), d') /\
    tables d'
    = <[table := snd (f (current_timestamp E (statements d)) rows)]> (tables d).
Proof.
  intros Hok Hrows. unfold statement. rewrite Hok, Hrows.
  destruct (f _ rows) as [v rows']. by eexists.
Qed.

(** What [upsert] and [update] do to the tables. *)
Lemma upsert_cases table data cols d r d' :
  upsert E table data cols d = (r, d') ->
  (exists e, r = Throw e /\ tables d' = tables d) \/
  (exists rows ts v,
      tables d !! table = Some rows /\ r = Return v /\
      tables d'
      = <[table := snd (upsert_rows E table data (strings_of cols) ts rows)]>
          (tables d)).
Proof.
  unfold upsert.
  destruct (strings_of cols) as [|c cs] eqn:Hc.
  - intros Hs. apply statement_cases in Hs as [?|(rows & Hr & _ & -> & Ht)];
      [by left | right; by eexists _, _, _].
  - destruct (updateColumns data (c :: cs)) eqn:Hu.
    + intros [= <- <-]. left. by eexists.
    + intros Hs. apply statement_cases in Hs as [?|(rows & Hr & _ & -> & Ht)];
        [by left | right; by eexists _, _, _].
Qed.

Lemma update_cases table data conditions d r d' :
  update E table data conditions d = (r, d') ->
  (exists e, r = Throw e /\ tables d' = tables d) \/
  (exists rows ts v,
      tables d !! table = Some rows /\ r = Return v /\
      tables d' = <[table := snd (update_rows E data conditions ts rows)]>
                    (tables d)).
Proof.
  unfold update.
  destruct (JS.keys data); [intros [= <- <-]; left; by eexists|].
  destruct (JS.keys conditions); [intros [= <- <-]; left; by eexists|].
  intros Hs. apply statement_cases in Hs as [?|(rows & Hr & _ & -> & Ht)];
    [by left | right; by eexists _, _, _].
Qed.

(** Tables are never dropped. *)
Lemma upsert_table_exists table data cols d r d' t0 :
  upsert E table data cols d = (r, d') ->
  table_exists t0 d -> table_exists t0 d'.
Proof.
  intros Hu Ht. unfold table_exists in *.
  apply upsert_cases in Hu as [(e & _ & ->)|(rows & ts & v & Hr & _ & ->)];
    [done|].
  destruct (decide (table = t0)) as [->|Hne].
  - by rewrite lookup_insert_eq.
  - by rewrite lookup_insert_ne.
Qed.

Lemma update_table_exists table data conditions d r d' t0 :
  update E table data conditions d = (r, d') ->
  table_exists t0 d -> table_exists t0 d'.
Proof.
  intros Hu Ht. unfold table_exists in *.
  apply update_cases in Hu as [(e & _ & ->)|(rows & ts & v & Hr & _ & ->)];
    [done|].
  destruct (decide (table = t0)) as [->|Hne].
  - by rewrite lookup_insert_eq.
  - by rewrite lookup_insert_ne.
Qed.

(** A statement on one table leaves the others as they are. *)
Lemma upsert_other_table table data cols d r d' t0 :
  upsert E table data cols d = (r, d') ->
  table <> t0 -> tables d' !! t0 = tables d !! t0.
Proof.
  intros Hu Hne.
  apply upsert_cases in Hu as [(e & _ & ->)|(rows & ts & v & Hr & _ & ->)];
    [done|].
  by rewrite lookup_insert_ne.
Qed.

Lemma update_other_table table data conditions d r d' t0 :
  update E table data conditions d = (r, d') ->
  table <> t0 -> tables d' !! t0 = tables d !! t0.
Proof.
  intros Hu Hne.
  apply update_cases in Hu as [(e & _ & ->)|(rows & ts & v & Hr & _ & ->)];
    [done|].
  by rewrite lookup_insert_ne.
Qed.
End StatementFacts.

(** ** Rows *)

Section RowFacts.
Import Database.
Context {E : Env}.

Lemma stored_plain column v :
  converted column = false -> stored E column v = sql_value v.
Proof. intros Hc. unfold stored. rewrite Hc. by destruct (sql_value v). Qed.


Lemma lookup_prop_key k ps :
  lookup_prop k ps <> VUndefined -> k ∈ map fst ps.
Proof.
  induction ps as [|[k0 v0] r IH]; simpl; [done|].
  destruct (String.eqb_spec k k0) as [->|Hne]; intros Hv.
  - apply list_elem_of_here.
  - apply list_elem_of_further. auto.
Qed.

Lemma get_prop_key k data b :
  get_prop k data = VBool b -> k ∈ JS.keys data.
Proof.
  destruct data; simpl; try done. intros Hv. apply lookup_prop_key.
  by rewrite Hv.
Qed.

Lemma lookup_assign_notin (f : string -> value) ks r k :
  k ∉ ks ->
  lookup_prop k (assign E (map (fun k => (k, f k)) ks) r) = lookup_prop k r.
Proof.
  revert r. induction ks as [|k0 ks IH]; intros r; [done|].
  intros [Hne Hk]%not_elem_of_cons. unfold assign in *. simpl.
  rewrite IH by done. by apply lookup_assign_prop_ne.
Qed.

Lemma lookup_assign_in (f : string -> value) ks r k :
  k ∈ ks ->
  lookup_prop k (assign E (map (fun k => (k, f k)) ks) r) = stored E k (f k).
Proof.
  revert r. induction ks as [|k0 ks IH]; intros r; [by intros ?%elem_of_nil|].
  intros Hin. destruct (decide (k ∈ ks)) as [Hks|Hks].
  - unfold assign in *. simpl. by apply IH.
  - apply elem_of_cons in Hin as [->|?]; [|done].
    change (assign E (map (fun k => (k, f k)) (k0 :: ks)) r)
      with (assign E (map (fun k => (k, f k)) ks)
              (assign_prop k0 (stored E k0 (f k0)) r)).
    rewrite lookup_assign_notin by done. apply lookup_assign_prop_eq.
Qed.

Lemma updateColumns_elem data k :
  k ∈ JS.keys data -> k <> "external_id" ->
  k ∈ updateColumns data ["external_id"].
Proof.
  intros Hk Hne. unfold updateColumns. apply list_elem_of_filter.
  split; [|done]. simpl. destruct (String.eqb_spec k "external_id"); done.
Qed.

Lemma updateColumns_not_id data :
  "external_id" ∉ updateColumns data ["external_id"].
Proof.
  unfold updateColumns. intros [Hp _]%list_elem_of_filter. done.
Qed.

(** The row written on a conflict carries the flags of the data and keeps
    its id. *)
Lemma updated_row_wishlisted data ts r :
  flagged true data -> wishlisted (updated_row E data ["external_id"] ts r).
Proof.
  intros [Hc Hw]. unfold wishlisted, updated_row.
  rewrite !lookup_assign_prop_ne by done.
  rewrite !lookup_assign_in.
  - by rewrite Hc, Hw.
  - apply updateColumns_elem; [by eapply get_prop_key | done].
  - apply updateColumns_elem; [by eapply get_prop_key | done].
Qed.

Lemma updated_row_id data ts r :
  lookup_prop "external_id" (updated_row E data ["external_id"] ts r)
  = lookup_prop "external_id" r.
Proof.
  unfold updated_row. rewrite lookup_assign_prop_ne by done.
  apply lookup_assign_notin, updateColumns_not_id.
Qed.

Lemma proposed_row_wishlisted table data ts :
  flagged true data -> wishlisted (proposed_row E table data ts).
Proof.
  intros [Hc Hw]. unfold wishlisted, proposed_row.
  rewrite !lookup_assign_in by (by eapply get_prop_key).
  by rewrite Hc, Hw.
Qed.

Lemma proposed_row_id table data ts id :
  get_prop "external_id" data = VStr id ->
  lookup_prop "external_id" (proposed_row E table data ts) = VStr id.
Proof.
  intros Hid. unfold proposed_row. rewrite lookup_assign_in.
  - by rewrite Hid.
  - destruct data; simpl in *; try done. apply lookup_prop_key. by rewrite Hid.
Qed.

Lemma sql_eq_str a id : sql_eq a (VStr id) = true -> a = VStr id.
Proof.
  destruct a; simpl; try done. by intros ->%String.eqb_eq.
Qed.

Lemma sql_eq_sym a b : sql_eq a b = sql_eq b a.
Proof.
  destruct a, b; simpl; try done.
  - by destruct b0, b.
  - apply Z.eqb_sym.
  - apply String.eqb_sym.
Qed.

Lemma conflicts_id proposed r :
  conflicts ["external_id"] proposed r
  = sql_eq (lookup_prop "external_id" r) (lookup_prop "external_id" proposed).
Proof. unfold conflicts. simpl. apply andb_true_r. Qed.
End RowFacts.

Section RewrittenRows.
Context {A : Type} (P : A -> Prop) (c : A -> bool) (f : A -> A).

Lemma Forall_map_if l :
  Forall P l -> (forall x, c x = true -> P (f x)) ->
  Forall P (map (fun x => if c x then f x else x) l).
Proof.
  intros Hl Hf. induction Hl as [|x l Hx Hl IH]; simpl; constructor; [|done].
  destruct (c x) eqn:Hc; auto.
Qed.

Lemma Exists_map_if l :
  Exists P l -> (forall x, P x -> P (f x)) ->
  Exists P (map (fun x => if c x then f x else x) l).
Proof.
  intros Hl Hf. induction Hl as [x l Hx|x l Hl IH]; simpl.
  - apply Exists_cons_hd. destruct (c x); auto.
  - by apply Exists_cons_tl.
Qed.

Lemma existsb_Exists_map_if l :
  existsb c l = true -> (forall x, c x = true -> P (f x)) ->
  Exists P (map (fun x => if c x then f x else x) l).
Proof.
  intros Hl Hf. induction l as [|x l IH]; simpl in *; [done|].
  destruct (c x) eqn:Hc.
  - apply Exists_cons_hd. auto.
  - apply Exists_cons_tl. auto.
Qed.
End RewrittenRows.

Section CatalogFacts.
Context (E : Env).
Import Database.

(** An upsert of wishlist data, keyed on [external_id], keeps every row of
    the id flagged as wishlist-only and keeps the id in the table. *)
Lemma upsert_rows_keeps table id data ts rows :
  flagged true data ->
  Forall (fun r => has_id id r = true -> wishlisted r) rows ->
  Forall (fun r => has_id id r = true -> wishlisted r)
    (snd (upsert_rows E table data ["external_id"] ts rows)) /\
  (Exists (fun r => has_id id r = true) rows ->
   Exists (fun r => has_id id r = true)
     (snd (upsert_rows E table data ["external_id"] ts rows))).
Proof.
  intros Hflag Hall. unfold upsert_rows. cbv zeta.
  destruct (existsb _ rows) eqn:Hex; cbn [snd].
  - split.
    + apply Forall_map_if; [done|]. intros r _ _.
      by apply updated_row_wishlisted.
    + intros Hid. apply Exists_map_if; [done|]. intros r Hr.
      unfold has_id in *. by rewrite updated_row_id.
  - split.
    + apply Forall_app. split; [done|]. constructor; [|done].
      intros _. by apply proposed_row_wishlisted.
    + intros Hid. apply Exists_app. by left.
Qed.

(** When the data carry the id, the upsert leaves the id in the table with
    every row of it flagged as wishlist-only, whatever the rows were. *)
Lemma upsert_rows_makes table id data ts rows :
  flagged true data ->
  get_prop "external_id" data = VStr id ->
  Forall (fun r => has_id id r = true -> wishlisted r)
    (snd (upsert_rows E table data ["external_id"] ts rows)) /\
  Exists (fun r => has_id id r = true)
    (snd (upsert_rows E table data ["external_id"] ts rows)).
Proof.
  intros Hflag Hid. unfold upsert_rows. cbv zeta.
  assert (forall r,
             conflicts ["external_id"] (proposed_row E table data ts) r
             = has_id id r) as Hhit.
  { intros r. by rewrite conflicts_id, (proposed_row_id _ _ _ _ Hid). }
  destruct (existsb _ rows) eqn:Hex; cbn [snd].
  - split.
    + apply Forall_forall. intros r' Hr'.
      apply list_elem_of_In, in_map_iff in Hr' as (r & <- & _).
      rewrite Hhit. destruct (has_id id r) eqn:Hr; [|congruence].
      intros _. by apply updated_row_wishlisted.
    + apply existsb_Exists_map_if; [done|]. intros r Hr.
      rewrite Hhit in Hr. unfold has_id in *. by rewrite updated_row_id.
  - split.
    + apply Forall_app. split.
      * apply Forall_forall. intros r Hr Hidr. exfalso.
        assert (existsb (conflicts ["external_id"]
                           (proposed_row E table data ts)) rows = true); [|congruence].
        apply existsb_exists. exists r. split; [by apply list_elem_of_In|].
        by rewrite Hhit.
      * constructor; [|done]. intros _. by apply proposed_row_wishlisted.
    + apply Exists_app. right. apply Exists_cons_hd.
      unfold has_id. rewrite (proposed_row_id _ _ _ _ Hid).
      apply String.eqb_refl.
Qed.

Lemma upsert_keeps_wishlist table id data d r d' :
  flagged true data ->
  upsert E table data (VArr [VStr "external_id"]) d = (r, d') ->
  on_wishlist_only table id d -> on_wishlist_only table id d'.
Proof.
  intros Hflag Hu (rows & Hrows & Hex & Hall).
  apply upsert_cases in Hu
    as [(e & _ & Ht)|(rows0 & ts & v & Hr & _ & Ht)].
  - exists rows. by rewrite Ht.
  - rewrite Hrows in Hr. injection Hr as <-.
    destruct (upsert_rows_keeps table id data ts rows Hflag Hall)
      as (Hall' & Hex').
    eexists. rewrite Ht, lookup_insert_eq. split; [done|]. split; auto.
Qed.

Lemma upsert_makes_wishlist table id data d v d' :
  flagged true data ->
  get_prop "external_id" data = VStr id ->
  upsert E table data (VArr [VStr "external_id"]) d = (Return v, d') ->
  on_wishlist_only table id d'.
Proof.
  intros Hflag Hid Hu.
  apply upsert_cases in Hu
    as [(e & ? & _)|(rows & ts & v0 & Hr & _ & Ht)]; [done|].
  destruct (upsert_rows_makes table id data ts rows Hflag Hid)
    as (Hall' & Hex').
  eexists. rewrite Ht, lookup_insert_eq. split; [done|]. split; auto.
Qed.

(** The upsert of an id goes through when the table exists and the DBMS
    accepts it. *)
Lemma upsert_accepted table data d wl :
  flagged wl data ->
  table_exists table d ->
  dbms_error E (statements d) table data = None ->
  exists v d', upsert E table data (VArr [VStr "external_id"]) d
               = (Return v, d').
Proof.
  intros [Hc _] [rows Hrows] Hok. unfold upsert. simpl strings_of.
  destruct (updateColumns data ["external_id"]) eqn:Hu.
  - exfalso.
    assert ("in_collection" ∈ updateColumns data ["external_id"]) as Hin
      by (apply updateColumns_elem; [by eapply get_prop_key | done]).
    rewrite Hu in Hin. by apply elem_of_nil in Hin.
  - destruct (statement_accepted E table data
                (upsert_rows E table data ["external_id"]) d rows Hok Hrows)
      as (d' & Hs & _).
    cbv iota. rewrite Hs, Hu. by eexists _, _.
Qed.
End CatalogFacts.

(** ** What a pass keeps *)

Section Preservation.
Context {DB : Type} (P : DB -> Prop).

Lemma preserves_keeps_db {A} (m : M DB A) : keeps_db m -> preserves P m.
Proof. intros Hm w HP. by rewrite Hm. Qed.

Lemma preserves_ret {A} (a : A) : preserves P (ret a).
Proof. by intros w. Qed.

Lemma preserves_throw {A} (e : string) : preserves P (A := A) (throw e).
Proof. by intros w. Qed.

Lemma preserves_bind {A B} (m : M DB A) (k : A -> M DB B) (Qa : A -> Prop) :
  preserves P m ->
  (forall w a w1, m w = (Return a, w1) -> Qa a) ->
  (forall a, Qa a -> preserves P (k a)) ->
  preserves P (bind m k).
Proof.
  intros Hm HQ Hk w HP. unfold bind. specialize (Hm w HP).
  destruct (m w) as [[a|e] w1] eqn:Hrun; simpl in *; [|done].
  apply (Hk a); [by eapply HQ | done].
Qed.

Lemma preserves_seq {A B} (m : M DB A) (k : A -> M DB B) :
  preserves P m -> (forall a, preserves P (k a)) -> preserves P (bind m k).
Proof.
  intros Hm Hk. apply (preserves_bind m k (fun _ => True)); auto.
Qed.

Lemma preserves_try_catch {A} (m : M DB A) (h : string -> M DB A) :
  preserves P m -> (forall e, preserves P (h e)) ->
  preserves P (try_catch m h).
Proof.
  intros Hm Hh w HP. unfold try_catch. specialize (Hm w HP).
  destruct (m w) as [[a|e] w1]; simpl in *; [done|]. by apply Hh.
Qed.
End Preservation.

Lemma preserves_run {DB A} (P : DB -> Prop) (m : M DB A) w r w' :
  preserves P m -> P (db w) -> m w = (r, w') -> P (db w').
Proof. intros Hm HP Hrun. specialize (Hm w HP). by rewrite Hrun in Hm. Qed.

Lemma try_catch_Throw {DB A} (m : M DB A) (h : string -> M DB A)
  (w : world DB) e' w' :
  try_catch m h w = (Throw e', w') ->
  exists e w1, m w = (Throw e, w1) /\ h e w1 = (Throw e', w').
Proof.
  unfold try_catch. destruct (m w) as [[a|e] w1]; [done|]. intros Hh.
  by exists e, w1.
Qed.

Lemma bind_Return {DB A B} (m : M DB A) (k : A -> M DB B) w b w' :
  bind m k w = (Return b, w') ->
  exists a w1, m w = (Return a, w1) /\ k a w1 = (Return b, w').
Proof.
  unfold bind. destruct (m w) as [[a|e] w1]; [|done]. intros Hk.
  by exists a, w1.
Qed.

Section StoreCalls.
Context (E : Env).

Lemma cached_upsert_db table data cols (w : world Database.t) :
  (fst (CachedDbService.upsert (H := Database_Store E) table data cols w),
   db (snd (CachedDbService.upsert (H := Database_Store E) table data cols w)))
  = Database.upsert E table data cols (db w).
Proof.
  unfold CachedDbService.upsert, bind, call_db. cbn [db with_calls db_upsert
    Database_Store].
  destruct (Database.upsert E table data cols (db w)) as [[v|e] d']; [|done].
  rewrite invalidateTable_spec. done.
Qed.

Lemma cached_update_clock table data conditions (w : world Database.t) :
  clock_reads
    (snd (CachedDbService.update (H := Database_Store E) table data
            conditions w))
  = clock_reads w.
Proof.
  unfold CachedDbService.update, bind, call_db. cbn [db with_calls db_update
    Database_Store].
  destruct (Database.update E table data conditions (db w)) as [[v|e] d'];
    [|done].
  rewrite invalidateTable_spec. done.
Qed.

Lemma cached_update_db table data conditions (w : world Database.t) :
  (fst (CachedDbService.update (H := Database_Store E) table data conditions w),
   db (snd (CachedDbService.update (H := Database_Store E) table data
              conditions w)))
  = Database.update E table data conditions (db w).
Proof.
  unfold CachedDbService.update, bind, call_db. cbn [db with_calls db_update
    Database_Store].
  destruct (Database.update E table data conditions (db w)) as [[v|e] d'];
    [|done].
  rewrite invalidateTable_spec. done.
Qed.

Lemma preserves_cached_upsert table wl P data :
  kept_by_upserts E table wl P -> flagged wl data ->
  preserves P
    (CachedDbService.upsert (H := Database_Store E) table data
       (VArr [VStr "external_id"])).
Proof.
  intros HP Hflag w Hw.
  pose proof (cached_upsert_db table data (VArr [VStr "external_id"]) w) as Hdb.
  destruct (Database.upsert E table data _ (db w)) as [r d'] eqn:Hu.
  injection Hdb as _ ->. by eapply HP.
Qed.

Lemma preserves_updateSyncStatus P service inProgress errorMessage :
  kept_by_status_updates E P ->
  preserves P (SyncService.updateSyncStatus E service inProgress errorMessage).
Proof.
  intros HP. unfold SyncService.updateSyncStatus.
  set (updateData :=
         VObj [("sync_in_progress", VBool inProgress);
               ("error_message", default_to VNull errorMessage)]).
  apply (preserves_bind P _ _ (fun data => "service" ∉ JS.keys data)).
  - destruct (negb inProgress); apply preserves_keeps_db; frame.
  - intros w a w1. destruct (negb inProgress).
    + unfold bind, date_now, ret. intros [= <- _]. simpl. set_solver.
    + intros [= <- _]. simpl. set_solver.
  - intros data Hdata. apply preserves_seq; [|intros; apply preserves_ret].
    intros w Hw.
    pose proof (cached_update_db "sync_status" data
                  (VObj [("service", VStr service)]) w) as Hdb.
    destruct (Database.update E "sync_status" data _ (db w)) as [r d'] eqn:Hu.
    injection Hdb as _ ->. by eapply HP.
Qed.
End StoreCalls.

(** ** The passes keep what their store calls keep *)

Section Passes.
Context (E : Env) (P : Database.t -> Prop).

Lemma kept_by_any_upsert_flagged table wl :
  kept_by_any_upsert E table P -> kept_by_upserts E table wl P.
Proof. intros HP data d r d' _. apply HP. Qed.

Lemma preserves_processRecord wl item :
  kept_by_upserts E "records" wl P ->
  preserves P (SyncService.processRecord E wl item).
Proof.
  intros HP. unfold SyncService.processRecord.
  apply preserves_try_catch; [|intros; apply preserves_ret].
  apply (preserves_bind P _ _ (flagged wl)).
  - apply preserves_keeps_db. frame.
  - intros w a w1 Hrun. by apply transformToRecord_Return in Hrun as [? _].
  - intros record Hflag. apply (preserves_bind P _ _ (flagged wl)).
    + apply preserves_keeps_db. frame.
    + intros w a w1 Hrun. apply downloadRecordImages_same in Hrun.
      by eapply flagged_same_item.
    + intros record' Hflag'. apply preserves_seq; [|intros; apply preserves_ret].
      by eapply preserves_cached_upsert.
Qed.

Lemma preserves_processBatch wl items :
  kept_by_upserts E "records" wl P ->
  preserves P (SyncService.processBatch E wl items).
Proof.
  intros HP. induction items as [|item rest IH]; simpl;
    [apply preserves_ret|].
  apply preserves_seq; [by apply preserves_processRecord|]. intros r.
  apply preserves_seq; [done|]. intros rs. apply preserves_ret.
Qed.

Lemma preserves_processBatches wl chunks :
  kept_by_upserts E "records" wl P ->
  preserves P (SyncService.processBatches E wl chunks).
Proof.
  intros HP. induction chunks as [|chunk rest IH]; simpl;
    [apply preserves_ret|].
  apply preserves_seq; [by apply preserves_processBatch | done].
Qed.

(** The [try] block of [syncRecords]. *)
Lemma preserves_syncRecords_try fetched :
  kept_by_upserts E "records" false P ->
  kept_by_upserts E "records" true P ->
  kept_by_status_updates E P ->
  preserves P
    (SyncService.updateSyncStatus E "discogs" true VUndefined ;;;
     items <- await fetched ;;
     SyncService.processRecordsInParallel E (fst items) false ;;;
     SyncService.processRecordsInParallel E (snd items) true ;;;
     SyncService.updateSyncStatus E "discogs" false VNull).
Proof.
  intros Hc Hw Hs. unfold SyncService.processRecordsInParallel.
  apply preserves_seq; [by apply preserves_updateSyncStatus|]. intros _.
  apply preserves_seq; [apply preserves_keeps_db; frame|]. intros items.
  apply preserves_seq; [by apply preserves_processBatches|]. intros _.
  apply preserves_seq; [by apply preserves_processBatches|]. intros _.
  by apply preserves_updateSyncStatus.
Qed.

Lemma preserves_syncRecords fetched :
  kept_by_upserts E "records" false P ->
  kept_by_upserts E "records" true P ->
  kept_by_status_updates E P ->
  preserves P (SyncService.syncRecords E fetched).
Proof.
  intros Hc Hw Hs. unfold SyncService.syncRecords.
  apply preserves_try_catch.
  - by apply preserves_syncRecords_try.
  - intros e. apply preserves_seq; [by apply preserves_updateSyncStatus|].
    intros _. apply preserves_throw.
Qed.

Lemma preserves_transformAll wl items :
  preserves P (SyncService.transformAll E wl items).
Proof.
  apply preserves_keeps_db. induction items as [|item rest IH]; simpl; frame.
Qed.

Lemma preserves_upsertGames games :
  kept_by_any_upsert E "board_games" P ->
  preserves P (SyncService.upsertGames E games).
Proof.
  intros HP. induction games as [|game rest IH]; simpl; [apply preserves_ret|].
  apply preserves_seq; [apply preserves_keeps_db; frame|]. intros game'.
  apply preserves_seq; [|done].
  intros w Hw.
  pose proof (cached_upsert_db E "board_games" game'
                (VArr [VStr "external_id"]) w) as Hdb.
  destruct (Database.upsert E "board_games" game' _ (db w)) as [r d'] eqn:Hu.
  injection Hdb as _ ->. by eapply HP.
Qed.

(** The [try] block of [syncBoardGames]. *)
Lemma preserves_syncBoardGames_try fetched :
  kept_by_any_upsert E "board_games" P ->
  kept_by_status_updates E P ->
  preserves P
    (SyncService.updateSyncStatus E "boardgamegeek" true VUndefined ;;;
     items <- await fetched ;;
     collectionGames <- SyncService.transformAll E false (fst items) ;;
     wishlistGames <- SyncService.transformAll E true (snd items) ;;
     enrichedGames <-
       BoardGameGeekService.enrichGameData E
         (collectionGames ++ wishlistGames) ;;
     SyncService.upsertGames E enrichedGames ;;;
     SyncService.updateSyncStatus E "boardgamegeek" false VNull).
Proof.
  intros Hu Hs. unfold BoardGameGeekService.enrichGameData.
  apply preserves_seq; [by apply preserves_updateSyncStatus|]. intros _.
  apply preserves_seq; [apply preserves_keeps_db; frame|]. intros items.
  apply preserves_seq; [apply preserves_transformAll|]. intros cg.
  apply preserves_seq; [apply preserves_transformAll|]. intros wg.
  apply preserves_seq; [apply preserves_keeps_db; frame|]. intros games.
  apply preserves_seq; [by apply preserves_upsertGames|]. intros _.
  by apply preserves_updateSyncStatus.
Qed.

Lemma preserves_syncBoardGames fetched :
  kept_by_any_upsert E "board_games" P ->
  kept_by_status_updates E P ->
  preserves P (SyncService.syncBoardGames E fetched).
Proof.
  intros Hu Hs. unfold SyncService.syncBoardGames.
  apply preserves_try_catch.
  - by apply preserves_syncBoardGames_try.
  - intros e. apply preserves_seq; [by apply preserves_updateSyncStatus|].
    intros _. apply preserves_throw.
Qed.
End Passes.

(** ** What the store calls of a pass keep *)

Section Kept.
Context (E : Env).
Import Database.

Lemma table_exists_kept_upsert table t0 :
  kept_by_any_upsert E table (table_exists t0).
Proof. intros data cols d r d' Hu. by eapply upsert_table_exists. Qed.

Lemma table_exists_kept_status t0 :
  kept_by_status_updates E (table_exists t0).
Proof. intros data service d r d' _ Hu. by eapply update_table_exists. Qed.

Lemma on_wishlist_only_kept_upsert table id :
  kept_by_upserts E table true (on_wishlist_only table id).
Proof. intros data d r d' Hflag Hu. by eapply upsert_keeps_wishlist. Qed.

Lemma on_wishlist_only_kept_status table id :
  table <> "sync_status" ->
  kept_by_status_updates E (on_wishlist_only table id).
Proof.
  intros Hne data service d r d' _ Hu (rows & Hrows & Hrest).
  exists rows. split; [|done].
  rewrite <- Hrows. eapply update_other_table; [done|]. congruence.
Qed.

Lemma has_status_kept_upsert table service :
  table <> "sync_status" -> kept_by_any_upsert E table (has_status service).
Proof.
  intros Hne data cols d r d' Hu (rows & Hrows & Hrest).
  exists rows. split; [|done].
  rewrite <- Hrows. by eapply upsert_other_table.
Qed.

Lemma set_row_service data ts r :
  "service" ∉ JS.keys data ->
  lookup_prop "service" (set_row E data ts r) = lookup_prop "service" r.
Proof.
  intros Hk. unfold set_row. rewrite lookup_assign_prop_ne by done.
  by apply lookup_assign_notin.
Qed.

Lemma has_status_kept_status service :
  kept_by_status_updates E (has_status service).
Proof.
  intros data svc d r d' Hk Hu (rows & Hrows & Hex).
  apply update_cases in Hu
    as [(e & _ & Ht)|(rows0 & ts & v & Hr & _ & Ht)].
  - exists rows. by rewrite Ht.
  - rewrite Hrows in Hr. injection Hr as <-.
    eexists. rewrite Ht, lookup_insert_eq. split; [done|].
    unfold update_rows. cbn [snd]. apply Exists_map_if; [done|].
    intros r0 Hr0. unfold of_service in *. by rewrite set_row_service.
Qed.

(** The first row selected by a test, after rows have been rewritten in a
    way that the test does not see. *)
Lemma head_filter_map (p : row -> bool) (g : row -> row) rows :
  (forall r, p (g r) = p r) ->
  head (filter (fun r => p r) (map g rows))
  = g <$> head (filter (fun r => p r) rows).
Proof.
  intros Hg. induction rows as [|r rows IH]; [done|].
  simpl map. rewrite !filter_cons.
  destruct (decide (p (g r))) as [Hy|Hn]; destruct (decide (p r)) as [Hy'|Hn'].
  - done.
  - rewrite Hg in Hy. done.
  - rewrite Hg in Hn. done.
  - exact IH.
Qed.

Lemma head_filter_Exists (p : row -> bool) rows :
  Exists (fun r => p r = true) rows ->
  exists r, head (filter (fun r => p r) rows) = Some r /\ p r = true.
Proof.
  induction 1 as [r rows Hr|r rows Hex IH].
  - exists r. rewrite filter_cons_True by (by apply Is_true_true). done.
  - rewrite filter_cons. destruct (decide (p r)) as [Hy|Hn]; [|done].
    exists r. split; [done|]. by apply Is_true_true.
Qed.
End Kept.

(** ** The later list wins (claim C1) *)

Lemma try_catch_throw_Return {DB A} (m : M DB A) (h : string -> M DB A)
  (w : world DB) a w' :
  (forall e w0, exists e' w1, h e w0 = (Throw e', w1)) ->
  try_catch m h w = (Return a, w') -> m w = (Return a, w').
Proof.
  intros Hh. unfold try_catch. destruct (m w) as [[a0|e] w1]; [done|].
  destruct (Hh e w1) as (e' & w2 & ->). done.
Qed.

Lemma handler_throws E service (e : string) (w0 : world Database.t) :
  exists e' w1,
    (SyncService.updateSyncStatus E service false (VStr e) ;;;
     throw (A := unit) e) w0
    = (Throw e', w1).
Proof.
  unfold bind.
  destruct (SyncService.updateSyncStatus E service false (VStr e) w0)
    as [[[]|e'] w1]; by eexists _, _.
Qed.

Lemma on_wishlist_only_row table id d :
  Database.on_wishlist_only table id d ->
  exists row,
    Database.row_of table "external_id" (VStr id) d = Some row /\
    lookup_prop "in_collection" row = VBool false /\
    lookup_prop "in_wishlist" row = VBool true.
Proof.
  intros (rows & Hrows & Hex & Hall). unfold Database.row_of. rewrite Hrows.
  destruct (head_filter_Exists (Database.has_id id) rows Hex) as (r & Hr & Hid).
  exists r. split; [exact Hr|].
  assert (r ∈ rows) as Hin.
  { apply head_Some_elem_of in Hr. by apply list_elem_of_filter in Hr as [_ ?]. }
  rewrite Forall_forall in Hall. by apply Hall.
Qed.

Section WishlistWins.
Context (E : Env) (id : string) (item : value).
Import SyncService Database.

Section Records.
Hypothesis Hid : external_id Discogs item = VStr id.
Hypothesis Htransform :
  forall w0 : world Database.t, exists record w1,
    DiscogsService.transformToRecord E item true w0 = (Return record, w1).
Hypothesis Haccepts :
  forall n data,
    get_prop "external_id" data = VStr id ->
    dbms_error E n "records" data = None.

Lemma processRecord_makes w :
  table_exists "records" (db w) ->
  on_wishlist_only "records" id (db (snd (processRecord E true item w))).
Proof.
  intros Htable. unfold processRecord, try_catch, bind.
  destruct (Htransform w) as (record & w1 & Ht). rewrite Ht.
  pose proof (keeps_db_transformToRecord E item true w) as Hdb1.
  rewrite Ht in Hdb1. simpl in Hdb1.
  apply transformToRecord_Return in Ht as [Hflag Hrid].
  destruct (returns_downloadRecordImages E record w1) as [record' Hret].
  pose proof (keeps_db_downloadRecordImages E record w1) as Hdb2.
  destruct (DiscogsService.downloadRecordImages E record w1)
    as [r2 w2] eqn:Hd.
  simpl in Hret, Hdb2. subst r2.
  apply downloadRecordImages_same in Hd as Hsame.
  assert (flagged true record') as Hflag' by (by eapply flagged_same_item).
  assert (get_prop "external_id" record' = VStr id) as Hrid'
    by (destruct Hsame as [-> _]; congruence).
  pose proof (cached_upsert_db E "records" record'
                (VArr [VStr "external_id"]) w2) as Hcu.
  destruct (upsert_accepted E "records" record' (db w2) true Hflag')
    as (v & d' & Hu).
  { by rewrite Hdb2, Hdb1. }
  { by apply Haccepts. }
  rewrite Hu in Hcu.
  destruct (CachedDbService.upsert _ _ _ w2) as [r3 w3].
  simpl in Hcu. injection Hcu as Hr3 Hd3. subst r3. simpl. rewrite Hd3.
  by eapply (upsert_makes_wishlist E "records" id record').
Qed.

Lemma returns_processRecord wl x : returns (processRecord E wl x).
Proof. unfold processRecord. frame. Qed.

Lemma processBatch_wishlist items w :
  on_wishlist_only "records" id (db w) \/
  (table_exists "records" (db w) /\ item ∈ items) ->
  on_wishlist_only "records" id (db (snd (processBatch E true items w))).
Proof.
  revert w. induction items as [|x rest IH]; intros w Hpre.
  - destruct Hpre as [?|[_ Hin]]; [done | by apply elem_of_nil in Hin].
  - simpl. unfold bind at 1.
    assert (on_wishlist_only "records" id (db (snd (processRecord E true x w)))
            \/ (table_exists "records" (db (snd (processRecord E true x w)))
                /\ item ∈ rest)) as Hnext.
    { destruct Hpre as [HR|[HT Hin]].
      - left. by apply (preserves_processRecord E _ true x
                          (on_wishlist_only_kept_upsert E "records" id)).
      - apply elem_of_cons in Hin as [<-|Hin].
        + left. by apply processRecord_makes.
        + right. split; [|done].
          by apply (preserves_processRecord E _ true x
                      (kept_by_any_upsert_flagged E _ "records" true
                         (table_exists_kept_upsert E "records" "records"))). }
    destruct (returns_processRecord true x w) as [r Hr].
    destruct (processRecord E true x w) as [r0 w1]. simpl in Hr, Hnext.
    subst r0. specialize (IH w1 Hnext). unfold bind.
    by destruct (processBatch E true rest w1) as [[rs|e] w2].
Qed.

Lemma returns_processBatch wl items : returns (processBatch E wl items).
Proof.
  induction items as [|x rest IH]; simpl; [apply returns_ret|].
  apply returns_bind; [apply returns_processRecord|]. intros r.
  apply returns_bind; [done|]. intros rs. apply returns_ret.
Qed.

Hypothesis Hschedule : forall chunk, schedule E chunk ≡ₚ chunk.

Lemma processBatches_wishlist chunks w :
  on_wishlist_only "records" id (db w) \/
  (table_exists "records" (db w) /\ item ∈ concat chunks) ->
  on_wishlist_only "records" id (db (snd (processBatches E true chunks w))).
Proof.
  revert w. induction chunks as [|chunk rest IH]; intros w Hpre.
  - destruct Hpre as [?|[_ Hin]]; [done | by apply elem_of_nil in Hin].
  - simpl. unfold bind.
    assert (on_wishlist_only "records" id
              (db (snd (processBatch E true (schedule E chunk) w)))
            \/ (table_exists "records"
                  (db (snd (processBatch E true (schedule E chunk) w)))
                /\ item ∈ concat rest)) as Hnext.
    { destruct Hpre as [HR|[HT Hin]].
      - left. apply processBatch_wishlist. by left.
      - simpl in Hin. apply elem_of_app in Hin as [Hin|Hin].
        + left. apply processBatch_wishlist. right. split; [done|].
          by rewrite Hschedule.
        + right. split; [|done].
          by apply (preserves_processBatch E _ true _
                      (kept_by_any_upsert_flagged E _ "records" true
                         (table_exists_kept_upsert E "records" "records"))). }
    destruct (returns_processBatch true (schedule E chunk) w) as [rs Hrs].
    destruct (processBatch E true (schedule E chunk) w) as [r0 w1].
    simpl in Hrs, Hnext. subst r0. by apply IH.
Qed.

(** A pass over Discogs that completes leaves the id on the wishlist
    only. *)
Lemma syncRecords_wishlist collectionItems wishlistItems w w' :
  item ∈ wishlistItems ->
  table_exists "records" (db w) ->
  syncRecords E (Return (collectionItems, wishlistItems)) w
  = (Return tt, w') ->
  on_wishlist_only "records" id (db w').
Proof.
  intros Hin Htable Hpass. unfold syncRecords in Hpass.
  apply try_catch_throw_Return in Hpass; [|intros; apply handler_throws].
  apply bind_Return in Hpass as ([] & w1 & Hstart & Hpass).
  apply bind_Return in Hpass as (items & w1' & [= <- <-] & Hpass).
  cbn [fst snd] in Hpass.
  apply bind_Return in Hpass as ([] & w2 & Hcoll & Hpass).
  apply bind_Return in Hpass as ([] & w3 & Hwish & Hend).
  assert (table_exists "records" (db w1)) as HT1.
  { pose proof (preserves_updateSyncStatus E _ "discogs" true VUndefined
                  (table_exists_kept_status E "records") w Htable) as HT.
    by rewrite Hstart in HT. }
  assert (table_exists "records" (db w2)) as HT2.
  { pose proof (preserves_processBatches E _ false (chunkArray collectionItems 3)
                  (kept_by_any_upsert_flagged E _ "records" false
                     (table_exists_kept_upsert E "records" "records"))
                  w1 HT1) as HT.
    unfold processRecordsInParallel in Hcoll. by rewrite Hcoll in HT. }
  assert (on_wishlist_only "records" id (db w3)) as HR3.
  { pose proof (processBatches_wishlist (chunkArray wishlistItems 3) w2) as HR.
    unfold processRecordsInParallel in Hwish. rewrite Hwish in HR.
    apply HR. right. split; [done|]. rewrite concat_chunkArray by lia. done. }
  pose proof (preserves_updateSyncStatus E _ "discogs" false VNull
                (on_wishlist_only_kept_status E "records" id ltac:(done))
                w3 HR3) as HR.
  by rewrite Hend in HR.
Qed.
End Records.

Section BoardGames.
Hypothesis Hid : external_id BoardGameGeek item = VStr id.

Lemma transformAll_Return wl items w games w' :
  transformAll E wl items w = (Return games, w') ->
  Forall2 (fun x game =>
             flagged wl game /\
             get_prop "external_id" game = external_id BoardGameGeek x)
    items games.
Proof.
  revert w games w'. induction items as [|x rest IH]; simpl; intros w games w'.
  - intros [= <- _]. constructor.
  - intros Hrun.
    apply bind_Return in Hrun as (game & w1 & Hgame & Hrun).
    apply bind_Return in Hrun as (more & w2 & Hmore & [= <- _]).
    constructor; [by eapply transformToBoardGame_Return | by eapply IH].
Qed.

(** What enrichment hands to the upsert loop for a transformed wishlist. *)
Lemma enriched_wishlist items games enriched :
  item ∈ items ->
  Forall2 (fun x game =>
             flagged true game /\
             get_prop "external_id" game = external_id BoardGameGeek x)
    items games ->
  Forall2 same_item games enriched ->
  Forall (flagged true) enriched /\
  Exists (fun game => get_prop "external_id" game = VStr id) enriched.
Proof.
  intros Hin Hgames. revert enriched Hin.
  induction Hgames as [|x game items games [Hflag Hx] Hrest IH];
    intros enriched Hin Hsame.
  - by apply elem_of_nil in Hin.
  - inversion Hsame as [|? game' ? enriched' Hg Hmore]; subst.
    assert (Forall (flagged true) enriched') as Hall.
    { clear -Hrest Hmore. revert enriched' Hmore.
      induction Hrest as [|? ? ? ? [Hf _] _ IH]; intros ? Hmore;
        inversion Hmore; subst; constructor;
        [by eapply flagged_same_item | by apply IH]. }
    split; [constructor; [by eapply flagged_same_item | done]|].
    apply elem_of_cons in Hin as [<-|Hin].
    + apply Exists_cons_hd. destruct Hg as [-> _]. congruence.
    + apply Exists_cons_tl. by apply IH.
Qed.

Lemma upsertGames_app games more w w' :
  upsertGames E (games ++ more) w = (Return tt, w') ->
  exists w1,
    upsertGames E games w = (Return tt, w1) /\
    upsertGames E more w1 = (Return tt, w').
Proof.
  revert w. induction games as [|game rest IH]; simpl; intros w Hrun.
  - by exists w.
  - apply bind_Return in Hrun as (game' & w1 & Hgame & Hrun).
    apply bind_Return in Hrun as (v & w2 & Hup & Hrun).
    destruct (IH _ Hrun) as (w3 & Hrest & Hmore). exists w3.
    split; [|done]. unfold bind. by rewrite Hgame, Hup.
Qed.

Lemma upsertGames_wishlist games w w' :
  Forall (flagged true) games ->
  upsertGames E games w = (Return tt, w') ->
  on_wishlist_only "board_games" id (db w) \/
  Exists (fun game => get_prop "external_id" game = VStr id) games ->
  on_wishlist_only "board_games" id (db w').
Proof.
  intros Hall. revert w.
  induction Hall as [|game rest Hflag Hrest IH]; simpl; intros w Hrun Hpre.
  - injection Hrun as <-.
    destruct Hpre as [?|Hex]; [done | by apply Exists_nil in Hex].
  - apply bind_Return in Hrun as (game' & w1 & Hgame & Hrun).
    apply bind_Return in Hrun as (v & w2 & Hup & Hrun).
    pose proof (keeps_db_downloadBoardGameImages E game w) as Hdb1.
    rewrite Hgame in Hdb1. simpl in Hdb1.
    apply downloadBoardGameImages_same in Hgame as Hsame.
    pose proof (cached_upsert_db E "board_games" game'
                  (VArr [VStr "external_id"]) w1) as Hcu.
    rewrite Hup in Hcu. simpl in Hcu. symmetry in Hcu.
    assert (flagged true game') as Hflag' by (by eapply flagged_same_item).
    apply (IH w2 Hrun).
    destruct Hpre as [HR|Hex].
    + left. eapply upsert_keeps_wishlist; [exact Hflag'|exact Hcu|].
      by rewrite Hdb1.
    + apply Exists_cons in Hex as [Hhere|Hlater]; [left|by right].
      eapply (upsert_makes_wishlist E "board_games" id game');
        [done| |exact Hcu].
      destruct Hsame as [-> _]. done.
Qed.

(** A pass over BoardGameGeek that completes leaves the id on the wishlist
    only. *)
Lemma syncBoardGames_wishlist collectionItems wishlistItems w w' :
  item ∈ wishlistItems ->
  syncBoardGames E (Return (collectionItems, wishlistItems)) w
  = (Return tt, w') ->
  on_wishlist_only "board_games" id (db w').
Proof.
  intros Hin Hpass. unfold syncBoardGames in Hpass.
  apply try_catch_throw_Return in Hpass; [|intros; apply handler_throws].
  apply bind_Return in Hpass as ([] & w1 & Hstart & Hpass).
  apply bind_Return in Hpass as (items & w1' & [= <- <-] & Hpass).
  cbn [fst snd] in Hpass.
  apply bind_Return in Hpass as (cg & w2 & Hcg & Hpass).
  apply bind_Return in Hpass as (wg & w3 & Hwg & Hpass).
  apply bind_Return in Hpass as (enriched & w4 & Hen & Hpass).
  apply bind_Return in Hpass as ([] & w5 & Hup & Hend).
  apply transformAll_Return in Hwg.
  unfold BoardGameGeekService.enrichGameData in Hen.
  apply enrichBatches_same in Hen. rewrite concat_chunkArray in Hen by lia.
  apply Forall2_app_inv_l in Hen as (lc & lw & _ & Hlw & ->).
  apply upsertGames_app in Hup as (w4' & _ & Hup).
  destruct (enriched_wishlist _ _ _ Hin Hwg Hlw) as [Hall Hex].
  assert (on_wishlist_only "board_games" id (db w5)) as HR5
    by (eapply upsertGames_wishlist; eauto).
  pose proof (preserves_updateSyncStatus E _ "boardgamegeek" false VNull
                (on_wishlist_only_kept_status E "board_games" id ltac:(done))
                w5 HR5) as HR.
  by rewrite Hend in HR.
Qed.
End BoardGames.
End WishlistWins.

(** C1, as stated, fails: an item listed in the collection and in the
    wantlist alike goes through a pass of Discogs that completes, and the
    row stored for its id is flagged as a wishlist item only. The upsert of
    the wantlist, which is processed second, writes [in_collection = false]
    over the [true] that the upsert of the collection wrote. *)
Lemma later_list_clears_collection_flag :
  let item := Samples.a_release in
  let pass :=
    SyncService.syncPass Samples.env SyncService.Discogs
      (Return ([item], [item]))
      (CachedDbService.start Database.schema) in
  SyncService.external_id SyncService.Discogs item = VStr "249504" /\
  fst pass = Return tt /\
  exists row,
    Database.row_of "records" "external_id" (VStr "249504") (db (snd pass))
    = Some row /\
    lookup_prop "in_collection" row = VBool false /\
    lookup_prop "in_wishlist" row = VBool true.
Proof.
  intros item pass. split; [reflexivity|]. split; [vm_compute; reflexivity|].
  eexists. split; [vm_compute; reflexivity|]. split; reflexivity.
Qed.

(** C1 (amended). For every external id of an item in the wishlist list of
    a source, whether or not the id is in the collection list too: after a
    pass of that source that completes, in which the item transforms and the
    DBMS accepts the upserts of that id, the row persisted for the id has
    [in_collection = false] and [in_wishlist = true]. Both flags are written
    by every upsert, and the wishlist is processed after the collection, so
    the flag set for the collection list does not survive. *)
Theorem wishlist_pass_overwrites_collection_flag
  (E : Env) (src : SyncService.source)
  (collectionItems wishlistItems : list value) (item : value) (id : string)
  (w w' : world Database.t) :
  item ∈ wishlistItems ->
  SyncService.external_id src item = VStr id ->
  Database.table_exists (SyncService.table src) (db w) ->
  (forall w0 : world Database.t, exists data w1,
     SyncService.transform E src item true w0 = (Return data, w1)) ->
  (forall n data,
     get_prop "external_id" data = VStr id ->
     dbms_error E n (SyncService.table src) data = None) ->
  (forall chunk, schedule E chunk ≡ₚ chunk) ->
  SyncService.syncPass E src (Return (collectionItems, wishlistItems)) w
  = (Return tt, w') ->
  exists row,
    Database.row_of (SyncService.table src) "external_id" (VStr id) (db w')
    = Some row /\
    lookup_prop "in_collection" row = VBool false /\
    lookup_prop "in_wishlist" row = VBool true.
Proof.
  intros Hin Hid Htable Htransform Haccepts Hschedule Hpass.
  apply on_wishlist_only_row. destruct src; simpl in *.
  - by eapply syncRecords_wishlist.
  - by eapply syncBoardGames_wishlist.
Qed.

Lemma wishlist_pass_overwrites_collection_flag_witness :
  exists row,
    Database.row_of "records" "external_id" (VStr "249504")
      (db (snd (SyncService.syncPass Samples.env SyncService.Discogs
                  (Return ([Samples.a_release], [Samples.a_release]))
                  (CachedDbService.start Database.schema))))
    = Some row /\
    lookup_prop "in_collection" row = VBool false /\
    lookup_prop "in_wishlist" row = VBool true.
Proof.
  apply (wishlist_pass_overwrites_collection_flag Samples.env
           SyncService.Discogs [Samples.a_release] [Samples.a_release]
           Samples.a_release "249504"
           (CachedDbService.start Database.schema)).
  - apply list_elem_of_here.
  - reflexivity.
  - eexists. vm_compute. reflexivity.
  - intros w0. eexists _, _. reflexivity.
  - reflexivity.
  - reflexivity.
  - vm_compute. reflexivity.
Defined.

(** ** The end of a pass stamps the status row (claim C2) *)

Section StatusRow.
Context (E : Env).
Import SyncService Database.

Hypothesis Haccepts :
  forall n data,
    get_prop "sync_in_progress" data = VBool false ->
    dbms_error E n "sync_status" data = None.

Lemma matches_service service r :
  matches (props (VObj [("service", VStr service)])) r = of_service service r.
Proof. unfold matches, of_service. simpl. by rewrite andb_true_r. Qed.

Lemma row_of_service service d :
  row_of "sync_status" "service" (VStr service) d
  = match tables d !! "sync_status" with
    | Some rows => head (filter (fun r => of_service service r) rows)
    | None => None
    end.
Proof. reflexivity. Qed.

(** The update that ends a pass, with or without an error message: it
    returns, reads the clock once, and leaves the row of the service with
    the message, the flag lowered and the reading as [last_sync_at]. *)
Lemma updateSyncStatus_ends service errorMessage (w : world Database.t) :
  has_status service (db w) ->
  exists w',
    updateSyncStatus E service false errorMessage w = (Return tt, w') /\
    clock_reads w' = S (clock_reads w) /\
    exists row,
      row_of "sync_status" "service" (VStr service) (db w') = Some row /\
      lookup_prop "error_message" row
      = sql_value (default_to VNull errorMessage) /\
      lookup_prop "sync_in_progress" row = VBool false /\
      lookup_prop "last_sync_at" row = VNum (Date_now E (clock_reads w)).
Proof.
  intros (rows & Hrows & Hex). unfold updateSyncStatus. cbn [negb].
  set (now := Date_now E (clock_reads w)).
  set (data :=
         set_prop "last_sync_at" (VNum now)
           (VObj [("sync_in_progress", VBool false);
                  ("error_message", default_to VNull errorMessage)])).
  set (w1 := with_clock_reads (S (clock_reads w)) w).
  set (conditions := VObj [("service", VStr service)]).
  pose proof (cached_update_db E "sync_status" data conditions w1) as Hdb.
  pose proof (cached_update_clock E "sync_status" data conditions w1) as Hclock.
  assert (update E "sync_status" data conditions (db w1)
          = statement E "sync_status" data (update_rows E data conditions)
              (db w)) as Hupd by reflexivity.
  destruct (statement_accepted E "sync_status" data
              (update_rows E data conditions) (db w) rows
              (Haccepts _ data eq_refl) Hrows) as (d' & Hst & Ht).
  rewrite Hupd, Hst in Hdb.
  unfold bind, date_now, ret. fold now. fold w1. fold data.
  destruct (CachedDbService.update _ _ _ w1) as [r2 w2].
  simpl in Hdb, Hclock. injection Hdb as -> Hd2.
  exists w2. split; [done|]. split; [done|].
  rewrite row_of_service, Hd2, Ht, lookup_insert_eq.
  unfold update_rows. cbn [snd].
  set (ts := current_timestamp E (statements (db w))).
  set (g := fun r : row =>
              if matches (props conditions) r then set_row E data ts r else r).
  assert ("service" ∉ JS.keys data) as Hkeys by (simpl; set_solver).
  rewrite (head_filter_map (of_service service) g rows).
  2:{ intros r. unfold g. destruct (matches _ r); [|done].
      unfold of_service. by rewrite set_row_service. }
  destruct (head_filter_Exists (of_service service) rows Hex)
    as (r0 & -> & Hr0).
  exists (g r0). split; [done|]. unfold g, conditions.
  rewrite matches_service, Hr0. unfold set_row.
  rewrite !lookup_assign_prop_ne by done.
  rewrite !(lookup_assign_in (fun k => get_prop k data))
    by (simpl; set_solver).
  rewrite !stored_plain by reflexivity. done.
Qed.
End StatusRow.

(** C2, as stated, fails: the DBMS refuses the statement that starts a
    pass of Discogs (a connection that has gone away), the pass fails with
    the message of the DBMS, and the status row of the service, whose
    [last_sync_at] was [NULL], now holds the clock reading taken by the
    [catch] block, next to the message and the lowered flag.
    [updateSyncStatus] stamps [last_sync_at] whenever [inProgress] is
    false, on success and on failure alike. *)
Lemma refused_statement_fails_the_pass_and_stamps_lastSyncAt :
  let w := CachedDbService.start Database.schema in
  let pass :=
    SyncService.syncPass Samples.flaky SyncService.Discogs
      (Return ([], [])) w in
  (exists row,
     Database.row_of "sync_status" "service" (VStr "discogs") (db w)
     = Some row /\
     lookup_prop "last_sync_at" row = VNull) /\
  fst pass = Throw "Connection terminated unexpectedly" /\
  exists row,
    Database.row_of "sync_status" "service" (VStr "discogs") (db (snd pass))
    = Some row /\
    lookup_prop "error_message" row
    = VStr "Connection terminated unexpectedly" /\
    lookup_prop "sync_in_progress" row = VBool false /\
    lookup_prop "last_sync_at" row = VNum (Date_now Samples.flaky 0).
Proof.
  intros w pass. split; [|split].
  - eexists. split; [vm_compute; reflexivity | reflexivity].
  - vm_compute. reflexivity.
  - eexists. split; [vm_compute; reflexivity|]. repeat split; reflexivity.
Qed.

(** C2 (amended). When a pass of a source fails, with the status row of
    the source present and the DBMS accepting the status updates that end a
    pass: the row of that source holds the message of the failure as
    [error_message], [sync_in_progress = false], and as [last_sync_at] the
    clock reading taken while handling the failure, which is the last
    reading of the pass. [last_sync_at] is written at the end of every
    pass, failed or successful. *)
Theorem failed_pass_stamps_lastSyncAt
  (E : Env) (src : SyncService.source)
  (fetched : outcome (list value * list value)) (message : string)
  (w w' : world Database.t) :
  Database.has_status (SyncService.service src) (db w) ->
  (forall n data,
     get_prop "sync_in_progress" data = VBool false ->
     dbms_error E n "sync_status" data = None) ->
  SyncService.syncPass E src fetched w = (Throw message, w') ->
  exists row k,
    Database.row_of "sync_status" "service"
      (VStr (SyncService.service src)) (db w')
    = Some row /\
    lookup_prop "error_message" row = VStr message /\
    lookup_prop "sync_in_progress" row = VBool false /\
    lookup_prop "last_sync_at" row = VNum (Date_now E k) /\
    clock_reads w' = S k.
Proof.
  intros Hstatus Haccepts Hpass.
  assert (exists e w1,
             Database.has_status (SyncService.service src) (db w1) /\
             (SyncService.updateSyncStatus E (SyncService.service src) false
                (VStr e) ;;; throw (A := unit) e) w1
             = (Throw message, w')) as (e & w1 & Hstatus1 & Hhandler).
  { destruct src; simpl in *.
    - unfold SyncService.syncRecords in Hpass.
      apply try_catch_Throw in Hpass as (e & w1 & Hbody & Hh).
      exists e, w1. split; [|done].
      eapply preserves_run; [|exact Hstatus|exact Hbody].
      apply preserves_syncRecords_try;
        [apply kept_by_any_upsert_flagged| apply kept_by_any_upsert_flagged|];
        by (apply has_status_kept_upsert || apply has_status_kept_status).
    - unfold SyncService.syncBoardGames in Hpass.
      apply try_catch_Throw in Hpass as (e & w1 & Hbody & Hh).
      exists e, w1. split; [|done].
      eapply preserves_run; [|exact Hstatus|exact Hbody].
      apply preserves_syncBoardGames_try;
        by (apply has_status_kept_upsert || apply has_status_kept_status). }
  destruct (updateSyncStatus_ends E Haccepts (SyncService.service src)
              (VStr e) w1 Hstatus1)
    as (w2 & Hup & Hclock & row & Hrow & Herr & Hprog & Hlast).
  unfold bind in Hhandler. rewrite Hup in Hhandler.
  injection Hhandler as <- <-.
  by exists row, (clock_reads w1).
Qed.

Lemma failed_pass_stamps_lastSyncAt_witness :
  exists row k,
    Database.row_of "sync_status" "service" (VStr "boardgamegeek")
      (db (snd (SyncService.syncPass Samples.strict SyncService.BoardGameGeek
                  (Return ([Samples.a_nameless_game], []))
                  (CachedDbService.start Database.schema))))
    = Some row /\
    lookup_prop "error_message" row
    = VStr "null value in column name violates not-null constraint" /\
    lookup_prop "sync_in_progress" row = VBool false /\
    lookup_prop "last_sync_at" row = VNum (Date_now Samples.strict k) /\
    clock_reads
      (snd (SyncService.syncPass Samples.strict SyncService.BoardGameGeek
              (Return ([Samples.a_nameless_game], []))
              (CachedDbService.start Database.schema)))
    = S k.
Proof.
  apply (failed_pass_stamps_lastSyncAt Samples.strict
           SyncService.BoardGameGeek
           (Return ([Samples.a_nameless_game], []))
           "null value in column name violates not-null constraint"
           (CachedDbService.start Database.schema)).
  - eexists. split; [vm_compute; reflexivity|].
    apply Exists_cons_tl, Exists_cons_hd. reflexivity.
  - reflexivity.
  - vm_compute. reflexivity.
Defined.

(* ===================================================================== *)
(** * Part III: further properties of the services                        *)
(* ===================================================================== *)

(** ** The TTL cache, operation by operation *)

Section MapUpdates.
Context {V : Type}.
Implicit Types (m : JsMap.t V) (k : string) (v : V).

Lemma get_set_ne k k' v m :
  k' <> k -> JsMap.get k' (JsMap.set k v m) = JsMap.get k' m.
Proof.
  intros Hne. induction m as [|[k0 v0] r IH]; simpl.
  - by destruct (String.eqb_spec k' k).
  - destruct (String.eqb_spec k k0) as [->|Hk]; simpl.
    + by destruct (String.eqb_spec k' k0).
    + by rewrite IH.
Qed.

Lemma delete_absent k m : JsMap.get k m = None -> JsMap.delete k m = m.
Proof.
  induction m as [|[k0 v0] r IH]; simpl; [done|].
  destruct (String.eqb_spec k k0) as [->|Hk]; [done|].
  intros Hr. by rewrite IH.
Qed.

Lemma get_delete_eq k m :
  JsMap.wf m -> JsMap.get k (JsMap.delete k m) = None.
Proof.
  intros Hnd. apply get_None_keys. rewrite keys_delete.
  by apply key_delete_not_elem.
Qed.
End MapUpdates.

Lemma inv_wf_ttls c : CacheService.inv c -> JsMap.wf (CacheService.ttls c).
Proof. intros [Hk Hnd]. unfold JsMap.wf. by rewrite <- Hk. Qed.

(** X1. An entry is served until it expires: after [set(key, value, ttl)]
    at time [now], a [get(key)] at any time up to [now + ttl] returns the
    value and leaves the cache as it is, and [has(key)] answers [true]
    (the expiry time [0] apart, which [get] reads as no expiry time at
    all). *)
Theorem get_returns_what_set_stored
  (key : string) (v : value) (ttl now now' : Z) (c : CacheService.t) :
  now + ttl <> 0 ->
  now' <= now + ttl ->
  CacheService.get key now' (CacheService.set key v ttl now c)
  = (v, CacheService.set key v ttl now c) /\
  CacheService.has key now' (CacheService.set key v ttl now c)
  = (true, CacheService.set key v ttl now c).
Proof.
  intros Hnz Hfresh. unfold CacheService.get, CacheService.has.
  set (c1 := CacheService.set key v ttl now c).
  assert (JsMap.get key (CacheService.ttls c1) = Some (now + ttl)) as ->
    by apply get_set_eq.
  assert (JsMap.get key (CacheService.cache c1) = Some v) as Hv
    by apply get_set_eq.
  unfold JsMap.has. rewrite Hv. unfold CacheService.stale.
  destruct (Z.eqb_spec (now + ttl) 0); [done|].
  destruct (Z.ltb_spec (now + ttl) now'); [lia|]. done.
Qed.

Lemma get_returns_what_set_stored_witness :
  CacheService.get "findOne:records:{}" 600000
    (CacheService.set "findOne:records:{}" (VNum 7) 600000 0
       CacheService.new)
  = (VNum 7,
     CacheService.set "findOne:records:{}" (VNum 7) 600000 0
       CacheService.new).
Proof.
  apply (get_returns_what_set_stored "findOne:records:{}" (VNum 7) 600000 0
           600000 CacheService.new); lia.
Defined.

(** X2. [delete(key)] forgets the key and nothing else: in a cache reached
    by any sequence of uses, after [delete(key)] both [get(key)] and
    [has(key)] find nothing and change nothing, and every other key reads
    as before. *)
Theorem delete_forgets_the_key
  (l : list (Z * CacheService.op)) (key : string) (now : Z) :
  let c := CacheService.delete key (CacheService.run l) in
  CacheService.get key now c = (VNull, c) /\
  CacheService.has key now c = (false, c) /\
  forall key',
    key' <> key ->
    fst (CacheService.get key' now c)
    = fst (CacheService.get key' now (CacheService.run l)).
Proof.
  intros c. pose proof (inv_run l) as Hinv.
  assert (JsMap.get key (CacheService.ttls c) = None) as Ht
    by (apply get_delete_eq; by apply inv_wf_ttls).
  assert (JsMap.get key (CacheService.cache c) = None) as Hc
    by (apply get_delete_eq; apply Hinv).
  assert (CacheService.delete key c = c) as Hsame.
  { unfold CacheService.delete. rewrite !delete_absent by done.
    by destruct c. }
  unfold CacheService.get, CacheService.has. rewrite Ht. cbn [CacheService.stale].
  rewrite Hsame. split; [done|]. split; [done|].
  intros key' Hne. unfold c, CacheService.delete. cbn [CacheService.ttls
    CacheService.cache]. rewrite !get_delete_ne by done.
  by destruct (CacheService.stale _ _).
Qed.

(** Deleting, in one pass over a list, the keys picked by a test. *)
Section ConditionalDeletes.
Context {A : Type} (f : A -> string) (p : A -> bool).

Local Abbreviation sweep :=
  (fold_left
     (fun c' a => if p a then CacheService.delete (f a) c' else c')).

Lemma sweep_keeps l c k :
  (forall a, a ∈ l -> p a = true -> f a <> k) ->
  JsMap.get k (CacheService.cache (sweep l c))
  = JsMap.get k (CacheService.cache c) /\
  JsMap.get k (CacheService.ttls (sweep l c))
  = JsMap.get k (CacheService.ttls c).
Proof.
  revert c. induction l as [|a l IH]; intros c Hl; [done|].
  simpl.
  destruct (IH (if p a then CacheService.delete (f a) c else c)) as [-> ->].
  { intros b Hb. apply Hl. by apply list_elem_of_further. }
  destruct (p a) eqn:Hp; [|done]. simpl.
  assert (k <> f a) as Hne
    by (intros ->; eapply Hl; [apply list_elem_of_here | exact Hp | done]).
  by rewrite !get_delete_ne.
Qed.

Lemma sweep_absent l c k :
  JsMap.get k (CacheService.ttls c) = None ->
  JsMap.get k (CacheService.ttls (sweep l c)) = None.
Proof.
  revert c. induction l as [|a l IH]; intros c Hk; [done|].
  simpl. apply IH. destruct (p a); [|done].
  by apply get_delete_None.
Qed.

Lemma sweep_inv l c : CacheService.inv c -> CacheService.inv (sweep l c).
Proof. apply inv_fold_delete. Qed.

Lemma sweep_removes l c a :
  CacheService.inv c -> a ∈ l -> p a = true ->
  JsMap.get (f a) (CacheService.ttls (sweep l c)) = None /\
  JsMap.get (f a) (CacheService.cache (sweep l c)) = None.
Proof.
  intros Hc Hin Hp.
  assert (JsMap.get (f a) (CacheService.ttls (sweep l c)) = None) as Ht.
  { revert c Hc. induction l as [|b l IH]; intros c Hc;
      [by apply elem_of_nil in Hin|].
    simpl.
    apply elem_of_cons in Hin as [<-|Hin].
    - rewrite Hp. apply sweep_absent. simpl. apply get_delete_eq.
      by apply inv_wf_ttls.
    - apply IH; [done|]. destruct (p b); [by apply inv_delete | done]. }
  split; [done|]. by apply inv_get_None; [apply sweep_inv|].
Qed.

(** The keys that are left, in their order. *)
Lemma sweep_keys_from kept l c :
  JsMap.keys (CacheService.cache c) = kept ++ (f <$> l) ->
  NoDup (kept ++ (f <$> l)) ->
  JsMap.keys (CacheService.cache (sweep l c))
  = kept ++ (f <$> filter (fun a => negb (p a)) l).
Proof.
  revert kept c. induction l as [|a l IH]; intros kept c Hk Hnd; [done|].
  simpl. destruct (p a) eqn:Hp.
  - rewrite filter_cons_False by (rewrite Hp; simpl; tauto).
    apply IH.
    + simpl. rewrite keys_delete, Hk. rewrite fmap_cons.
      clear -Hnd. apply NoDup_app in Hnd as (_ & Hdis & _).
      induction kept as [|k0 kept IHk]; simpl.
      * by rewrite String.eqb_refl.
      * destruct (String.eqb_spec (f a) k0) as [<-|Hne].
        -- exfalso. eapply (Hdis (f a)); [apply list_elem_of_here|].
           rewrite fmap_cons. apply list_elem_of_here.
        -- f_equal. apply IHk. intros x Hx. apply Hdis.
           by apply list_elem_of_further.
    + rewrite fmap_cons in Hnd.
      apply NoDup_app in Hnd as (Hn1 & Hdis & Hn2).
      apply NoDup_cons in Hn2 as [_ Hn2].
      apply NoDup_app. split; [done|]. split; [|done].
      intros x Hx Hx'. eapply Hdis; [done|]. by apply list_elem_of_further.
  - rewrite filter_cons_True by (rewrite Hp; simpl; tauto).
    rewrite fmap_cons.
    replace (kept ++ f a :: (f <$> filter (fun a0 => negb (p a0)) l))
      with ((kept ++ [f a]) ++ (f <$> filter (fun a0 => negb (p a0)) l))
      by (by rewrite <- app_assoc).
    apply IH.
    + rewrite Hk, fmap_cons. by rewrite <- app_assoc.
    + rewrite fmap_cons in Hnd. by rewrite <- app_assoc.
Qed.
End ConditionalDeletes.

Lemma invalidatePattern_count pattern l n c :
  fst (fold_left
         (fun acc key =>
            if includes pattern key
            then (fst acc + 1, CacheService.delete key (snd acc))
            else acc) l (n, c))
  = n + Z.of_nat (length (filter (fun key => includes pattern key) l)).
Proof.
  revert n c. induction l as [|k l IH]; intros n c; simpl; [lia|].
  destruct (includes pattern k) eqn:Hk.
  - rewrite filter_cons_True by (rewrite Hk; simpl; tauto).
    rewrite IH. simpl. lia.
  - rewrite filter_cons_False by (rewrite Hk; simpl; tauto). apply IH.
Qed.

(** X3. [invalidatePattern(pattern)] removes the keys that contain the
    pattern and no other: in a cache reached by any sequence of uses it
    returns the number of keys containing the pattern, leaves the other
    keys in their order, and leaves their values and expiry times as they
    were. *)
Theorem invalidatePattern_removes_matching_keys_only
  (l : list (Z * CacheService.op)) (pattern : string) :
  let c := CacheService.run l in
  let r := CacheService.invalidatePattern pattern c in
  fst r
  = Z.of_nat
      (length (filter (fun key => includes pattern key)
                 (JsMap.keys (CacheService.cache c)))) /\
  JsMap.keys (CacheService.cache (snd r))
  = filter (fun key => negb (includes pattern key))
      (JsMap.keys (CacheService.cache c)) /\
  JsMap.keys (CacheService.ttls (snd r))
  = JsMap.keys (CacheService.cache (snd r)) /\
  forall key,
    includes pattern key = false ->
    JsMap.get key (CacheService.cache (snd r))
    = JsMap.get key (CacheService.cache c) /\
    JsMap.get key (CacheService.ttls (snd r))
    = JsMap.get key (CacheService.ttls c).
Proof.
  intros c r. pose proof (inv_run l) as Hinv. fold c in Hinv.
  unfold r, CacheService.invalidatePattern.
  split; [by rewrite invalidatePattern_count|].
  rewrite invalidatePattern_fold.
  split; [|split].
  - pose proof (sweep_keys_from (fun k => k) (includes pattern) []
                  (JsMap.keys (CacheService.cache c)) c) as Hk.
    rewrite !list_fmap_id in Hk. apply Hk; [done | apply Hinv].
  - symmetry.
    apply (inv_fold_delete (fun k => k) (includes pattern)), Hinv.
  - intros key Hkey.
    apply (sweep_keeps (fun k => k) (includes pattern)).
    intros a _ Ha ->. congruence.
Qed.

(** X4. [cleanup()] removes the expired entries and no other: in a cache
    reached by any sequence of uses, an entry whose expiry time lies before
    the time of the sweep is gone from both maps, and an entry that has not
    expired is left with its value and its expiry time. *)
Theorem cleanup_removes_expired_entries_only
  (l : list (Z * CacheService.op)) (now : Z) (key : string) (expiryTime : Z) :
  let c := CacheService.run l in
  JsMap.get key (CacheService.ttls c) = Some expiryTime ->
  (expiryTime < now ->
   JsMap.get key (CacheService.ttls (CacheService.cleanup now c)) = None /\
   JsMap.get key (CacheService.cache (CacheService.cleanup now c)) = None) /\
  (now <= expiryTime ->
   JsMap.get key (CacheService.ttls (CacheService.cleanup now c))
   = Some expiryTime /\
   JsMap.get key (CacheService.cache (CacheService.cleanup now c))
   = JsMap.get key (CacheService.cache c)).
Proof.
  intros c Hkey. pose proof (inv_run l) as Hinv. fold c in Hinv.
  pose proof (inv_wf_ttls c Hinv) as Hnd.
  unfold CacheService.cleanup. split.
  - intros Hold.
    apply (sweep_removes fst (fun e => snd e <? now) (CacheService.ttls c) c
             (key, expiryTime)); [done | by apply get_Some_elem |].
    simpl. by apply Z.ltb_lt.
  - intros Hfresh.
    destruct (sweep_keeps fst (fun e => snd e <? now) (CacheService.ttls c) c
                key) as [Hc Ht].
    { intros [k e] Hin Hp Hk. simpl in *. subst k.
      apply (elem_get_Some _ _ _ Hnd) in Hin.
      apply Z.ltb_lt in Hp. rewrite Hkey in Hin. injection Hin as ->. lia. }
    by rewrite Ht, Hc.
Qed.

Lemma cleanup_removes_expired_entries_only_witness :
  JsMap.get "k1"
    (CacheService.ttls
       (CacheService.cleanup 61000
          (CacheService.run
             [(0, CacheService.OpSet "k0" (VNum 0) 60000);
              (1000, CacheService.OpSet "k1" (VNum 1) 60000)])))
  = Some 61000.
Proof.
  apply (cleanup_removes_expired_entries_only
           [(0, CacheService.OpSet "k0" (VNum 0) 60000);
            (1000, CacheService.OpSet "k1" (VNum 1) 60000)]
           61000 "k1" 61000); [reflexivity | lia].
Defined.

Lemma ceil_tenth_within (n : Z) :
  0 <= n <= CacheService.maxCacheSize -> 0 <= ceil_tenth n <= n.
Proof.
  intros Hn.
  assert (forallb
            (fun i : nat =>
               (0 <=? ceil_tenth (Z.of_nat i))
               && (ceil_tenth (Z.of_nat i) <=? Z.of_nat i))
            (seq 0 1001) = true) as Hall by (vm_compute; reflexivity).
  rewrite forallb_forall in Hall.
  assert (In (Z.to_nat n) (seq 0 1001)) as Hin
    by (apply in_seq; unfold CacheService.maxCacheSize in Hn; lia).
  apply Hall in Hin. cbv beta in Hin. rewrite Z2Nat.id in Hin by lia.
  apply andb_true_iff in Hin as [H1 H2]. lia.
Qed.

(** X5. [evictOldest()] removes the entries that expire soonest: in a cache
    reached by any sequence of uses it removes [Math.ceil(size * 0.1)]
    entries, and every entry it removes expires no later than every entry
    it keeps. *)
Theorem evictOldest_removes_the_soonest_to_expire
  (l : list (Z * CacheService.op)) :
  let c := CacheService.run l in
  let c' := CacheService.evictOldest c in
  CacheService.size c'
  = CacheService.size c - ceil_tenth (CacheService.size c) /\
  forall key expiryTime key' expiryTime',
    JsMap.get key (CacheService.ttls c) = Some expiryTime ->
    JsMap.get key (CacheService.ttls c') = None ->
    JsMap.get key' (CacheService.ttls c') = Some expiryTime' ->
    expiryTime <= expiryTime'.
Proof.
  intros c c'. pose proof (inv_run l) as Hinv. fold c in Hinv.
  pose proof (size_run_bound l) as Hsize. fold c in Hsize.
  assert (0 <= CacheService.size c) as Hpos
    by (unfold CacheService.size, JsMap.size; lia).
  pose proof (ceil_tenth_within (CacheService.size c) ltac:(lia)) as Hn.
  split.
  - unfold c', CacheService.evictOldest. fold (CacheService.size c).
    rewrite (evict_size c _ Hinv).
    + rewrite Z2Nat.id; lia.
    + assert (CacheService.size c
              = Z.of_nat (length (CacheService.ttls c))) as Hlen.
      { destruct Hinv as [Hk _]. rewrite size_length, Hk.
        unfold JsMap.keys. by rewrite length_map. }
      lia.
  - intros key e key' e'. unfold c', CacheService.evictOldest.
    apply (evict_soonest c _ Hinv).
Qed.

(** X6. [has] and [get] agree: in a cache reached by any sequence of uses,
    when [has(key)] answers [true] the key holds a value, which [get(key)]
    at that time returns without changing the cache; when it answers
    [false], [get(key)] returns [null]; and both leave the same cache
    behind. *)
Theorem has_agrees_with_get
  (l : list (Z * CacheService.op)) (key : string) (now : Z) :
  let c := CacheService.run l in
  (fst (CacheService.has key now c) = true ->
   exists v,
     JsMap.get key (CacheService.cache c) = Some v /\
     CacheService.get key now c = (v, c)) /\
  (fst (CacheService.has key now c) = false ->
   fst (CacheService.get key now c) = VNull) /\
  snd (CacheService.has key now c) = snd (CacheService.get key now c).
Proof.
  intros c. pose proof (inv_run l) as Hinv. fold c in Hinv.
  unfold CacheService.has, CacheService.get, JsMap.has.
  destruct (CacheService.stale _ now) eqn:Hs; simpl.
  - split; [done|]. done.
  - destruct (JsMap.get key (CacheService.cache c)) as [v|] eqn:Hv; simpl.
    + split; [intros _; by exists v|]. done.
    + apply (inv_get_None c key Hinv) in Hv. rewrite Hv in Hs. done.
Qed.

(** ** The cache-aside store: hits, failures and what a write leaves *)

Section CacheAsideHits.
Context (E : Env) {DB : Type} `{Store DB}.

Lemma cache_get_fresh key (w : world DB) e v :
  JsMap.get key (CacheService.ttls (cacheService w)) = Some e ->
  JsMap.get key (CacheService.cache (cacheService w)) = Some v ->
  e <> 0 -> Date_now E (clock_reads w) <= e ->
  cache_get E key w
  = (Return v,
     with_cache (cacheService w) (with_clock_reads (S (clock_reads w)) w)).
Proof.
  intros He Hv Hnz Hfresh. unfold cache_get, has_expiry. rewrite He.
  destruct (Z.eqb_spec e 0) as [|_]; [done|]. cbn [negb].
  unfold CacheService.get. rewrite He, Hv. unfold CacheService.stale.
  destruct (Z.eqb_spec e 0) as [|_]; [done|].
  destruct (Z.ltb_spec e (Date_now E (clock_reads w))); [lia|]. done.
Qed.

(** What a [cache_get] that finds something leaves behind. *)
Lemma cache_get_found key (w w' : world DB) v :
  CacheService.inv (cacheService w) ->
  cache_get E key w = (Return v, w') ->
  not_null v = true ->
  cacheService w' = cacheService w /\ db w' = db w /\ calls w' = calls w /\
  JsMap.get key (CacheService.cache (cacheService w)) = Some v /\
  exists e, JsMap.get key (CacheService.ttls (cacheService w)) = Some e.
Proof.
  intros Hinv Hget Hv. unfold cache_get in Hget.
  assert (forall now c',
             CacheService.get key now (cacheService w) = (v, c') ->
             c' = cacheService w /\
             JsMap.get key (CacheService.cache (cacheService w)) = Some v /\
             exists e,
               JsMap.get key (CacheService.ttls (cacheService w)) = Some e)
    as Hfound.
  { intros now c'. unfold CacheService.get.
    destruct (CacheService.stale _ now) eqn:Hs.
    { intros [= <- _]. done. }
    intros [= Hval <-]. split; [done|].
    destruct (JsMap.get key (CacheService.ttls (cacheService w)))
      as [e|] eqn:He; [|done].
    destruct (JsMap.get key (CacheService.cache (cacheService w)))
      as [v0|] eqn:Hc.
    - subst v0. split; [done|]. by exists e.
    - apply (inv_get_None _ _ Hinv) in Hc. congruence. }
  destruct (has_expiry key (cacheService w)).
  - destruct (CacheService.get key _ (cacheService w)) as [v0 c'] eqn:Hg.
    injection Hget as -> <-. destruct (Hfound _ _ Hg) as (-> & ? & ?).
    by destruct w.
  - destruct (CacheService.get key 0 (cacheService w)) as [v0 c'] eqn:Hg.
    injection Hget as -> <-. destruct (Hfound _ _ Hg) as (-> & ? & ?).
    by destruct w.
Qed.

Lemma read_leaves_entry table (o : CachedDbService.read_op)
  (w w1 : world DB) result :
  CacheService.inv (cacheService w) ->
  CachedDbService.read E table o w = (Return result, w1) ->
  not_null result = true ->
  JsMap.get (CachedDbService.read_key table o)
    (CacheService.cache (cacheService w1)) = Some result /\
  exists e,
    JsMap.get (CachedDbService.read_key table o)
      (CacheService.ttls (cacheService w1)) = Some e.
Proof.
  intros Hinv Hread Hnn.
  destruct o as [conditions orderBy|conditions|conditions];
    unfold CachedDbService.read, CachedDbService.findMany,
      CachedDbService.findOne, CachedDbService.count in Hread;
    cbv zeta in Hread; unfold CachedDbService.read_key;
    apply bind_Return in Hread as (cached & w' & Hget & Hrest);
    (destruct (not_null cached) eqn:Hc;
     [ injection Hrest as <- <-;
       destruct (cache_get_found _ _ _ _ Hinv Hget Hc)
         as (-> & _ & _ & Hv & He); done
     | apply bind_Return in Hrest as (r & w2 & _ & Hrest);
       apply bind_Return in Hrest as ([] & w3 & Hset & [= <- <-]);
       unfold cache_set in Hset; injection Hset as <-; simpl;
       split; [apply get_set_eq | eexists; apply get_set_eq] ]).
Qed.

Lemma read_hit table (o : CachedDbService.read_op) (w : world DB) v e :
  JsMap.get (CachedDbService.read_key table o)
    (CacheService.cache (cacheService w)) = Some v ->
  JsMap.get (CachedDbService.read_key table o)
    (CacheService.ttls (cacheService w)) = Some e ->
  not_null v = true ->
  e <> 0 -> Date_now E (clock_reads w) <= e ->
  CachedDbService.read E table o w
  = (Return v,
     with_cache (cacheService w) (with_clock_reads (S (clock_reads w)) w)).
Proof.
  intros Hv He Hnn Hnz Hfresh.
  pose proof (cache_get_fresh _ w e v He Hv Hnz Hfresh) as Hget.
  destruct o as [conditions orderBy|conditions|conditions];
    unfold CachedDbService.read, CachedDbService.findMany,
      CachedDbService.findOne, CachedDbService.count, bind;
    cbv zeta; unfold CachedDbService.read_key in Hget;
    rewrite Hget, Hnn; reflexivity.
Qed.
End CacheAsideHits.

(** X7. A repeated read is served from the cache: after any session of
    reads and writes, when a read ([findMany], [findOne] or [count]) has
    returned a result other than [null], the cache holds an entry under its
    key, and as long as the clock has not passed the expiry time of that
    entry the same read returns the same result without a call on the
    store. *)
Theorem repeated_read_is_served_from_cache
  (E : Env) {DB : Type} `{Store DB}
  (l : list CachedDbService.request) (d : DB)
  (table : string) (o : CachedDbService.read_op)
  (result : value) (w1 : world DB) :
  CachedDbService.read E table o (CachedDbService.session E l d)
  = (Return result, w1) ->
  not_null result = true ->
  exists expiryTime,
    JsMap.get (CachedDbService.read_key table o)
      (CacheService.ttls (cacheService w1)) = Some expiryTime /\
    (expiryTime <> 0 ->
     Date_now E (clock_reads w1) <= expiryTime ->
     exists w2,
       CachedDbService.read E table o w1 = (Return result, w2) /\
       calls w2 = calls w1 /\ db w2 = db w1 /\
       cacheService w2 = cacheService w1).
Proof.
  intros Hread Hnn. pose proof (inv_session E l d) as Hinv.
  destruct (read_leaves_entry E table o _ w1 result Hinv Hread Hnn)
    as (Hv & e & He).
  exists e. split; [done|]. intros Hnz Hfresh.
  eexists. split; [by apply (read_hit E table o w1 result e)|]. done.
Qed.

Lemma repeated_read_is_served_from_cache_witness :
  calls
    (snd (CachedDbService.read (H := Database_Store Samples.env) Samples.env
            "records"
            (CachedDbService.FindMany Samples.in_collection
               (VStr "sort_artist"))
            (CachedDbService.session (H := Database_Store Samples.env)
               Samples.env Samples.page Database.schema)))
  = calls
      (CachedDbService.session (H := Database_Store Samples.env)
         Samples.env Samples.page Database.schema).
Proof.
  destruct (repeated_read_is_served_from_cache
              (H := Database_Store Samples.env) Samples.env
              [] Database.schema "records"
              (CachedDbService.FindMany Samples.in_collection
                 (VStr "sort_artist"))
              (VArr [])
              (CachedDbService.session (H := Database_Store Samples.env)
                 Samples.env Samples.page Database.schema)
              ltac:(vm_compute; reflexivity) ltac:(reflexivity))
    as (e & He & Hhit).
  assert (e = 600000) as -> by (vm_compute in He; congruence).
  destruct (Hhit ltac:(lia) ltac:(vm_compute; discriminate))
    as (w2 & -> & Hcalls & _).
  exact Hcalls.
Defined.

(** The keys of the cache never grow but by the key that is set. *)
Lemma keys_cache_delete_subseteq key c :
  JsMap.keys (CacheService.cache (CacheService.delete key c))
  ⊆ JsMap.keys (CacheService.cache c).
Proof. simpl. rewrite keys_delete. apply key_delete_subseteq. Qed.

Lemma keys_cache_sweep_subseteq {A} (f : A -> string) (p : A -> bool) l c :
  JsMap.keys
    (CacheService.cache
       (fold_left
          (fun c' a => if p a then CacheService.delete (f a) c' else c') l c))
  ⊆ JsMap.keys (CacheService.cache c).
Proof.
  revert c. induction l as [|a l IH]; intros c; simpl; [done|].
  etransitivity; [apply IH|].
  destruct (p a); [apply keys_cache_delete_subseteq | done].
Qed.

Lemma keys_cache_get_subseteq key now c :
  JsMap.keys (CacheService.cache (snd (CacheService.get key now c)))
  ⊆ JsMap.keys (CacheService.cache c).
Proof.
  unfold CacheService.get. destruct (CacheService.stale _ _); simpl; [|done].
  rewrite keys_delete. apply key_delete_subseteq.
Qed.

Lemma keys_cache_set_subseteq key v ttl now c :
  JsMap.keys (CacheService.cache (CacheService.set key v ttl now c))
  ⊆ key :: JsMap.keys (CacheService.cache c).
Proof.
  unfold CacheService.set. simpl. rewrite keys_set.
  etransitivity; [apply key_set_subseteq|].
  apply list_subseteq_skip.
  destruct (_ <=? _); [|done]. unfold CacheService.evictOldest.
  apply (keys_cache_sweep_subseteq fst (fun _ => true)).
Qed.

Lemma keys_cache_invalidatePattern_subseteq pattern c :
  JsMap.keys
    (CacheService.cache (snd (CacheService.invalidatePattern pattern c)))
  ⊆ JsMap.keys (CacheService.cache c).
Proof.
  unfold CacheService.invalidatePattern. rewrite invalidatePattern_fold.
  apply (keys_cache_sweep_subseteq (fun k => k)).
Qed.

Section OverDb.
Context (E : Env).

Local Abbreviation on_db := (Database_Store E).
Local Abbreviation finds_only w :=
  (forall key,
      key ∈ JsMap.keys (CacheService.cache (cacheService w)) ->
      String.prefix "find" key = true).

Lemma cache_get_keys key (w w' : world Database.t) r :
  cache_get E key w = (r, w') ->
  JsMap.keys (CacheService.cache (cacheService w'))
  ⊆ JsMap.keys (CacheService.cache (cacheService w)).
Proof.
  destruct (cache_get_cases E key w)
    as (now & w0 & Hget & Hc & _).
  rewrite Hget. intros [= _ <-]. rewrite Hc. apply keys_cache_get_subseteq.
Qed.

Lemma cache_set_keys key v ttl (w w' : world Database.t) r :
  cache_set E key v ttl w = (r, w') ->
  JsMap.keys (CacheService.cache (cacheService w'))
  ⊆ key :: JsMap.keys (CacheService.cache (cacheService w)).
Proof.
  unfold cache_set. intros [= _ <-]. cbn [cacheService with_cache
    with_clock_reads]. apply keys_cache_set_subseteq.
Qed.

Lemma read_finds_only table (o : CachedDbService.read_op)
  (w : world Database.t) :
  finds_only w ->
  finds_only (snd (CachedDbService.read (H := on_db) E table o w)).
Proof.
  intros Hw key.
  destruct o as [conditions orderBy|conditions|conditions];
    unfold CachedDbService.read, CachedDbService.findMany,
      CachedDbService.findOne, CachedDbService.count, bind; cbv zeta;
    match goal with
    | |- context [cache_get E ?k w] =>
        destruct (cache_get E k w) as [[cached|e] w'] eqn:Hget;
        apply cache_get_keys in Hget
    end;
    try (simpl; intros Hin; apply Hw; by apply Hget);
    (destruct (not_null cached);
     [simpl; intros Hin; apply Hw; by apply Hget|]);
    unfold call_db; cbn [db with_calls db_findMany db_findOne db_count
                           Database_Store];
    try (unfold Database.not_a_function; simpl; intros Hin; apply Hw;
         by apply Hget);
    match goal with
    | |- context [Database.findMany E ?t ?a ?b ?d] =>
        destruct (Database.findMany E t a b d) as [[r|e] d']
    | |- context [Database.findOne E ?t ?a ?d] =>
        destruct (Database.findOne E t a d) as [[r|e] d']
    end;
    try (simpl; intros Hin; apply Hw; by apply Hget);
    match goal with
    | |- context [cache_set E ?k ?r ?t ?w0] =>
        destruct (cache_set E k r t w0) as [[[]|e] w3] eqn:Hset;
        apply cache_set_keys in Hset
    end;
    cbn [snd]; intros Hin; apply Hset in Hin; cbn [cacheService with_db
      with_calls] in Hin;
    (apply elem_of_cons in Hin as [->|Hin];
     [unfold CacheService.generateKey; cbn [map typeof_object to_string];
      rewrite join3; reflexivity
     | apply Hw; by apply Hget]).
Qed.

Lemma write_finds_only table (o : CachedDbService.write_op)
  (w : world Database.t) :
  finds_only w ->
  finds_only (snd (CachedDbService.write (H := on_db) table o w)).
Proof.
  intros Hw key.
  destruct (CachedDbService.write (H := on_db) table o w)
    as [[r|e] w1] eqn:Hwrite.
  - apply write_returns in Hwrite. simpl. rewrite Hwrite. intros Hin.
    apply Hw. by apply keys_cache_invalidatePattern_subseteq in Hin.
  - revert Hwrite.
    destruct o; unfold CachedDbService.write, CachedDbService.create,
      CachedDbService.update, CachedDbService.upsert, CachedDbService.delete,
      CachedDbService.batchUpsert, bind, call_db; cbn [db with_calls];
      match goal with
      | |- context [?f table ?a (db w)] =>
          destruct (f table a (db w)) as [[r|e'] d']
      | |- context [?f table ?a ?b (db w)] =>
          destruct (f table a b (db w)) as [[r|e'] d']
      end;
      try rewrite invalidateTable_spec; try done;
      intros [= _ <-]; simpl; apply Hw.
Qed.

Lemma session_finds_only (l : list CachedDbService.request)
  (d : Database.t) :
  finds_only (CachedDbService.session (H := on_db) E l d).
Proof.
  unfold CachedDbService.session.
  assert (forall w : world Database.t,
             finds_only w ->
             finds_only
               (fold_left
                  (fun w r => snd (CachedDbService.perform (H := on_db) E r w))
                  l w)) as Hgen.
  { induction l as [|r l IH]; intros w Hw; [done|]. simpl. apply IH.
    destruct r; [by apply read_finds_only | by apply write_finds_only]. }
  apply Hgen. intros key Hin. by apply elem_of_nil in Hin.
Qed.
End OverDb.

(** X8. [db] has no [count], [create] or [batchUpsert]: after any session
    of reads and writes over [db], [cachedDb.count] raises
    [db.count is not a function] (the cache holds nothing under a [count]
    key), and so do [cachedDb.create] and [cachedDb.batchUpsert], each
    without invalidating anything in the cache. *)
Theorem count_create_batchUpsert_always_raise
  (E : Env) (l : list CachedDbService.request) (d : Database.t)
  (table : string) (conditions data conflictColumns : value) :
  let w := CachedDbService.session (H := Database_Store E) E l d in
  fst (CachedDbService.count (H := Database_Store E) E table conditions w)
  = Throw "db.count is not a function" /\
  (exists w',
      CachedDbService.create (H := Database_Store E) table data w
      = (Throw "db.create is not a function", w') /\
      cacheService w' = cacheService w) /\
  (exists w',
      CachedDbService.batchUpsert (H := Database_Store E) table data
        conflictColumns w
      = (Throw "db.batchUpsert is not a function", w') /\
      cacheService w' = cacheService w).
Proof.
  intros w. split; [|split; by eexists].
  pose proof (inv_session E (H := Database_Store E) l d) as Hinv.
  pose proof (session_finds_only E l d) as Hkeys. fold w in Hinv, Hkeys.
  pose proof (read_asks_store E (H := Database_Store E) table
                (CachedDbService.Count conditions) w Hinv) as [Hr _].
  { left. apply get_None_keys. intros Hin. apply Hkeys in Hin.
    revert Hin. unfold CachedDbService.read_key, CacheService.generateKey.
    cbn [map typeof_object to_string]. rewrite join3. done. }
  exact Hr.
Qed.

(** X9. A write whose store call fails invalidates nothing: the failure
    is raised to the caller with the message of the store, the call is on
    record, and the cache is as it was. *)
Theorem failed_write_leaves_the_cache
  (E : Env) {DB : Type} `{Store DB}
  (table : string) (o : CachedDbService.write_op) (w : world DB)
  (message : string) (d' : DB) :
  CachedDbService.db_write table o (db w) = (Throw message, d') ->
  exists w',
    CachedDbService.write table o w = (Throw message, w') /\
    cacheService w' = cacheService w /\
    db w' = d' /\
    calls w' = CachedDbService.write_call table o :: calls w.
Proof.
  destruct o; unfold CachedDbService.db_write, CachedDbService.write,
    CachedDbService.create, CachedDbService.update, CachedDbService.upsert,
    CachedDbService.delete, CachedDbService.batchUpsert, bind, call_db;
    cbn [db with_calls]; intros ->; by eexists.
Qed.

Lemma failed_write_leaves_the_cache_witness :
  exists w',
    CachedDbService.write (H := Database_Store Samples.env) "records"
      (CachedDbService.Create Samples.a_record)
      (CachedDbService.session (H := Database_Store Samples.env)
         Samples.env Samples.page Database.schema)
    = (Throw "db.create is not a function", w') /\
    cacheService w'
    = cacheService
        (CachedDbService.session (H := Database_Store Samples.env)
           Samples.env Samples.page Database.schema) /\
    db w'
    = db (CachedDbService.session (H := Database_Store Samples.env)
            Samples.env Samples.page Database.schema) /\
    calls w'
    = CallCreate "records" Samples.a_record
      :: calls (CachedDbService.session (H := Database_Store Samples.env)
                  Samples.env Samples.page Database.schema).
Proof.
  apply (failed_write_leaves_the_cache (H := Database_Store Samples.env)
           Samples.env "records" (CachedDbService.Create Samples.a_record)).
  reflexivity.
Defined.

(** X10. A write invalidates by key text only: a write to [table] that
    returns leaves every entry whose key does not contain [:table:] in the
    cache, with its value and its expiry time. *)
Theorem write_keeps_the_other_entries
  (E : Env) {DB : Type} `{Store DB}
  (table : string) (o : CachedDbService.write_op) (w w1 : world DB)
  (result : value) (key : string) :
  CachedDbService.write table o w = (Return result, w1) ->
  includes (":" +:+ table +:+ ":") key = false ->
  JsMap.get key (CacheService.cache (cacheService w1))
  = JsMap.get key (CacheService.cache (cacheService w)) /\
  JsMap.get key (CacheService.ttls (cacheService w1))
  = JsMap.get key (CacheService.ttls (cacheService w)).
Proof.
  intros Hwrite Hkey. apply write_returns in Hwrite. rewrite Hwrite.
  unfold CacheService.invalidatePattern. rewrite invalidatePattern_fold.
  apply (sweep_keeps (fun k => k) (includes (":" +:+ table +:+ ":"))).
  intros a _ Ha ->. congruence.
Qed.

Lemma write_keeps_the_other_entries_witness :
  JsMap.get "findMany:board_games:{}:null"
    (CacheService.cache
       (cacheService
          (snd (CachedDbService.write (H := Database_Store Samples.env)
                  "records" Samples.store_a_record
                  (CachedDbService.session (H := Database_Store Samples.env)
                     Samples.env
                     [CachedDbService.Read "board_games"
                        (CachedDbService.FindMany VUndefined VUndefined)]
                     Database.schema)))))
  = Some (VArr []).
Proof.
  destruct (write_keeps_the_other_entries (H := Database_Store Samples.env)
              Samples.env "records" Samples.store_a_record
              (CachedDbService.session (H := Database_Store Samples.env)
                 Samples.env
                 [CachedDbService.Read "board_games"
                    (CachedDbService.FindMany VUndefined VUndefined)]
                 Database.schema)
              (snd (CachedDbService.write (H := Database_Store Samples.env)
                      "records" Samples.store_a_record
                      (CachedDbService.session
                         (H := Database_Store Samples.env) Samples.env
                         [CachedDbService.Read "board_games"
                            (CachedDbService.FindMany VUndefined VUndefined)]
                         Database.schema)))
              (VObj (Database.assign Samples.env (Database.props Samples.a_record)
                       (Database.defaults "records" 1000)))
              "findMany:board_games:{}:null"
              ltac:(vm_compute; reflexivity) ltac:(vm_compute; reflexivity))
    as [-> _].
  vm_compute. reflexivity.
Defined.

Section ByConditions.
Context (E : Env) {DB : Type} `{Store DB}.

Lemma invalidateTableConditions_spec table conditions (w : world DB) :
  CachedDbService.invalidateTableConditions table conditions w
  = (Return tt,
     with_cache
       (snd (CacheService.invalidatePattern
               (CacheService.generateKey
                  [VStr EmptyString; VStr table;
                   default_to (VObj []) conditions])
               (cacheService w))) w).
Proof.
  unfold CachedDbService.invalidateTableConditions, bind,
    cache_invalidatePattern, ret.
  by destruct (CacheService.invalidatePattern _ _).
Qed.

(** The key of a read of [table] under [conditions] contains the pattern
    that [invalidateTableConditions] removes. *)
Lemma read_key_includes_conditions table conditions orderBy
  (r : CachedDbService.read_op) :
  r ∈ [CachedDbService.FindMany conditions orderBy;
       CachedDbService.FindOne conditions;
       CachedDbService.Count conditions] ->
  includes
    (CacheService.generateKey
       [VStr EmptyString; VStr table; default_to (VObj []) conditions])
    (CachedDbService.read_key table r) = true.
Proof.
  intros Hr. unfold CacheService.generateKey.
  set (J := if typeof_object (default_to (VObj []) conditions)
            then stringify (default_to (VObj []) conditions)
            else to_string (default_to (VObj []) conditions)).
  assert (forall op T,
             includes
               (join ":" [EmptyString; table; J])
               (op +:+ ":" +:+ table +:+ ":" +:+ J +:+ T) = true) as Hinc.
  { intros op T. rewrite join3. cbn [join].
    change (EmptyString +:+ ":" +:+ table +:+ ":" +:+ J)
      with (":" +:+ table +:+ ":" +:+ J).
    replace (op +:+ ":" +:+ table +:+ ":" +:+ J +:+ T)
      with (op +:+ (":" +:+ table +:+ ":" +:+ J) +:+ T)
      by (by rewrite !app_assoc_s).
    apply includes_app. }
  cbn [map typeof_object to_string]. fold J.
  repeat (apply elem_of_cons in Hr as [->|Hr]);
    [| | |by apply elem_of_nil in Hr];
    unfold CachedDbService.read_key, CacheService.generateKey;
    cbn [map typeof_object to_string]; fold J.
  - rewrite join3. cbn [join]. apply Hinc.
  - rewrite join3. cbn [join]. rewrite <- (app_empty_r_s J) at 2. apply Hinc.
  - rewrite join3. cbn [join]. rewrite <- (app_empty_r_s J) at 2. apply Hinc.
Qed.
End ByConditions.

(** X11. [invalidateTableConditions(table, conditions)] reaches the reads
    of those conditions: after any session of reads and writes, once it has
    run, a [findMany] (under any order), [findOne] or [count] of [table]
    with the same conditions asks the store and returns the store's answer;
    the store itself is not called by the invalidation. *)
Theorem invalidateTableConditions_reaches_the_reads
  (E : Env) {DB : Type} `{Store DB}
  (l : list CachedDbService.request) (d : DB)
  (table : string) (conditions orderBy : value)
  (r : CachedDbService.read_op) :
  let w := CachedDbService.session E l d in
  let w1 :=
    snd (CachedDbService.invalidateTableConditions table conditions w) in
  r ∈ [CachedDbService.FindMany conditions orderBy;
       CachedDbService.FindOne conditions;
       CachedDbService.Count conditions] ->
  db w1 = db w /\ calls w1 = calls w /\
  fst (CachedDbService.read E table r w1)
  = fst (CachedDbService.db_read table r (db w1)) /\
  calls (snd (CachedDbService.read E table r w1))
  = CachedDbService.read_call table r :: calls w1.
Proof.
  intros w w1 Hr. pose proof (inv_session E l d) as Hinv. fold w in Hinv.
  unfold w1. rewrite invalidateTableConditions_spec. cbn [snd].
  split; [done|]. split; [done|].
  apply read_asks_store.
  - cbn [cacheService with_cache]. by apply inv_invalidatePattern.
  - left. cbn [cacheService with_cache].
    apply invalidatePattern_removes; [done|].
    by eapply read_key_includes_conditions.
Qed.

Lemma invalidateTableConditions_reaches_the_reads_witness :
  calls
    (snd (CachedDbService.read (H := Database_Store Samples.env) Samples.env
            "records"
            (CachedDbService.FindMany Samples.in_collection
               (VStr "sort_artist"))
            (snd (CachedDbService.invalidateTableConditions "records"
                    Samples.in_collection
                    (CachedDbService.session
                       (H := Database_Store Samples.env) Samples.env
                       Samples.page Database.schema)))))
  = [CallFindMany "records" Samples.in_collection (VStr "sort_artist");
     CallFindMany "records" Samples.in_collection (VStr "sort_artist")].
Proof.
  destruct (invalidateTableConditions_reaches_the_reads
              (H := Database_Store Samples.env) Samples.env Samples.page
              Database.schema "records" Samples.in_collection
              (VStr "sort_artist")
              (CachedDbService.FindMany Samples.in_collection
                 (VStr "sort_artist"))
              ltac:(apply list_elem_of_here))
    as (_ & _ & _ & ->).
  vm_compute. reflexivity.
Defined.

(** ** The image cache: what a download leaves behind *)

Section Downloads.
Context (E : Env) {DB : Type}.



End Downloads.


(** ** The transformers and fetchers of the two sources *)

Lemma toLowerCase_app (a b : string) :
  toLowerCase (a +:+ b) = toLowerCase a +:+ toLowerCase b.
Proof.
  induction a as [|c a IH]; [done|].
  rewrite app_cons_s. cbn [toLowerCase]. by rewrite IH, app_cons_s.
Qed.

Lemma substring_from_app (a b : string) :
  substring_from (String.length a) (a +:+ b) = b.
Proof.
  induction a as [|c a IH]; [by destruct b|].
  rewrite app_cons_s. simpl. exact IH.
Qed.

Lemma toLowerCase_length (a : string) :
  String.length (toLowerCase a) = String.length a.
Proof. induction a as [|c a IH]; [done|]. simpl. by rewrite IH. Qed.

(** X14. An artist whose name begins with the article [The] followed by a
    space, in any case, is sorted under the rest of the name:
    [getSortArtist] returns the rest followed by [, The], while
    [getMainArtist] returns the name as it is. *)
Theorem getSortArtist_moves_the_article
  {DB : Type} (w : world DB) (article rest : string)
  (artist : value) (others : list value) :
  toLowerCase article = "the " ->
  get_prop "name" artist = VStr (article +:+ rest) ->
  DiscogsService.getSortArtist (VArr (artist :: others)) w
  = (Return (VStr (rest +:+ ", The")), w) /\
  DiscogsService.getMainArtist (VArr (artist :: others)) w
  = (Return (VStr (article +:+ rest)), w).
Proof.
  intros Hthe Hname.
  assert (String.length article = 4%nat) as Hlen
    by (rewrite <- (toLowerCase_length article), Hthe; reflexivity).
  assert (DiscogsService.member "name" artist w
          = (Return (VStr (article +:+ rest)), w)) as Hmember.
  { unfold DiscogsService.member. destruct artist; try done;
      by rewrite Hname. }
  unfold DiscogsService.getSortArtist, DiscogsService.getMainArtist.
  cbn [missing_or_empty truthy negb orb first]. unfold bind.
  rewrite Hmember. split; [|done].
  rewrite toLowerCase_app, Hthe. unfold startsWith.
  rewrite prefix_app. rewrite <- Hlen, substring_from_app. done.
Qed.

Lemma getSortArtist_moves_the_article_witness :
  DiscogsService.getSortArtist
    (VArr [VObj [("name", VStr "The Rolling Stones"); ("id", VNum 20991)]])
    (CachedDbService.start Database.schema)
  = (Return (VStr "Rolling Stones, The"),
     CachedDbService.start Database.schema).
Proof.
  apply (getSortArtist_moves_the_article
           (CachedDbService.start Database.schema) "The " "Rolling Stones"
           (VObj [("name", VStr "The Rolling Stones"); ("id", VNum 20991)])
           []); reflexivity.
Defined.

Section KeptFields.
Context (E : Env) {DB : Type}.

(** Two objects read the same under every name outside a list. *)
Local Abbreviation agree_outside ks a b :=
  (forall k : string, k ∉ ks -> get_prop k b = get_prop k a).

Lemma set_prop_agree (ks : list string) k v a :
  k ∈ ks -> agree_outside ks a (set_prop k v a).
Proof.
  intros Hk k0 Hk0. apply get_set_prop_ne. intros ->. by apply Hk0.
Qed.

Lemma agree_trans (ks : list string) a b c :
  agree_outside ks a b -> agree_outside ks b c -> agree_outside ks a c.
Proof. intros Hab Hbc k Hk. by rewrite Hbc, Hab. Qed.

Local Abbreviation image_fields :=
  ["discogs_image_local_path"; "itunes_image_local_path";
   "cover_image_local_path"].

Local Abbreviation image_and_year_fields :=
  ["discogs_image_local_path"; "itunes_image_local_path";
   "cover_image_local_path"; "year_of_original_release"].

Lemma discogsImage_keeps record (w : world DB) record' w' :
  DiscogsService.discogsImage E record w = (Return record', w') ->
  agree_outside image_fields record record'.
Proof.
  unfold DiscogsService.discogsImage, bind.
  destruct (truthy _); [|by intros [= <- _]].
  destruct (ImageService.downloadRecordImage _ _ _ _ _ _) as [[p|?] w1];
    [|done].
  destruct (truthy p); intros [= <- _]; [|done].
  eapply agree_trans; apply set_prop_agree; set_solver.
Qed.

(** The year that iTunes gives is taken only if it does not come after
    the year of the pressing. *)
Lemma validateReleaseYear_bound (year : value) (p y : Z) :
  p <> 0 -> y <> 0 ->
  ITunesService.validateReleaseYear year (VNum p) = VNum y ->
  y <= p.
Proof.
  intros Hp Hy0. unfold ITunesService.validateReleaseYear.
  destruct (truthy year) eqn:Hy; cbn [negb orb truthy].
  - destruct (Z.eqb_spec p 0) as [|_]; [done|]. cbn [negb].
    destruct year; try done. unfold ITunesService.gt.
    destruct (Z.ltb_spec p n); [done|]. intros [= ->]. lia.
  - intros ->. simpl in Hy. apply negb_false_iff, Z.eqb_eq in Hy. lia.
Qed.

Lemma itunesImage_keeps record (w : world DB) record' w' :
  DiscogsService.itunesImage E record w = (Return record', w') ->
  agree_outside image_and_year_fields record record' /\
  (get_prop "year_of_original_release" record'
   = get_prop "year_of_original_release" record \/
   get_prop "year_of_original_release" record'
   = ITunesService.validateReleaseYear
       (snd (itunes_searchAlbum E (get_prop "title" record)
               (get_prop "artist" record)))
       (get_prop "year_of_release" record) /\
   truthy (get_prop "year_of_original_release" record') = true).
Proof.
  unfold DiscogsService.itunesImage, bind.
  destruct (itunes_searchAlbum E _ _) as [url year]. cbn [fst snd].
  assert (forall r0 w0,
             agree_outside image_fields record r0 ->
             (if truthy year then
                if truthy (ITunesService.validateReleaseYear year
                             (get_prop "year_of_release" r0))
                then ret (set_prop "year_of_original_release"
                            (ITunesService.validateReleaseYear year
                               (get_prop "year_of_release" r0)) r0)
                else ret r0
              else ret r0) w0 = (Return record', w') ->
             agree_outside image_and_year_fields record record' /\
             (get_prop "year_of_original_release" record'
              = get_prop "year_of_original_release" record \/
              get_prop "year_of_original_release" record'
              = ITunesService.validateReleaseYear year
                  (get_prop "year_of_release" record) /\
              truthy (get_prop "year_of_original_release" record') = true))
    as Hyear.
  { intros r0 w0 Hr0.
    assert (agree_outside image_and_year_fields record r0) as Hr0'
      by (intros k Hk; apply Hr0; set_solver).
    destruct (truthy year).
    2:{ intros [= <- _]. split; [done|]. left. apply Hr0. set_solver. }
    destruct (truthy _) eqn:Hvalid.
    2:{ intros [= <- _]. split; [done|]. left. apply Hr0. set_solver. }
    intros [= <- _]. split.
    - eapply agree_trans; [exact Hr0'|]. apply set_prop_agree. set_solver.
    - destruct r0 as [| | | | | |ps];
        try (left; apply Hr0; set_solver).
      right. cbn [set_prop get_prop]. rewrite lookup_assign_prop_eq.
      split; [|exact Hvalid].
      f_equal. apply (Hr0 "year_of_release"). set_solver. }
  destruct (truthy url).
  - destruct (ImageService.downloadRecordImage _ _ _ _ _ _) as [[p|?] w1];
      [|done].
    destruct (truthy p); cbn [fst snd]; apply Hyear; [|done].
    eapply agree_trans; apply set_prop_agree; set_solver.
  - apply Hyear. done.
Qed.

(** X15. Given a record object, [downloadRecordImages] never raises and
    touches four fields only: the record it returns reads as the record it
    was given under every name but the three local image paths and
    [year_of_original_release]; and when the year of the pressing is a
    number other than 0 that the original release year did not exceed, the
    original release year it returns, if a number, does not exceed it
    either. *)
Theorem downloadRecordImages_touches_four_fields
  (fields : list (string * value)) (w : world DB) :
  let record := VObj fields in
  exists record' w',
    DiscogsService.downloadRecordImages E record w = (Return record', w') /\
    (forall k,
        k ∉ ["discogs_image_local_path"; "itunes_image_local_path";
             "cover_image_local_path"; "year_of_original_release"] ->
        get_prop k record' = get_prop k record) /\
    (forall p a y,
        get_prop "year_of_release" record = VNum p -> p <> 0 ->
        get_prop "year_of_original_release" record = VNum a -> a <= p ->
        get_prop "year_of_original_release" record' = VNum y ->
        y <= p).
Proof.
  intros record. clearbody record.
  destruct (returns_downloadRecordImages E record w) as [record' Hret].
  destruct (DiscogsService.downloadRecordImages E record w)
    as [r w'] eqn:Hrun.
  simpl in Hret. subst r. exists record', w'. split; [done|].
  revert Hrun. unfold DiscogsService.downloadRecordImages.
  destruct (negb _).
  { intros [= <- _]. split; [done|]. intros p a y _ _ Ha Hle Hy.
    rewrite Ha in Hy. injection Hy as <-. done. }
  unfold try_catch at 1, bind.
  destruct (DiscogsService.discogsImage E record w) as [[r1|?] w1] eqn:H1.
  2:{ intros [= <- _]. split; [done|]. intros p a y _ _ Ha Hle Hy.
      rewrite Ha in Hy. injection Hy as <-. done. }
  pose proof (discogsImage_keeps _ _ _ _ H1) as Hk1. clear H1.
  rename Hk1 into H1. unfold try_catch.
  destruct (DiscogsService.itunesImage E r1 w1) as [[r2|?] w2] eqn:H2;
    intros [= <- _].
  - destruct (itunesImage_keeps _ _ _ _ H2) as [Hk Hy2]. split.
    + eapply agree_trans; [|exact Hk]. intros k Hk'. apply H1. set_solver.
    + intros p a y Hp Hp0 Ha Hle Hy.
      rewrite <- (H1 "year_of_release") in Hp by set_solver.
      rewrite <- (H1 "year_of_original_release") in Ha by set_solver.
      destruct Hy2 as [Hsame|[Hval Htr]].
      * rewrite Hsame, Ha in Hy. injection Hy as <-. done.
      * rewrite Hy in Hval, Htr. rewrite Hp in Hval. symmetry in Hval.
        apply validateReleaseYear_bound in Hval; [done | done |].
        simpl in Htr. intros ->. done.
  - split; [intros k Hk'; apply H1; set_solver|].
    intros p a y _ _ Ha Hle Hy.
    rewrite (H1 "year_of_original_release") in Hy by set_solver.
    rewrite Ha in Hy. injection Hy as <-. done.
Qed.
End KeptFields.

Section Enrichment.
Context (E : Env) {DB : Type}.

Local Abbreviation agree_outside ks a b :=
  (forall k : string, k ∉ ks -> get_prop k b = get_prop k a).

Local Abbreviation detail_fields := ["description"; "mechanics"; "categories"].

Lemma enrich_keeps details game :
  agree_outside detail_fields game (BoardGameGeekService.enrich details game).
Proof.
  unfold BoardGameGeekService.enrich. destruct (find _ _); [|done].
  intros k Hk. rewrite !get_set_prop_ne; [done|..]; intros ->; set_solver.
Qed.

Lemma Forall2_agree_refl (ks : list string) (l : list value) :
  Forall2 (fun a b => agree_outside ks a b) l l.
Proof. induction l; constructor; done. Qed.

Lemma enrichBatch_keeps batch (w : world DB) l w' :
  BoardGameGeekService.enrichBatch E batch w = (Return l, w') ->
  Forall2 (fun a b => agree_outside detail_fields a b) batch l /\
  ((forall ids e, bgg_getGameDetails E ids <> Return e) -> l = batch).
Proof.
  unfold BoardGameGeekService.enrichBatch.
  destruct (filter _ _) as [|id ids];
    [intros [= <- _]; split; [apply Forall2_agree_refl | done]|].
  unfold try_catch, bind.
  destruct (bgg_getGameDetails E _) as [resp|?] eqn:Hresp; simpl;
    [|intros [= <- _]; split; [apply Forall2_agree_refl | done]].
  destruct (BoardGameGeekService.parseGameDetails resp w) as [[details|?] w1];
    intros [= <- _]; [|split; [apply Forall2_agree_refl | done]].
  split; [|intros Hfail; by apply Hfail in Hresp].
  clear. induction batch; constructor; [apply enrich_keeps | done].
Qed.

Lemma enrichBatches_keeps batches (w : world DB) l w' :
  BoardGameGeekService.enrichBatches E batches w = (Return l, w') ->
  Forall2 (fun a b => agree_outside detail_fields a b) (concat batches) l /\
  ((forall ids e, bgg_getGameDetails E ids <> Return e) ->
   l = concat batches).
Proof.
  revert w l w'. induction batches as [|b r IH]; simpl; intros w l w'.
  - intros [= <- _]. split; [constructor | done].
  - unfold bind.
    destruct (BoardGameGeekService.enrichBatch E b w) as [[l1|?] w1] eqn:H1;
      [|done].
    destruct (BoardGameGeekService.enrichBatches E r w1) as [[l2|?] w2] eqn:H2;
      [|done].
    intros [= <- _].
    apply enrichBatch_keeps in H1 as [Hk1 Hf1].
    apply IH in H2 as [Hk2 Hf2]. split; [by apply Forall2_app|].
    intros Hfail. by rewrite Hf1, Hf2.
Qed.

(** X16. Given game objects, [enrichGameData] never raises and changes
    three fields at most: it returns as many games as it was given, in the
    same order, each reading as before under every name but [description],
    [mechanics] and [categories]; and when every request for details fails
    it returns the games as they were given. *)
Theorem enrichGameData_touches_three_fields
  (rows : list (list (string * value))) (w : world DB) :
  let games := map VObj rows in
  exists enriched w',
    BoardGameGeekService.enrichGameData E games w = (Return enriched, w') /\
    Forall2
      (fun game game' =>
         forall k,
           k ∉ ["description"; "mechanics"; "categories"] ->
           get_prop k game' = get_prop k game)
      games enriched /\
    ((forall ids e, bgg_getGameDetails E ids <> Return e) ->
     enriched = games).
Proof.
  intros games. clearbody games.
  unfold BoardGameGeekService.enrichGameData.
  destruct (returns_enrichBatches E (DB := DB) (chunkArray games 20) w)
    as [enriched Hret].
  destruct (BoardGameGeekService.enrichBatches E (chunkArray games 20) w)
    as [r w'] eqn:Hrun.
  simpl in Hret. subst r. exists enriched, w'. split; [done|].
  apply enrichBatches_keeps in Hrun as [Hk Hf].
  rewrite concat_chunkArray in Hk, Hf by lia. done.
Qed.
End Enrichment.

Section Fetchers.
Context {DB : Type}.

Lemma member_pure k x (w : world DB) :
  exists r, DiscogsService.member k x w = (r, w).
Proof. unfold DiscogsService.member. destruct x; by eexists. Qed.

Lemma fetchPage_pure field getPage lt page (w : world DB) :
  exists r, DiscogsService.fetchPage field getPage lt page w = (r, w).
Proof.
  unfold DiscogsService.fetchPage, bind, await.
  destruct (getPage page) as [response|e]; [|by eexists].
  destruct (member_pure field response w) as [[items|e] ->]; [|by eexists].
  destruct (truthy items && DiscogsService.nonempty items); [|by eexists].
  unfold DiscogsService.spread. destruct items; by eexists.
Qed.

Lemma fetchPages_pure fuel field getPage lt page acc (w : world DB) :
  exists r,
    DiscogsService.fetchPages fuel field getPage lt page acc w
    = (Return r, w).
Proof.
  revert page acc. induction fuel as [|fuel IH]; intros page acc;
    [by eexists|].
  simpl. unfold bind at 1, try_catch, bind.
  destruct (fetchPage_pure field getPage lt page w) as [r ->].
  destruct r as [[pushed more]|e]; cbn [ret]; [|by eexists].
  destruct more; [apply IH | by eexists].
Qed.

Lemma fetchPages_stops fuel field getPage lt page acc (w : world DB)
  (k : nat) message :
  (k < fuel)%nat ->
  getPage (page + Z.of_nat k) = Throw message ->
  exists items,
    DiscogsService.fetchPages fuel field getPage lt page acc w
    = (Return (Some items), w).
Proof.
  revert page acc k. induction fuel as [|fuel IH]; intros page acc k Hk Hfail;
    [lia|].
  simpl. unfold bind at 1, try_catch, bind.
  destruct k as [|k].
  - rewrite Z.add_0_r in Hfail.
    unfold DiscogsService.fetchPage, bind, await. rewrite Hfail.
    cbn [ret]. by eexists.
  - destruct (fetchPage_pure field getPage lt page w) as [r ->].
    destruct r as [[pushed more]|e]; cbn [ret]; [|by eexists].
    destruct more; [|by eexists].
    apply (IH _ _ k); [lia|].
    replace (page + 1 + Z.of_nat k) with (page + Z.of_nat (S k)) by lia.
    done.
Qed.

(** X17. The Discogs fetchers never reject: whatever the API answers,
    page after page, no failure leaves the loop of [getAllCollectionItems]
    or [getAllWantlistItems] and nothing is changed; within any number of
    turns the fetcher has returned a list or is still asking for pages, and
    it has returned a list as soon as a request within those turns
    fails. *)
Theorem discogs_fetchers_never_reject
  (fuel : nat) (getUserCollection getUserWantlist : Z -> outcome value)
  (lt : Z -> value -> bool) (w : world DB) :
  (exists r,
      DiscogsService.getAllCollectionItems fuel getUserCollection lt w
      = (Return r, w)) /\
  (exists r,
      DiscogsService.getAllWantlistItems fuel getUserWantlist lt w
      = (Return r, w)) /\
  (forall (n : nat) message,
      (n < fuel)%nat ->
      getUserCollection (Z.of_nat (S n)) = Throw message ->
      exists items,
        DiscogsService.getAllCollectionItems fuel getUserCollection lt w
        = (Return (Some items), w)) /\
  (forall (n : nat) message,
      (n < fuel)%nat ->
      getUserWantlist (Z.of_nat (S n)) = Throw message ->
      exists items,
        DiscogsService.getAllWantlistItems fuel getUserWantlist lt w
        = (Return (Some items), w)).
Proof.
  split; [apply fetchPages_pure|]. split; [apply fetchPages_pure|].
  split; intros n message Hn Hfail;
    replace (Z.of_nat (S n)) with (1 + Z.of_nat n) in Hfail by lia;
    by eapply fetchPages_stops.
Qed.

Section Paging.
Context (field : string) (getPage : Z -> outcome value)
  (lt : Z -> value -> bool) (fetched : list (list value)) (total : Z)
  (w : world DB).

Hypothesis Hpages :
  forall (i : nat) items,
    fetched !! i = Some items ->
    items <> [] /\
    exists response,
      getPage (Z.of_nat (S i)) = Return response /\
      get_prop field response = VArr items /\
      get_prop "pages" (get_prop "pagination" response) = VNum total.

Hypothesis Hend :
  (fetched <> [] /\ Z.of_nat (length fetched) = total) \/
  (Z.of_nat (length fetched) < total /\
   exists message,
     getPage (Z.of_nat (S (length fetched))) = Throw message).

Lemma fetchPage_good (i : nat) items :
  fetched !! i = Some items ->
  DiscogsService.fetchPage field getPage lt (Z.of_nat (S i)) w
  = (Return (items, Z.of_nat (S i) <? total), w).
Proof.
  intros Hi. destruct (Hpages i items Hi)
    as (Hne & response & Hget & Hitems & Htotal).
  unfold DiscogsService.fetchPage, bind, await. rewrite Hget.
  assert (DiscogsService.member field response w
          = (Return (VArr items), w)) as ->.
  { unfold DiscogsService.member. destruct response; try done;
      by rewrite Hitems. }
  destruct items as [|x items]; [done|].
  cbn [truthy DiscogsService.nonempty andb DiscogsService.spread ret].
  assert (truthy (get_prop "pagination" response) = true) as ->
    by (destruct (get_prop "pagination" response); done).
  by rewrite Htotal.
Qed.

Lemma fetchPages_from (seen rest : list (list value)) acc fuel :
  fetched = seen ++ rest ->
  (length rest < fuel)%nat ->
  (rest = [] -> Z.of_nat (length fetched) < total) ->
  DiscogsService.fetchPages fuel field getPage lt
    (Z.of_nat (S (length seen))) acc w
  = (Return (Some (acc ++ concat rest)), w).
Proof.
  revert seen acc fuel. induction rest as [|items rest IH];
    intros seen acc fuel Hf Hfuel Hempty.
  - destruct Hend as [[_ Hc]|[_ [message Hfail]]];
      [specialize (Hempty eq_refl); lia|].
    rewrite Hf, app_nil_r in Hfail.
    destruct fuel as [|fuel]; [simpl in Hfuel; lia|].
    simpl. unfold bind at 1, try_catch, bind.
    unfold DiscogsService.fetchPage, bind, await. rewrite Hfail.
    cbn [ret]. by rewrite app_nil_r.
  - destruct fuel as [|fuel]; [simpl in Hfuel; lia|].
    assert (fetched !! length seen = Some items) as Hi
      by (rewrite Hf; apply list_lookup_middle; done).
    cbn [DiscogsService.fetchPages]. unfold bind at 1, try_catch, bind.
    rewrite (fetchPage_good _ _ Hi). cbn [ret].
    assert (length fetched = (length seen + S (length rest))%nat) as Hlen
      by (rewrite Hf, length_app; done).
    destruct (Z.ltb_spec (Z.of_nat (S (length seen))) total) as [Hmore|Hlast].
    + replace (Z.of_nat (S (length seen)) + 1)
        with (Z.of_nat (S (length (seen ++ [items]))))
        by (rewrite length_app; simpl; lia).
      rewrite (IH (seen ++ [items]) (acc ++ items) fuel).
      * simpl. by rewrite <- app_assoc.
      * by rewrite <- app_assoc.
      * simpl in Hfuel. lia.
      * intros ->. destruct Hend as [[_ Hc]|[Ht _]]; [|done].
        simpl in Hlen. lia.
    + assert (rest = []) as ->.
      { destruct rest; [done|]. simpl in Hlen.
        destruct Hend as [[_ Hc]|[Ht _]]; lia. }
      simpl. by rewrite app_nil_r.
Qed.
End Paging.

(** X18. A Discogs fetch returns the pages it got. When the pages listed
    are answered, each with a non-empty array of items and the same page
    count, and either they are all the pages or the request for the next
    page fails, the loop returns the items of the pages listed, in order:
    a page that fails cuts the list short without a failure. *)
Theorem discogs_fetch_returns_the_pages_it_got
  (field : string) (getPage : Z -> outcome value) (lt : Z -> value -> bool)
  (fetched : list (list value)) (total : Z) (fuel : nat) (w : world DB) :
  (forall (i : nat) items,
      fetched !! i = Some items ->
      items <> [] /\
      exists response,
        getPage (Z.of_nat (S i)) = Return response /\
        get_prop field response = VArr items /\
        get_prop "pages" (get_prop "pagination" response) = VNum total) ->
  ((fetched <> [] /\ Z.of_nat (length fetched) = total) \/
   (Z.of_nat (length fetched) < total /\
    exists message,
      getPage (Z.of_nat (S (length fetched))) = Throw message)) ->
  (length fetched < fuel)%nat ->
  DiscogsService.fetchPages fuel field getPage lt 1 [] w
  = (Return (Some (concat fetched)), w).
Proof.
  intros Hpages Hend Hfuel.
  apply (fetchPages_from field getPage lt fetched total w Hpages Hend
           [] fetched [] fuel); [done | done |].
  intros ->. destruct Hend as [[Hne _]|[Ht _]]; done.
Qed.
End Fetchers.

Lemma discogs_fetch_returns_the_pages_it_got_witness :
  DiscogsService.fetchPages 5 "releases"
    (fun page =>
       if page =? 1 then
         Return (VObj [("pagination", VObj [("page", VNum 1); ("pages", VNum 2)]);
                       ("releases", VArr [Samples.a_release])])
       else Throw "Discogs API error: 502 Bad Gateway")
    (fun _ _ => false) 1 [] (CachedDbService.start Database.schema)
  = (Return (Some [Samples.a_release]),
     CachedDbService.start Database.schema).
Proof.
  apply (discogs_fetch_returns_the_pages_it_got "releases" _ _
           [[Samples.a_release]] 2 5).
  - intros i items Hi. destruct i as [|i]; [|done].
    injection Hi as <-. split; [done|]. eexists. repeat split; reflexivity.
  - right. split; [simpl; lia|]. by eexists.
  - simpl. lia.
Defined.

(** X19. The BoardGameGeek fetchers never reject: [getAllCollectionItems]
    and [getAllWishlistItems] return the items of the response, a single
    item being wrapped in a list, and the empty list when the request
    fails or the response holds no item. *)
Theorem bgg_fetchers_never_reject
  {DB : Type} (fetched : outcome value) (w : world DB) :
  let items :=
    match fetched with
    | Return response =>
        if truthy (get_prop "item" (get_prop "items" response)) then
          BoardGameGeekService.as_array
            (get_prop "item" (get_prop "items" response))
        else []
    | Throw _ => []
    end in
  BoardGameGeekService.getAllCollectionItems fetched w = (Return items, w) /\
  BoardGameGeekService.getAllWishlistItems fetched w = (Return items, w).
Proof.
  intros items. unfold BoardGameGeekService.getAllWishlistItems.
  assert (BoardGameGeekService.getAllCollectionItems fetched w
          = (Return items, w)) as Hc; [|done].
  unfold BoardGameGeekService.getAllCollectionItems, try_catch, bind, await,
    items.
  destruct fetched as [response|e]; [|done].
  unfold DiscogsService.member.
  destruct response as [| | | | | |ps]; try done.
  cbn [ret get_prop]. set (its := lookup_prop "items" ps).
  destruct (truthy its) eqn:Ht; cbn [negb orb].
  - by destruct (truthy (get_prop "item" its)).
  - destruct its; done.
Qed.

(** ** The passes: what completes, what is recorded, what is kept *)

Lemma chunks_of_spec (fuel n : nat) (l : list value) :
  (0 < n)%nat -> (length l <= fuel)%nat ->
  concat (chunks_of fuel n l) = l /\
  Forall (fun chunk => (0 < length chunk <= n)%nat) (chunks_of fuel n l) /\
  (forall (i : nat) chunk,
      chunks_of fuel n l !! i = Some chunk ->
      (S i < length (chunks_of fuel n l))%nat ->
      length chunk = n).
Proof.
  intros Hn. revert l. induction fuel as [|fuel IH]; intros l Hl.
  - destruct l; [|simpl in Hl; lia]. simpl. split; [done|]. split; [done|].
    intros i chunk Hi. done.
  - destruct l as [|x l].
    { simpl. split; [done|]. split; [done|]. intros i chunk Hi. done. }
    change (chunks_of (S fuel) n (x :: l))
      with (take n (x :: l) :: chunks_of fuel n (drop n (x :: l))).
    destruct (IH (drop n (x :: l))) as (Hcat & Hall & Hfull).
    { rewrite length_drop. simpl in *. lia. }
    split; [|split].
    + simpl concat. rewrite Hcat. apply take_drop.
    + constructor; [|done]. rewrite length_take. simpl. lia.
    + intros [|i] chunk Hi Hlast.
      * injection Hi as <-. rewrite length_take.
        destruct (chunks_of fuel n (drop n (x :: l))) as [|c cs] eqn:Hcs;
          [simpl in Hlast; lia|].
        destruct (drop n (x :: l)) as [|y r] eqn:Hdrop.
        { destruct fuel; done. }
        assert (length (drop n (x :: l)) <> 0)%nat as Hnz
          by (rewrite Hdrop; done).
        rewrite length_drop in Hnz. lia.
      * simpl in Hi, Hlast. apply (Hfull i chunk Hi). lia.
Qed.

(** X20. [chunkArray] cuts the array into consecutive chunks: for a chunk
    size of at least 1, the chunks joined in order give the array back, no
    chunk is empty or longer than the chunk size, and every chunk but the
    last has exactly the chunk size. *)
Theorem chunkArray_partitions_the_array
  (array : list value) (chunkSize : nat) :
  (0 < chunkSize)%nat ->
  concat (chunkArray array chunkSize) = array /\
  Forall (fun chunk => (0 < length chunk <= chunkSize)%nat)
    (chunkArray array chunkSize) /\
  (forall (i : nat) chunk,
      chunkArray array chunkSize !! i = Some chunk ->
      (S i < length (chunkArray array chunkSize))%nat ->
      length chunk = chunkSize).
Proof. intros Hn. by apply chunks_of_spec. Qed.

Lemma chunkArray_partitions_the_array_witness :
  concat (chunkArray [VNum 1; VNum 2; VNum 3; VNum 4; VNum 5; VNum 6; VNum 7] 3)
  = [VNum 1; VNum 2; VNum 3; VNum 4; VNum 5; VNum 6; VNum 7].
Proof.
  apply (chunkArray_partitions_the_array
           [VNum 1; VNum 2; VNum 3; VNum 4; VNum 5; VNum 6; VNum 7] 3).
  lia.
Defined.

Section StatusStart.
Context (E : Env).
Import SyncService Database.

Hypothesis Haccepts :
  forall n data,
    get_prop "sync_in_progress" data = VBool true ->
    dbms_error E n "sync_status" data = None.

(** The update that starts a pass. *)
Lemma updateSyncStatus_starts service errorMessage (w : world Database.t) :
  has_status service (db w) ->
  exists w' row0 row,
    updateSyncStatus E service true errorMessage w = (Return tt, w') /\
    clock_reads w' = clock_reads w /\
    row_of "sync_status" "service" (VStr service) (db w) = Some row0 /\
    row_of "sync_status" "service" (VStr service) (db w') = Some row /\
    lookup_prop "sync_in_progress" row = VBool true /\
    lookup_prop "error_message" row
    = sql_value (default_to VNull errorMessage) /\
    (forall k,
        k ∉ ["sync_in_progress"; "error_message"; "updated_at"] ->
        lookup_prop k row = lookup_prop k row0) /\
    (forall table,
        table <> "sync_status" ->
        tables (db w') !! table = tables (db w) !! table).
Proof.
  intros (rows & Hrows & Hex). unfold updateSyncStatus. cbn [negb].
  set (data :=
         VObj [("sync_in_progress", VBool true);
               ("error_message", default_to VNull errorMessage)]).
  set (conditions := VObj [("service", VStr service)]).
  pose proof (cached_update_db E "sync_status" data conditions w) as Hdb.
  pose proof (cached_update_clock E "sync_status" data conditions w) as Hclock.
  assert (update E "sync_status" data conditions (db w)
          = statement E "sync_status" data (update_rows E data conditions)
              (db w)) as Hupd by reflexivity.
  destruct (statement_accepted E "sync_status" data
              (update_rows E data conditions) (db w) rows
              (Haccepts _ data eq_refl) Hrows) as (d' & Hst & Ht).
  rewrite Hupd, Hst in Hdb.
  unfold bind, ret.
  destruct (CachedDbService.update _ _ _ w) as [r2 w2].
  simpl in Hdb, Hclock. injection Hdb as -> Hd2.
  destruct (head_filter_Exists (of_service service) rows Hex)
    as (r0 & Hhead & Hr0).
  set (ts := current_timestamp E (statements (db w))) in *.
  set (g := fun r : row =>
              if matches (props conditions) r then set_row E data ts r else r).
  exists w2, r0, (g r0).
  split; [done|]. split; [done|].
  split; [by rewrite row_of_service, Hrows|].
  assert ("service" ∉ JS.keys data) as Hkeys by (simpl; set_solver).
  split.
  { rewrite row_of_service, Hd2, Ht, lookup_insert_eq.
    unfold update_rows. cbn [snd]. fold g.
    rewrite (head_filter_map (of_service service) g rows), Hhead; [done|].
    intros r. unfold g. destruct (matches _ r); [|done].
    unfold of_service. by rewrite set_row_service. }
  unfold g, conditions. rewrite matches_service, Hr0. unfold set_row.
  split; [|split; [|split]].
  - rewrite lookup_assign_prop_ne by done.
    rewrite (lookup_assign_in (fun k => get_prop k data))
      by (simpl; set_solver).
    by rewrite stored_plain.
  - rewrite lookup_assign_prop_ne by done.
    rewrite (lookup_assign_in (fun k => get_prop k data))
      by (simpl; set_solver).
    by rewrite stored_plain.
  - intros k Hk. rewrite lookup_assign_prop_ne by set_solver.
    apply lookup_assign_notin. simpl. set_solver.
  - intros table Hne. rewrite Hd2, Ht. by apply lookup_insert_ne.
Qed.
End StatusStart.

(** X21. The update that starts a pass raises the flag, clears the error
    and leaves the time of the last sync alone: when the status row of the
    service is present and the DBMS accepts the statement,
    [updateSyncStatus(service, true)] returns without reading the clock;
    the row then has [sync_in_progress = true] and [error_message = NULL],
    every other column but [updated_at] (so [last_sync_at]) as before, and
    no other table is touched. *)
Theorem start_of_pass_keeps_lastSyncAt
  (E : Env) (service : string) (w : world Database.t) :
  Database.has_status service (db w) ->
  (forall n data,
      get_prop "sync_in_progress" data = VBool true ->
      dbms_error E n "sync_status" data = None) ->
  exists w' row0 row,
    SyncService.updateSyncStatus E service true VUndefined w
    = (Return tt, w') /\
    clock_reads w' = clock_reads w /\
    Database.row_of "sync_status" "service" (VStr service) (db w)
    = Some row0 /\
    Database.row_of "sync_status" "service" (VStr service) (db w')
    = Some row /\
    lookup_prop "sync_in_progress" row = VBool true /\
    lookup_prop "error_message" row = VNull /\
    lookup_prop "last_sync_at" row = lookup_prop "last_sync_at" row0 /\
    (forall table,
        table <> "sync_status" ->
        Database.tables (db w') !! table = Database.tables (db w) !! table).
Proof.
  intros Hstatus Haccepts.
  destruct (updateSyncStatus_starts E Haccepts service VUndefined w Hstatus)
    as (w' & row0 & row & Hrun & Hclock & Hrow0 & Hrow & Hflag & Herr & Hkeep
        & Hother).
  exists w', row0, row. repeat (split; [done|]).
  split; [apply Hkeep; set_solver | done].
Qed.

Lemma start_of_pass_keeps_lastSyncAt_witness :
  exists w' row0 row,
    SyncService.updateSyncStatus Samples.env "discogs" true VUndefined
      (CachedDbService.start Database.schema)
    = (Return tt, w') /\
    clock_reads w' = clock_reads (CachedDbService.start Database.schema) /\
    Database.row_of "sync_status" "service" (VStr "discogs")
      (db (CachedDbService.start Database.schema))
    = Some row0 /\
    Database.row_of "sync_status" "service" (VStr "discogs") (db w')
    = Some row /\
    lookup_prop "sync_in_progress" row = VBool true /\
    lookup_prop "error_message" row = VNull /\
    lookup_prop "last_sync_at" row = lookup_prop "last_sync_at" row0 /\
    (forall table,
        table <> "sync_status" ->
        Database.tables (db w') !! table
        = Database.tables (db (CachedDbService.start Database.schema))
            !! table).
Proof.
  apply (start_of_pass_keeps_lastSyncAt Samples.env "discogs"
           (CachedDbService.start Database.schema)).
  - eexists. split; [vm_compute; reflexivity|].
    apply Exists_cons_hd. reflexivity.
  - reflexivity.
Defined.

Lemma returns_processBatches E wl chunks :
  returns (SyncService.processBatches E wl chunks).
Proof.
  induction chunks as [|chunk rest IH]; simpl; [apply returns_ret|].
  apply returns_bind; [apply returns_processBatch | done].
Qed.

Section RecordedOutcome.
Context (E : Env).
Import SyncService Database.

Hypothesis Haccepts :
  forall n data,
    get_prop "sync_in_progress" data = VBool false ->
    dbms_error E n "sync_status" data = None.

Local Abbreviation success service w' :=
  (exists row k,
      row_of "sync_status" "service" (VStr service) (db w') = Some row /\
      lookup_prop "error_message" row = VNull /\
      lookup_prop "sync_in_progress" row = VBool false /\
      lookup_prop "last_sync_at" row = VNum (Date_now E k) /\
      clock_reads w' = S k).

Lemma final_update_records_success service (w5 w' : world Database.t) :
  has_status service (db w5) ->
  updateSyncStatus E service false VNull w5 = (Return tt, w') ->
  success service w'.
Proof.
  intros Hstatus Hend.
  destruct (updateSyncStatus_ends E Haccepts service VNull w5 Hstatus)
    as (w'' & Hrun & Hclock & row & Hrow & Herr & Hflag & Hlast).
  rewrite Hend in Hrun. injection Hrun as <-.
  by exists row, (clock_reads w5).
Qed.

Lemma syncRecords_records_success fetched (w w' : world Database.t) :
  has_status "discogs" (db w) ->
  syncRecords E fetched w = (Return tt, w') ->
  success "discogs" w'.
Proof.
  intros Hstatus Hpass. unfold syncRecords in Hpass.
  apply try_catch_throw_Return in Hpass; [|intros; apply handler_throws].
  apply bind_Return in Hpass as ([] & w1 & Hstart & Hpass).
  apply bind_Return in Hpass as (items & w1' & Hfetch & Hpass).
  apply bind_Return in Hpass as ([] & w2 & Hcoll & Hpass).
  apply bind_Return in Hpass as ([] & w3 & Hwish & Hend).
  apply (final_update_records_success "discogs" w3); [|done].
  assert (forall wl, kept_by_upserts E "records" wl (has_status "discogs"))
    as Hup
    by (intros wl; by apply kept_by_any_upsert_flagged,
          has_status_kept_upsert).
  eapply preserves_run; [by apply preserves_processBatches| |exact Hwish].
  eapply preserves_run; [by apply preserves_processBatches| |exact Hcoll].
  eapply preserves_run; [apply preserves_keeps_db, keeps_db_await|
                         |exact Hfetch].
  eapply preserves_run; [|exact Hstatus|exact Hstart].
  apply preserves_updateSyncStatus, has_status_kept_status.
Qed.

Lemma syncBoardGames_records_success fetched (w w' : world Database.t) :
  has_status "boardgamegeek" (db w) ->
  syncBoardGames E fetched w = (Return tt, w') ->
  success "boardgamegeek" w'.
Proof.
  intros Hstatus Hpass. unfold syncBoardGames in Hpass.
  apply try_catch_throw_Return in Hpass; [|intros; apply handler_throws].
  apply bind_Return in Hpass as ([] & w1 & Hstart & Hpass).
  apply bind_Return in Hpass as (items & w1' & Hfetch & Hpass).
  apply bind_Return in Hpass as (cg & w2 & Hcg & Hpass).
  apply bind_Return in Hpass as (wg & w3 & Hwg & Hpass).
  apply bind_Return in Hpass as (enriched & w4 & Hen & Hpass).
  apply bind_Return in Hpass as ([] & w5 & Hup & Hend).
  apply (final_update_records_success "boardgamegeek" w5); [|done].
  eapply preserves_run;
    [apply preserves_upsertGames; by apply has_status_kept_upsert|
    |exact Hup].
  eapply preserves_run;
    [apply preserves_keeps_db, keeps_db_enrichBatches| |exact Hen].
  eapply preserves_run; [apply preserves_transformAll| |exact Hwg].
  eapply preserves_run; [apply preserves_transformAll| |exact Hcg].
  eapply preserves_run; [apply preserves_keeps_db, keeps_db_await|
                         |exact Hfetch].
  eapply preserves_run; [|exact Hstatus|exact Hstart].
  apply preserves_updateSyncStatus, has_status_kept_status.
Qed.
End RecordedOutcome.

(** X22. A pass that completes records success: when the status row of the
    source is present and the DBMS accepts the status updates that end a
    pass, after a pass of the source that returns the row has
    [error_message = NULL] (an earlier error is cleared),
    [sync_in_progress = false], and as [last_sync_at] the last clock
    reading of the pass. *)
Theorem completed_pass_records_success
  (E : Env) (src : SyncService.source)
  (fetched : outcome (list value * list value))
  (w w' : world Database.t) :
  Database.has_status (SyncService.service src) (db w) ->
  (forall n data,
      get_prop "sync_in_progress" data = VBool false ->
      dbms_error E n "sync_status" data = None) ->
  SyncService.syncPass E src fetched w = (Return tt, w') ->
  exists row k,
    Database.row_of "sync_status" "service"
      (VStr (SyncService.service src)) (db w')
    = Some row /\
    lookup_prop "error_message" row = VNull /\
    lookup_prop "sync_in_progress" row = VBool false /\
    lookup_prop "last_sync_at" row = VNum (Date_now E k) /\
    clock_reads w' = S k.
Proof.
  intros Hstatus Haccepts Hpass. destruct src; simpl in *.
  - by eapply syncRecords_records_success.
  - by eapply syncBoardGames_records_success.
Qed.

Lemma completed_pass_records_success_witness :
  exists row k,
    Database.row_of "sync_status" "service" (VStr "boardgamegeek")
      (db (snd (SyncService.syncPass Samples.env SyncService.BoardGameGeek
                  (Return ([], []))
                  (CachedDbService.start Database.schema))))
    = Some row /\
    lookup_prop "error_message" row = VNull /\
    lookup_prop "sync_in_progress" row = VBool false /\
    lookup_prop "last_sync_at" row = VNum (Date_now Samples.env k) /\
    clock_reads
      (snd (SyncService.syncPass Samples.env SyncService.BoardGameGeek
              (Return ([], []))
              (CachedDbService.start Database.schema)))
    = S k.
Proof.
  apply (completed_pass_records_success Samples.env
           SyncService.BoardGameGeek (Return ([], []))
           (CachedDbService.start Database.schema)).
  - eexists. split; [vm_compute; reflexivity|].
    apply Exists_cons_tl, Exists_cons_hd. reflexivity.
  - reflexivity.
  - vm_compute. reflexivity.
Defined.

(** X23. No item can fail a pass over Discogs. When the status row is
    present and the DBMS accepts the two status updates, [syncRecords]
    returns whatever the two lists hold: an item that does not transform,
    an image that does not download and an upsert that the DBMS rejects
    are each logged and skipped. *)
Theorem discogs_pass_survives_its_items
  (E : Env) (collectionItems wishlistItems : list value)
  (w : world Database.t) :
  Database.has_status "discogs" (db w) ->
  (forall n data, dbms_error E n "sync_status" data = None) ->
  exists w',
    SyncService.syncRecords E (Return (collectionItems, wishlistItems)) w
    = (Return tt, w').
Proof.
  intros Hstatus Haccepts.
  assert (forall wl,
             kept_by_upserts E "records" wl (Database.has_status "discogs"))
    as Hup
    by (intros wl; by apply kept_by_any_upsert_flagged,
          has_status_kept_upsert).
  destruct (updateSyncStatus_starts E (fun n data _ => Haccepts n data)
              "discogs" VUndefined w Hstatus) as (w1 & _ & _ & Hstart & _).
  assert (Database.has_status "discogs" (db w1)) as H1.
  { eapply preserves_run; [|exact Hstatus|exact Hstart].
    apply preserves_updateSyncStatus, has_status_kept_status. }
  destruct (returns_processBatches E false (chunkArray collectionItems 3) w1)
    as [[] Hc].
  destruct (SyncService.processBatches E false
              (chunkArray collectionItems 3) w1) as [rc w2] eqn:Hcoll.
  simpl in Hc. subst rc.
  assert (Database.has_status "discogs" (db w2)) as H2
    by (eapply preserves_run; [by apply preserves_processBatches| |exact Hcoll];
        done).
  destruct (returns_processBatches E true (chunkArray wishlistItems 3) w2)
    as [[] Hw].
  destruct (SyncService.processBatches E true
              (chunkArray wishlistItems 3) w2) as [rw w3] eqn:Hwish.
  simpl in Hw. subst rw.
  assert (Database.has_status "discogs" (db w3)) as H3
    by (eapply preserves_run; [by apply preserves_processBatches| |exact Hwish];
        done).
  destruct (updateSyncStatus_ends E (fun n data _ => Haccepts n data)
              "discogs" VNull w3 H3) as (w4 & Hend & _).
  exists w4. unfold SyncService.syncRecords, try_catch, bind, await.
  rewrite Hstart. cbn [fst snd].
  unfold SyncService.processRecordsInParallel. rewrite Hcoll, Hwish, Hend.
  done.
Qed.

Lemma discogs_pass_survives_its_items_witness :
  exists w',
    SyncService.syncRecords Samples.env
      (Return ([VNull; Samples.a_release], [VNum 7]))
      (CachedDbService.start Database.schema)
    = (Return tt, w').
Proof.
  apply (discogs_pass_survives_its_items Samples.env
           [VNull; Samples.a_release] [VNum 7]
           (CachedDbService.start Database.schema)).
  - eexists. split; [vm_compute; reflexivity|].
    apply Exists_cons_hd. reflexivity.
  - reflexivity.
Defined.

Section NeverRemoves.
Context (E : Env) (catalog id : string) (Hcatalog : catalog <> "sync_status").
Import SyncService Database.

Local Abbreviation stored d :=
  (exists rows,
      tables d !! catalog = Some rows /\
      Exists (fun r => has_id id r = true) rows).

Lemma upsert_rows_keeps_ids t data ts rows :
  Exists (fun r => has_id id r = true) rows ->
  Exists (fun r => has_id id r = true)
    (snd (upsert_rows E t data ["external_id"] ts rows)).
Proof.
  intros Hex. unfold upsert_rows. cbv zeta.
  destruct (existsb _ rows); cbn [snd].
  - apply Exists_map_if; [done|]. intros r Hr. unfold has_id in *.
    by rewrite updated_row_id.
  - apply Exists_app. by left.
Qed.

Lemma stored_kept_upsert t data d r d' :
  upsert E t data (VArr [VStr "external_id"]) d = (r, d') ->
  stored d -> stored d'.
Proof.
  intros Hu (rows & Hrows & Hex).
  apply upsert_cases in Hu
    as [(e & _ & Ht)|(rows0 & ts & v & Hr & _ & Ht)].
  - exists rows. by rewrite Ht.
  - rewrite Ht. destruct (decide (t = catalog)) as [->|Hne].
    + rewrite Hrows in Hr. injection Hr as <-.
      eexists. rewrite lookup_insert_eq. split; [done|].
      by apply upsert_rows_keeps_ids.
    + exists rows. by rewrite lookup_insert_ne.
Qed.

Lemma stored_kept_status : kept_by_status_updates E (fun d => stored d).
Proof.
  intros data service d r d' _ Hu (rows & Hrows & Hex).
  exists rows. split; [|done].
  rewrite <- Hrows. eapply update_other_table; [done|]. congruence.
Qed.

Lemma stored_kept_upsertGames games :
  preserves (fun d => stored d) (upsertGames E games).
Proof.
  induction games as [|game rest IH]; simpl; [apply preserves_ret|].
  apply preserves_seq;
    [apply preserves_keeps_db, keeps_db_downloadBoardGameImages|].
  intros game'. apply preserves_seq; [|done].
  intros w Hw.
  pose proof (cached_upsert_db E "board_games" game'
                (VArr [VStr "external_id"]) w) as Hdb.
  destruct (upsert E "board_games" game' _ (db w)) as [r d'] eqn:Hu.
  injection Hdb as _ ->. by eapply stored_kept_upsert.
Qed.

Lemma stored_kept_pass src fetched :
  preserves (fun d => stored d) (syncPass E src fetched).
Proof.
  destruct src; simpl.
  - apply preserves_syncRecords; [| |apply stored_kept_status];
      intros data d r d' _; apply stored_kept_upsert.
  - unfold syncBoardGames, BoardGameGeekService.enrichGameData.
    apply preserves_try_catch.
    + apply preserves_seq;
        [apply preserves_updateSyncStatus, stored_kept_status|]. intros _.
      apply preserves_seq; [apply preserves_keeps_db, keeps_db_await|].
      intros items.
      apply preserves_seq; [apply preserves_transformAll|]. intros cg.
      apply preserves_seq; [apply preserves_transformAll|]. intros wg.
      apply preserves_seq;
        [apply preserves_keeps_db, keeps_db_enrichBatches|]. intros games.
      apply preserves_seq; [apply stored_kept_upsertGames|]. intros _.
      apply preserves_updateSyncStatus, stored_kept_status.
    + intros e. apply preserves_seq;
        [apply preserves_updateSyncStatus, stored_kept_status|].
      intros _. apply preserves_throw.
Qed.
End NeverRemoves.

(** X24. A pass never removes a record. Whatever the two lists hold and
    whether the pass completes or fails, an external id that has a row in
    a catalog table before a pass of either source has a row in that table
    after it: an item that is no longer listed stays stored. *)
Theorem pass_never_removes_a_record
  (E : Env) (src : SyncService.source)
  (fetched : outcome (list value * list value))
  (table id : string) (w : world Database.t) :
  table <> "sync_status" ->
  is_Some (Database.row_of table "external_id" (VStr id) (db w)) ->
  is_Some
    (Database.row_of table "external_id" (VStr id)
       (db (snd (SyncService.syncPass E src fetched w)))).
Proof.
  intros Htable [row Hrow].
  assert (exists rows,
             Database.tables (db w) !! table = Some rows /\
             Exists (fun r => Database.has_id id r = true) rows)
    as Hstored.
  { unfold Database.row_of in Hrow.
    destruct (Database.tables (db w) !! table) as [rows|]; [|done].
    exists rows. split; [done|].
    apply head_Some_elem_of, list_elem_of_filter in Hrow as [Hid Hin].
    apply Exists_exists. exists row.
    split; [done | by apply Is_true_true]. }
  apply (stored_kept_pass E table id Htable src fetched w) in Hstored
    as (rows & Hrows & Hex).
  unfold Database.row_of. rewrite Hrows.
  destruct (head_filter_Exists (Database.has_id id) rows Hex)
    as (r & Hr & _).
  by exists r.
Qed.

Lemma pass_never_removes_a_record_witness :
  is_Some
    (Database.row_of "records" "external_id" (VStr "249504")
       (db (snd (SyncService.syncPass Samples.env SyncService.Discogs
                   (Return ([], []))
                   (snd (SyncService.syncPass Samples.env SyncService.Discogs
                           (Return ([Samples.a_release], []))
                           (CachedDbService.start Database.schema))))))).
Proof.
  apply (pass_never_removes_a_record Samples.env SyncService.Discogs
           (Return ([], [])) "records" "249504").
  - done.
  - eexists. vm_compute. reflexivity.
Defined.

Section EmptyLists.
Context (E : Env).
Import SyncService Database.

Hypothesis Haccepts : forall n data, dbms_error E n "sync_status" data = None.

Lemma status_updates_keep_catalog inProgress service errorMessage
  (w w' : world Database.t) r (catalog : string) :
  catalog <> "sync_status" ->
  updateSyncStatus E service inProgress errorMessage w = (r, w') ->
  tables (db w') !! catalog = tables (db w) !! catalog.
Proof.
  intros Hne Hrun.
  assert (preserves
            (fun d => tables d !! catalog = tables (db w) !! catalog)
            (updateSyncStatus E service inProgress errorMessage)) as Hkept.
  { apply preserves_updateSyncStatus.
    intros data svc d r0 d' _ Hu Hd. rewrite <- Hd.
    eapply update_other_table; [done|]. congruence. }
  specialize (Hkept w eq_refl). by rewrite Hrun in Hkept.
Qed.

Lemma empty_pass src (w : world Database.t) :
  has_status (service src) (db w) ->
  exists w1 w',
    updateSyncStatus E (service src) true VUndefined w = (Return tt, w1) /\
    updateSyncStatus E (service src) false VNull w1 = (Return tt, w') /\
    has_status (service src) (db w1) /\
    syncPass E src (Return ([], [])) w = (Return tt, w').
Proof.
  intros Hstatus.
  destruct (updateSyncStatus_starts E (fun n data _ => Haccepts n data)
              (service src) VUndefined w Hstatus)
    as (w1 & _ & _ & Hstart & _).
  assert (has_status (service src) (db w1)) as H1.
  { eapply preserves_run; [|exact Hstatus|exact Hstart].
    apply preserves_updateSyncStatus, has_status_kept_status. }
  destruct (updateSyncStatus_ends E (fun n data _ => Haccepts n data)
              (service src) VNull w1 H1) as (w' & Hend & _).
  exists w1, w'. repeat (split; [done|]).
  destruct src; simpl in *.
  - unfold syncRecords, try_catch, bind, await. rewrite Hstart.
    cbn [fst snd processRecordsInParallel chunkArray chunks_of length
           processBatches ret]. by rewrite Hend.
  - unfold syncBoardGames, try_catch, bind, await. rewrite Hstart.
    cbn [fst snd transformAll ret app
           BoardGameGeekService.enrichGameData chunkArray chunks_of length
           BoardGameGeekService.enrichBatches upsertGames].
    by rewrite Hend.
Qed.
End EmptyLists.

(** X25. An outage passes for a successful sync. The fetchers of both
    sources hand over empty lists when their requests fail; a pass over
    two empty lists, with the status row present and the DBMS accepting
    the status updates, completes, records success ([error_message =
    NULL], [sync_in_progress = false], [last_sync_at] set to the last
    clock reading) and leaves every catalog table as it was. *)
Theorem pass_over_empty_lists_records_success
  (E : Env) (src : SyncService.source) (w : world Database.t) :
  Database.has_status (SyncService.service src) (db w) ->
  (forall n data, dbms_error E n "sync_status" data = None) ->
  exists w' row k,
    SyncService.syncPass E src (Return ([], [])) w = (Return tt, w') /\
    Database.row_of "sync_status" "service"
      (VStr (SyncService.service src)) (db w')
    = Some row /\
    lookup_prop "error_message" row = VNull /\
    lookup_prop "sync_in_progress" row = VBool false /\
    lookup_prop "last_sync_at" row = VNum (Date_now E k) /\
    clock_reads w' = S k /\
    forall catalog,
      catalog <> "sync_status" ->
      Database.tables (db w') !! catalog = Database.tables (db w) !! catalog.
Proof.
  intros Hstatus Haccepts.
  destruct (empty_pass E Haccepts src w Hstatus)
    as (w1 & w' & Hstart & Hend & H1 & Hpass).
  destruct (final_update_records_success E
              (fun n data _ => Haccepts n data) (SyncService.service src)
              w1 w' H1 Hend)
    as (row & k & Hrow & Herr & Hflag & Hlast & Hclock).
  exists w', row, k. repeat (split; [done|]).
  intros catalog Hne.
  rewrite (status_updates_keep_catalog E _ _ _ _ _ _ catalog Hne Hend).
  apply (status_updates_keep_catalog E _ _ _ _ _ _ catalog Hne Hstart).
Qed.

Lemma pass_over_empty_lists_records_success_witness :
  exists w' row k,
    SyncService.syncPass Samples.env SyncService.Discogs (Return ([], []))
      (CachedDbService.start Database.schema)
    = (Return tt, w') /\
    Database.row_of "sync_status" "service" (VStr "discogs") (db w')
    = Some row /\
    lookup_prop "error_message" row = VNull /\
    lookup_prop "sync_in_progress" row = VBool false /\
    lookup_prop "last_sync_at" row = VNum (Date_now Samples.env k) /\
    clock_reads w' = S k /\
    forall catalog,
      catalog <> "sync_status" ->
      Database.tables (db w') !! catalog
      = Database.tables (db (CachedDbService.start Database.schema))
          !! catalog.
Proof.
  apply (pass_over_empty_lists_records_success Samples.env
           SyncService.Discogs (CachedDbService.start Database.schema)).
  - eexists. split; [vm_compute; reflexivity|].
    apply Exists_cons_hd. reflexivity.
  - reflexivity.
Defined.

Section Unlisted.
Context (E : Env) (catalog id : string).
Import SyncService Database.

Local Abbreviation other data := (get_prop "external_id" data <> VStr id).
Local Abbreviation same_row R d :=
  (row_of catalog "external_id" (VStr id) d = R).

Lemma proposed_row_other t data ts :
  other data -> has_id id (proposed_row E t data ts) = false.
Proof.
  intros Hother. unfold has_id, proposed_row.
  destruct (decide ("external_id" ∈ JS.keys data)) as [Hin|Hout].
  - rewrite (lookup_assign_in (fun k => get_prop k data)) by done.
    destruct (get_prop "external_id" data) eqn:Hd; try done. simpl.
    destruct (String.eqb_spec s id) as [->|]; [done | done].
  - rewrite (lookup_assign_notin (fun k => get_prop k data)) by done.
    unfold defaults. by destruct (String.eqb t "sync_status").
Qed.

Lemma filter_map_if_untouched (hit : row -> bool) (g : row -> row) rows :
  (forall r, has_id id r = true -> hit r = false) ->
  (forall r, has_id id (g r) = has_id id r) ->
  filter (fun r => has_id id r) (map (fun r => if hit r then g r else r) rows)
  = filter (fun r => has_id id r) rows.
Proof.
  intros Hhit Hg. induction rows as [|r rows IH]; [done|].
  simpl map. rewrite !filter_cons, IH.
  destruct (has_id id r) eqn:Hr.
  - rewrite (Hhit r Hr), Hr. done.
  - destruct (hit r); [rewrite Hg|]; rewrite Hr; done.
Qed.

Lemma upsert_rows_other t data ts rows :
  other data ->
  filter (fun r => has_id id r)
    (snd (upsert_rows E t data ["external_id"] ts rows))
  = filter (fun r => has_id id r) rows.
Proof.
  intros Hother. pose proof (proposed_row_other t data ts Hother) as Hp.
  unfold upsert_rows. cbv zeta. destruct (existsb _ rows); cbn [snd].
  - apply filter_map_if_untouched.
    + intros r Hr. rewrite conflicts_id.
      unfold has_id in Hr, Hp. apply sql_eq_str in Hr. rewrite Hr.
      rewrite sql_eq_sym. exact Hp.
    + intros r. unfold has_id. by rewrite updated_row_id.
  - rewrite filter_app, filter_cons, Hp. simpl. by rewrite app_nil_r.
Qed.

Lemma same_row_kept_upsert R t data d r d' :
  other data ->
  upsert E t data (VArr [VStr "external_id"]) d = (r, d') ->
  same_row R d -> same_row R d'.
Proof.
  intros Hother Hu HR.
  apply upsert_cases in Hu
    as [(e & _ & Ht)|(rows0 & ts & v & Hr & _ & Ht)].
  - unfold row_of in *. by rewrite Ht.
  - unfold row_of in *. rewrite Ht.
    destruct (decide (t = catalog)) as [->|Hne].
    + rewrite lookup_insert_eq. rewrite Hr in HR.
      change (strings_of (VArr [VStr "external_id"])) with ["external_id"].
      change (head (filter (fun r0 => has_id id r0)
                      (snd (upsert_rows E catalog data ["external_id"] ts
                              rows0))) = R).
      by rewrite upsert_rows_other.
    + by rewrite lookup_insert_ne.
Qed.

Hypothesis Hcatalog : catalog <> "sync_status".

Lemma same_row_kept_status R :
  kept_by_status_updates E (fun d => same_row R d).
Proof.
  intros data service d r d' _ Hu HR. unfold row_of in *.
  erewrite update_other_table; [exact HR | exact Hu | congruence].
Qed.

Lemma same_row_kept_cached_upsert R t data :
  other data ->
  preserves (fun d => same_row R d)
    (CachedDbService.upsert (H := Database_Store E) t data
       (VArr [VStr "external_id"])).
Proof.
  intros Hother w Hw.
  pose proof (cached_upsert_db E t data (VArr [VStr "external_id"]) w) as Hdb.
  destruct (upsert E t data _ (db w)) as [r d'] eqn:Hu.
  injection Hdb as _ ->. by eapply same_row_kept_upsert.
Qed.

Lemma same_row_kept_processRecord R wl item :
  external_id Discogs item <> VStr id ->
  preserves (fun d => same_row R d) (processRecord E wl item).
Proof.
  intros Hitem. unfold processRecord.
  apply preserves_try_catch; [|intros; apply preserves_ret].
  apply (preserves_bind _ _ _ (fun record => other record)).
  - apply preserves_keeps_db, keeps_db_transformToRecord.
  - intros w a w1 Hrun. apply transformToRecord_Return in Hrun as [_ ->].
    done.
  - intros record Hrecord.
    apply (preserves_bind _ _ _ (fun record => other record)).
    + apply preserves_keeps_db, keeps_db_downloadRecordImages.
    + intros w a w1 Hrun. apply downloadRecordImages_same in Hrun as [-> _].
      done.
    + intros record' Hrecord'.
      apply preserves_seq; [|intros; apply preserves_ret].
      by apply same_row_kept_cached_upsert.
Qed.

Lemma same_row_kept_processBatch R wl items :
  Forall (fun item => external_id Discogs item <> VStr id) items ->
  preserves (fun d => same_row R d) (processBatch E wl items).
Proof.
  induction 1 as [|item rest Hitem Hrest IH]; simpl; [apply preserves_ret|].
  apply preserves_seq; [by apply same_row_kept_processRecord|]. intros r.
  apply preserves_seq; [done|]. intros rs. apply preserves_ret.
Qed.

Hypothesis Hschedule : forall chunk, schedule E chunk ≡ₚ chunk.

Lemma same_row_kept_processBatches R wl chunks :
  Forall (fun item => external_id Discogs item <> VStr id) (concat chunks) ->
  preserves (fun d => same_row R d) (processBatches E wl chunks).
Proof.
  induction chunks as [|chunk rest IH]; simpl; [intros; apply preserves_ret|].
  intros [Hchunk Hrest]%Forall_app.
  apply preserves_seq; [|intros; by apply IH].
  apply same_row_kept_processBatch. by rewrite Hschedule.
Qed.

Lemma same_row_kept_upsertGames R games :
  Forall (fun game => other game) games ->
  preserves (fun d => same_row R d) (upsertGames E games).
Proof.
  induction 1 as [|game rest Hgame Hrest IH]; simpl; [apply preserves_ret|].
  apply (preserves_bind _ _ _ (fun game' => other game')).
  - apply preserves_keeps_db, keeps_db_downloadBoardGameImages.
  - intros w a w1 Hrun.
    apply downloadBoardGameImages_same in Hrun as [-> _]. done.
  - intros game' Hgame'. apply preserves_seq; [|done].
    by apply same_row_kept_cached_upsert.
Qed.

Lemma transformed_other wl items (w : world Database.t) games w' :
  Forall (fun item => external_id BoardGameGeek item <> VStr id) items ->
  transformAll E wl items w = (Return games, w') ->
  Forall (fun game => other game) games.
Proof.
  intros Hitems Hrun. apply transformAll_Return in Hrun.
  induction Hrun as [|item game items games [_ Hid] _ IH];
    [done|].
  apply Forall_cons in Hitems as [Hitem Hitems].
  constructor; [by rewrite Hid | by apply IH].
Qed.

Lemma same_item_other games enriched :
  Forall2 same_item games enriched ->
  Forall (fun game => other game) games ->
  Forall (fun game => other game) enriched.
Proof.
  induction 1 as [|game game' games enriched [Hid _] _ IH]; [done|].
  intros [Hgame Hgames]%Forall_cons.
  constructor; [by rewrite Hid | by apply IH].
Qed.

Lemma same_row_kept_pass R src collectionItems wishlistItems :
  Forall (fun item => external_id src item <> VStr id)
    (collectionItems ++ wishlistItems) ->
  preserves (fun d => same_row R d)
    (syncPass E src (Return (collectionItems, wishlistItems))).
Proof.
  intros [Hc Hw]%Forall_app. destruct src; cbn [syncPass].
  - unfold syncRecords, processRecordsInParallel.
    apply preserves_try_catch.
    + apply preserves_seq;
        [apply preserves_updateSyncStatus, same_row_kept_status|]. intros _.
      apply (preserves_bind _ _ _
               (fun items => items = (collectionItems, wishlistItems))).
      * apply preserves_keeps_db, keeps_db_await.
      * by intros w a w1 [= -> _].
      * intros items ->. cbn [fst snd].
        apply preserves_seq.
        { apply same_row_kept_processBatches.
          by rewrite concat_chunkArray by lia. }
        intros _. apply preserves_seq.
        { apply same_row_kept_processBatches.
          by rewrite concat_chunkArray by lia. }
        intros _. apply preserves_updateSyncStatus, same_row_kept_status.
    + intros e. apply preserves_seq;
        [apply preserves_updateSyncStatus, same_row_kept_status|].
      intros _. apply preserves_throw.
  - unfold syncBoardGames, BoardGameGeekService.enrichGameData.
    apply preserves_try_catch.
    + apply preserves_seq;
        [apply preserves_updateSyncStatus, same_row_kept_status|]. intros _.
      apply (preserves_bind _ _ _
               (fun items => items = (collectionItems, wishlistItems))).
      * apply preserves_keeps_db, keeps_db_await.
      * by intros w a w1 [= -> _].
      * intros items ->. cbn [fst snd].
        apply (preserves_bind _ _ _
                 (fun games => Forall (fun game => other game) games)).
        { apply preserves_transformAll. }
        { intros w a w1 Hrun.
          exact (transformed_other false collectionItems w a w1 Hc Hrun). }
        intros cg Hcg.
        apply (preserves_bind _ _ _
                 (fun games => Forall (fun game => other game) games)).
        { apply preserves_transformAll. }
        { intros w a w1 Hrun.
          exact (transformed_other true wishlistItems w a w1 Hw Hrun). }
        intros wg Hwg.
        apply (preserves_bind _ _ _
                 (fun games => Forall (fun game => other game) games)).
        { apply preserves_keeps_db, keeps_db_enrichBatches. }
        { intros w a w1 Hrun. apply enrichBatches_same in Hrun.
          rewrite concat_chunkArray in Hrun by lia.
          eapply same_item_other; [exact Hrun|]. by apply Forall_app. }
        intros enriched Hen.
        apply preserves_seq; [by apply same_row_kept_upsertGames|].
        intros _. apply preserves_updateSyncStatus, same_row_kept_status.
    + intros e. apply preserves_seq;
        [apply preserves_updateSyncStatus, same_row_kept_status|].
      intros _. apply preserves_throw.
Qed.
End Unlisted.

(** X26. A pass changes only the records it lists. When no item of the
    two lists has a given external id, the row stored for that id in a
    catalog table is the same after the pass as before it, flags included,
    whether the pass completes or fails: an item that has left the remote
    collection or wishlist keeps the flags of the last pass that listed
    it. *)
Theorem pass_leaves_unlisted_records_alone
  (E : Env) (src : SyncService.source)
  (collectionItems wishlistItems : list value)
  (catalog id : string) (w : world Database.t) :
  catalog <> "sync_status" ->
  (forall chunk, schedule E chunk ≡ₚ chunk) ->
  Forall (fun item => SyncService.external_id src item <> VStr id)
    (collectionItems ++ wishlistItems) ->
  Database.row_of catalog "external_id" (VStr id)
    (db (snd (SyncService.syncPass E src
                (Return (collectionItems, wishlistItems)) w)))
  = Database.row_of catalog "external_id" (VStr id) (db w).
Proof.
  intros Hcatalog Hschedule Hitems.
  by apply (same_row_kept_pass E catalog id Hcatalog Hschedule _ src
              collectionItems wishlistItems Hitems w).
Qed.

Lemma pass_leaves_unlisted_records_alone_witness :
  Database.row_of "records" "external_id" (VStr "249504")
    (db (snd (SyncService.syncPass Samples.env SyncService.Discogs
                (Return ([VObj [("id", VNum 1)]], []))
                (snd (SyncService.syncPass Samples.env SyncService.Discogs
                        (Return ([Samples.a_release], []))
                        (CachedDbService.start Database.schema))))))
  = Database.row_of "records" "external_id" (VStr "249504")
      (db (snd (SyncService.syncPass Samples.env SyncService.Discogs
                  (Return ([Samples.a_release], []))
                  (CachedDbService.start Database.schema)))).
Proof.
  apply (pass_leaves_unlisted_records_alone Samples.env SyncService.Discogs
           [VObj [("id", VNum 1)]] [] "records" "249504").
  - done.
  - reflexivity.
  - repeat constructor. vm_compute. discriminate.
Defined.

(** ** The upsert of [db] *)

Section UpsertLookup.
Context (E : Env) (id : string).
Import Database.








End UpsertLookup.



(** ** Eviction among entries set with one lifetime *)

Lemma sort_by_expiry_sorted_id (l : list (string * Z)) :
  StronglySorted CacheService.expiry_le l -> CacheService.sort_by_expiry l = l.
Proof.
  induction 1 as [|x r Hs IH Hall]; [done|].
  change (CacheService.sort_by_expiry (x :: r))
    with (CacheService.insert_by_expiry x (CacheService.sort_by_expiry r)).
  rewrite IH. destruct r as [|y r]; simpl; [done|].
  apply Forall_cons in Hall as [Hxy _]. unfold CacheService.expiry_le in Hxy.
  by destruct (Z.leb_spec (snd x) (snd y)); [|lia].
Qed.

Lemma fold_key_delete_take {V} (m : JsMap.t V) (n : nat) :
  NoDup (JsMap.keys m) ->
  fold_left (fun ks a => JsMap.key_delete (fst a) ks) (take n m)
    (JsMap.keys m)
  = drop n (JsMap.keys m).
Proof.
  revert n. induction m as [|[k v] r IH]; intros n Hnd.
  - by destruct n.
  - destruct n as [|n]; [done|]. simpl. rewrite String.eqb_refl.
    apply NoDup_cons in Hnd as [_ Hnd]. by apply IH.
Qed.

(** X28. Among entries whose expiry times do not decrease in the order of
    the map, as when every entry is set once and with one lifetime,
    [evictOldest()] removes the entries that were set first, entries with
    equal expiry times included: what is left of both maps is what there
    was without the first [Math.ceil(size * 0.1)] keys. *)
Theorem evictOldest_removes_the_first_set
  (l : list (Z * CacheService.op)) :
  let c := CacheService.run l in
  StronglySorted CacheService.expiry_le (CacheService.ttls c) ->
  JsMap.keys (CacheService.cache (CacheService.evictOldest c))
  = drop (Z.to_nat (ceil_tenth (CacheService.size c)))
      (JsMap.keys (CacheService.cache c)) /\
  JsMap.keys (CacheService.ttls (CacheService.evictOldest c))
  = drop (Z.to_nat (ceil_tenth (CacheService.size c)))
      (JsMap.keys (CacheService.ttls c)).
Proof.
  intros c Hsorted.
  pose proof (inv_run l) as Hinv. fold c in Hinv.
  pose proof (inv_evictOldest c Hinv) as [Hkeys' _].
  destruct Hinv as [Hkeys Hwf].
  assert (JsMap.keys (CacheService.cache (CacheService.evictOldest c))
          = drop (Z.to_nat (ceil_tenth (CacheService.size c)))
              (JsMap.keys (CacheService.cache c))) as Hcache.
  { unfold CacheService.evictOldest.
    rewrite (sort_by_expiry_sorted_id _ Hsorted).
    rewrite (keys_fold_delete fst). rewrite Hkeys.
    apply fold_key_delete_take. by rewrite <- Hkeys. }
  split; [done|]. by rewrite <- Hkeys', Hcache, Hkeys.
Qed.

Lemma evictOldest_removes_the_first_set_witness :
  JsMap.keys
    (CacheService.cache
       (CacheService.evictOldest (CacheService.run (Samples.fill 12))))
  = drop (Z.to_nat
            (ceil_tenth (CacheService.size (CacheService.run (Samples.fill 12)))))
      (JsMap.keys (CacheService.cache (CacheService.run (Samples.fill 12)))) /\
  JsMap.keys
    (CacheService.ttls
       (CacheService.evictOldest (CacheService.run (Samples.fill 12))))
  = drop (Z.to_nat
            (ceil_tenth (CacheService.size (CacheService.run (Samples.fill 12)))))
      (JsMap.keys (CacheService.ttls (CacheService.run (Samples.fill 12)))).
Proof.
  apply (evictOldest_removes_the_first_set (Samples.fill 12)).
  match goal with
  | |- StronglySorted _ ?ttls =>
      let entries := eval vm_compute in ttls in change ttls with entries
  end.
  repeat constructor; unfold CacheService.expiry_le; simpl; lia.
Defined.
